(** * A radix tree with multi-valued keys: insertion, removal and pruning

    Shallow embedding of [trunk/js-search-rt/RadixTree.js].

    Modelling conventions.
    - A JavaScript string is a [string]; keys are ASCII, so [toLowerCase]
      only touches the letters [A]..[Z].
    - A tree node is a JavaScript object whose own properties are the edge
      labels of its children, plus the reserved property [$] that holds the
      data array.  The embedding keeps [$] in a field of its own ([data],
      [None] when the property is absent) and the other properties in
      [children], in the enumeration order of the object (see [Props.set]).
      The two only stay apart in the program as long as no key contains the
      character [$], and a label is only an own property as long as it is
      not [__proto__]: the loop of [_traverse] visits the property [$] like
      a child, so that a key with [$] in it can lead into a data array, and
      an assignment to the property [__proto__] replaces the prototype of
      the node instead of adding a child.  The embedding describes the
      program on keys without [$] and [__proto__]; [plain_key] states that
      side condition, [Reachable] carries it for the calls that made a
      tree, and the theorems about a call assume it of the key.
    - The alias table [keySwap] is optional.  Where there is one, the
      lookup [this.keySwap[key]] also finds the members that the table
      inherits from [Object.prototype], and [_processKey] then throws: see
      [alias] and [_processKey_throws].
    - The counters are integers; in the program they are numbers, which
      count exactly as long as they are safe integers ([safe_integer]).
    - [buildJSONString] serializes [tree]: two states with the same [tree]
      export the same document.
    - A reference to a node is the list of edge labels leading to it from
      the root: every node has exactly one parent, so a reference and a path
      determine each other.  [index.node] is kept as the pair of the node it
      designates ([node]) and its location ([node_ref]); writes through the
      reference go through [store].
    - [console.log] appends to the [console] field of the object.
    - A call returns, or throws; [Outcome] records which, together with the
      state of the object at that point.  The recursion of [_traverse] is
      driven by a fuel argument; [None] means the fuel ran out. *)

From Stdlib Require Import String Ascii List ZArith Lia Bool Arith PeanoNat Permutation DecimalString.
Import ListNotations.

Set Implicit Arguments.
Set Maximal Implicit Insertion.

Local Open Scope string_scope.
Local Open Scope list_scope.
Local Open Scope nat_scope.

(** ** Strings *)

Module JsString.

(** [s.substr(start)] for [0 <= start]. *)
Fixpoint substr (s : string) (start : nat) : string :=
  match start, s with
  | O, _ => s
  | S n, String _ t => substr t n
  | S _, EmptyString => EmptyString
  end.

Fixpoint prefix (s : string) (len : nat) : string :=
  match len, s with
  | S n, String c t => String c (prefix t n)
  | _, _ => EmptyString
  end.

(** [s.substr(start, len)] for [0 <= start] and [0 <= len]. *)
Definition substr2 (s : string) (start len : nat) : string :=
  prefix (substr s start) len.

(** [s.charAt(0)]; [None] stands for the empty string it returns when
    [s] is empty. *)
Definition charAt0 (s : string) : option ascii :=
  match s with
  | EmptyString => None
  | String c _ => Some c
  end.

Definition lower (c : ascii) : ascii :=
  let n := nat_of_ascii c in
  if (65 <=? n) && (n <=? 90) then ascii_of_nat (n + 32) else c.

Fixpoint toLowerCase (s : string) : string :=
  match s with
  | EmptyString => EmptyString
  | String c t => String (lower c) (toLowerCase t)
  end.

(** [s.replace(/ /g, "_")] *)
Fixpoint replace_spaces (s : string) : string :=
  match s with
  | EmptyString => EmptyString
  | String c t =>
      String (if Ascii.eqb c " "%char then "_"%char else c) (replace_spaces t)
  end.

(** The inner loop of [_traverse]:
    [for (i = 0; i < tempKey.length; i++)
       if (tempKey.charAt(i) !== str.charAt(i)) break;]
    and the value of [i] after it. *)
Fixpoint match_len (tempKey str : string) : nat :=
  match tempKey, str with
  | String a t, String b s => if Ascii.eqb a b then S (match_len t s) else 0
  | _, _ => 0
  end.

Fixpoint all_chars (p : ascii -> bool) (s : string) : bool :=
  match s with
  | EmptyString => true
  | String c t => p c && all_chars p t
  end.

Fixpoint starts_with (p s : string) : bool :=
  match p, s with
  | EmptyString, _ => true
  | String a p', String b s' => Ascii.eqb a b && starts_with p' s'
  | String _ _, EmptyString => false
  end.

Fixpoint contains (p s : string) : bool :=
  starts_with p s
  || match s with
     | EmptyString => false
     | String _ s' => contains p s'
     end.

End JsString.

(** ** Own properties of an object, in enumeration order

    [for (k in o)] and [Object.keys(o)] list the properties that are array
    indices first, by increasing value, then the others in the order of
    their creation. *)

Module Props.
Section Props.
Context {A : Type}.

Definition t := list (string * A).

Fixpoint get (k : string) (l : t) : option A :=
  match l with
  | [] => None
  | (k', v) :: l' => if String.eqb k k' then Some v else get k l'
  end.

Definition has (k : string) (l : t) : bool :=
  match get k l with Some _ => true | None => false end.

(** [o[k] = f(o[k])] on a property that exists: its place is kept. *)
Fixpoint update (k : string) (f : A -> A) (l : t) : t :=
  match l with
  | [] => []
  | (k', v) :: l' =>
      if String.eqb k k' then (k', f v) :: l' else (k', v) :: update k f l'
  end.

Definition digit (c : ascii) : option N :=
  let n := N_of_ascii c in
  if ((48 <=? n) && (n <=? 57))%N then Some (n - 48)%N else None.

Fixpoint digits (acc : N) (s : string) : option N :=
  match s with
  | EmptyString => Some acc
  | String c r =>
      match digit c with
      | Some d => digits (10 * acc + d)%N r
      | None => None
      end
  end.

(** The array index a property name denotes, if any: a canonical decimal
    numeral below [2^32 - 1]. *)
Definition array_index (k : string) : option N :=
  match k with
  | EmptyString => None
  | String c r =>
      match digits 0 k with
      | Some n =>
          if (negb (Ascii.eqb c "0"%char) || (String.length r =? 0))
             && (n <? 4294967295)%N
          then Some n else None
      | None => None
      end
  end.

(** Creation of a property that is an array index. *)
Fixpoint add_index (n : N) (k : string) (v : A) (l : t) : t :=
  match l with
  | [] => [(k, v)]
  | (k', v') :: l' =>
      match array_index k' with
      | Some n' =>
          if (n' <? n)%N then (k', v') :: add_index n k v l'
          else (k, v) :: l
      | None => (k, v) :: l
      end
  end.

(** [o[k] = v], for a name [k] other than [__proto__] (an assignment to
    that name sets the prototype of [o] and adds no property). *)
Definition set (k : string) (v : A) (l : t) : t :=
  if has k l then update k (fun _ => v) l
  else match array_index k with
       | Some n => add_index n k v l
       | None => l ++ [(k, v)]
       end.

(** [delete o[k]] *)
Definition delete (k : string) (l : t) : t :=
  filter (fun kv => negb (String.eqb k (fst kv))) l.

Definition keys (l : t) : list string := map fst l.

End Props.
Arguments t : clear implicits.

(** The members that an object made by an object literal inherits from
    [Object.prototype]: [o[k]] finds one of them when [o] has no own
    property [k], and what it finds is a function or, for [__proto__], an
    object. *)
Definition inherited (k : string) : bool :=
  existsb (String.eqb k)
    ["constructor"; "__proto__"; "hasOwnProperty"; "isPrototypeOf";
     "propertyIsEnumerable"; "toLocaleString"; "toString"; "valueOf";
     "__defineGetter__"; "__defineSetter__"; "__lookupGetter__";
     "__lookupSetter__"].
End Props.

(** ** The tree *)

Section RadixTree.

(** The values attached to keys, and [JSON.stringify] on them. *)
Variable Value : Type.
Variable JSON_stringify : Value -> string.

#[warnings="-register-all"] Inductive Node : Type :=
  mkNode { data : option (list Value); children : list (string * Node) }.

(** [{}] *)
Definition empty_object : Node := mkNode None [].
(** [{$:[data]}] *)
Definition leaf (v : Value) : Node := mkNode (Some [v]) [].

Definition with_data (d : option (list Value)) (n : Node) : Node :=
  mkNode d (children n).
Definition with_children (cs : list (string * Node)) (n : Node) : Node :=
  mkNode (data n) cs.

Definition path := list string.

(** The node a reference designates. *)
Fixpoint deref (t : Node) (p : path) : option Node :=
  match p with
  | [] => Some t
  | l :: p' =>
      match Props.get l (children t) with
      | Some c => deref c p'
      | None => None
      end
  end.

(** The tree after the node designated by [p] has been changed by [f]. *)
Fixpoint modify (p : path) (f : Node -> Node) (t : Node) : Node :=
  match p with
  | [] => f t
  | l :: p' => with_children (Props.update l (modify p' f) (children t)) t
  end.

Definition store (p : path) (n : Node) (t : Node) : Node :=
  modify p (fun _ => n) t.

Record RadixTree : Type := mkRadixTree {
  tree : Node;
  keywordCount : Z;
  dataCount : Z;
  keySwap : option (list (string * string));
  console : list string
}.

Definition set_tree (t : Node) (this : RadixTree) : RadixTree :=
  mkRadixTree t (keywordCount this) (dataCount this) (keySwap this) (console this).
Definition set_keywordCount (n : Z) (this : RadixTree) : RadixTree :=
  mkRadixTree (tree this) n (dataCount this) (keySwap this) (console this).
Definition set_dataCount (n : Z) (this : RadixTree) : RadixTree :=
  mkRadixTree (tree this) (keywordCount this) n (keySwap this) (console this).
Definition console_log (msg : string) (this : RadixTree) : RadixTree :=
  mkRadixTree (tree this) (keywordCount this) (dataCount this) (keySwap this)
              (console this ++ [msg]).

(** The counters are JavaScript numbers: adding one to a counter, or taking
    one from it, gives the next integer as long as the counter is a safe
    integer, of magnitude below [2^53]. *)
Definition safe_integer (n : Z) : bool :=
  ((- 2 ^ 53 <? n) && (n <? 2 ^ 53))%Z.

(** [Object.create(RadixTree, {keywordCount: 0, dataCount: 0, tree: {}})],
    with the optional alias table. *)
Definition create (swap : option (list (string * string))) : RadixTree :=
  mkRadixTree empty_object 0 0 swap [].

Inductive Exception : Type := TypeError.

Inductive Outcome : Type :=
| Returned (this : RadixTree)
| Thrown (e : Exception) (this : RadixTree).

Definition state_of (o : Outcome) : RadixTree :=
  match o with Returned s => s | Thrown _ s => s end.

Record Index : Type := mkIndex {
  node : Node;
  node_ref : path;
  nodeKey : string;
  charsMatch : nat;
  ttlCharsMatch : nat;
  parents : list path
}.

(** The four handlers passed to [_traverse]; [exists_] is the property
    [exists] of the program.  [D] is the type of the [data] argument: a
    value for [insert], a value or [undefined] for [remove]. *)
Record Callbacks (D : Type) : Type := mkCallbacks {
  nonExists : RadixTree -> string -> D -> Index -> Outcome;
  suffix : RadixTree -> string -> D -> Index -> Outcome;
  exact : RadixTree -> string -> D -> Index -> Outcome;
  exists_ : RadixTree -> string -> D -> Index -> Outcome
}.

(** *** Utility functions *)

Definition _isEmpty (n : Node) : bool :=
  match data n, children n with
  | None, [] => true
  | _, _ => false
  end.

Definition _leafCount (n : Node) : nat := List.length (children n).

(** [this.keySwap] is optional: [None] where the object has no such
    property, and otherwise the own entries of the alias table, which is an
    object made by an object literal. *)
Inductive Alias : Type :=
| NoAlias
| OwnAlias (s : string)
| InheritedMember.

(** What [this.keySwap && this.keySwap[key]] is: nothing that counts
    (no table, no entry, or an entry that is the empty string, which is
    falsy), the string of an own entry, or a member that the table
    inherits from [Object.prototype]. *)
Definition alias (this : RadixTree) (key : string) : Alias :=
  match keySwap this with
  | None => NoAlias
  | Some swap =>
      match Props.get key swap with
      | Some s => if String.eqb s "" then NoAlias else OwnAlias s
      | None => if Props.inherited key then InheritedMember else NoAlias
      end
  end.

(** Where the table answers with an inherited member, [key] becomes a
    function (or the object [Object.prototype]) and [key.toLowerCase()]
    throws a [TypeError]. *)
Definition _processKey_throws (this : RadixTree) (key : string) : bool :=
  match alias this key with
  | InheritedMember => true
  | _ => false
  end.

(** The key that [_processKey] returns, where it returns. *)
Definition _processKey (this : RadixTree) (key : string) : string :=
  let key :=
    match alias this key with
    | OwnAlias s => s
    | _ => key
    end in
  JsString.replace_spaces (JsString.toLowerCase key).

(** *** Insert handlers *)

Definition _insertData (this : RadixTree) (key : string) (v : Value)
    (index : Index) : Outcome :=
  let n := node index in
  let n' :=
    match data n with
    | Some (x :: l) => with_data (Some ((x :: l) ++ [v])) n
    | _ => with_data (Some [v]) n
    end in
  let this := set_tree (store (node_ref index) n' (tree this)) this in
  Returned (set_dataCount (dataCount this + 1) this).

Definition _createNode (this : RadixTree) (key : string) (v : Value)
    (index : Index) : Outcome :=
  let key :=
    if negb (ttlCharsMatch index =? 0)
    then JsString.substr key (ttlCharsMatch index) else key in
  let n' := with_children (Props.set key (leaf v) (children (node index)))
                          (node index) in
  let this := set_tree (store (node_ref index) n' (tree this)) this in
  let this := set_keywordCount (keywordCount this + 1) this in
  Returned (set_dataCount (dataCount this + 1) this).

(** In [index.node[tempKey][tempIndexKey] = index.node[index.nodeKey]]
    the right-hand side is a child of [index.node] whenever the function
    is reached from [_traverse]; where it would be [undefined] the
    assignment is left out.  [ttlCharsMatch] is a sum of values taken by
    [charsMatch], the last one included, so the difference [i] is not
    negative. *)
Definition _splitNode (this : RadixTree) (key : string) (v : Value)
    (index : Index) : Outcome :=
  let i := ttlCharsMatch index - charsMatch index in
  let tempIndexKey := JsString.substr (nodeKey index) (charsMatch index) in
  let tempKey := JsString.substr2 key i (charsMatch index) in
  let cs := children (node index) in
  let cs :=
    if ttlCharsMatch index =? String.length key
    then Props.set tempKey (leaf v) cs
    else
      let str := JsString.substr key (ttlCharsMatch index) in
      let cs := Props.set tempKey empty_object cs in
      Props.update tempKey
        (fun m => with_children (Props.set str (leaf v) (children m)) m) cs in
  let cs :=
    match Props.get (nodeKey index) cs with
    | Some old =>
        Props.update tempKey
          (fun m => with_children (Props.set tempIndexKey old (children m)) m)
          cs
    | None => cs
    end in
  let cs := Props.delete (nodeKey index) cs in
  let n' := with_children cs (node index) in
  let this := set_tree (store (node_ref index) n' (tree this)) this in
  let this := set_keywordCount (keywordCount this + 1) this in
  Returned (set_dataCount (dataCount this + 1) this).

(** *** Remove handlers *)

(** One pass of the loop body of [_removeEmptyParents] over the
    properties of a parent: every property whose value has no own
    property is deleted ([$] included, were its array empty). *)
Definition delete_empty (n : Node) : Node :=
  mkNode (match data n with Some [] => None | d => d end)
         (filter (fun kv => negb (_isEmpty (snd kv))) (children n)).

Definition _removeEmptyParents (parents : list path) (t : Node) : Node :=
  fold_left (fun t p => modify p delete_empty t) (rev parents) t.

(** The value of [i] after
    [for (i = 0; i < arrlen; i++) if (testData === JSON.stringify(a[i])) break;] *)
Fixpoint find_data (testData : string) (a : list Value) : nat :=
  match a with
  | [] => 0
  | x :: a' =>
      if String.eqb testData (JSON_stringify x) then 0
      else S (find_data testData a')
  end.

(** [a.splice(i, 1)] *)
Fixpoint splice1 (i : nat) (a : list Value) : list Value :=
  match i, a with
  | _, [] => []
  | O, _ :: a' => a'
  | S j, x :: a' => x :: splice1 j a'
  end.

(** [delete index.node.$; this.keywordCount--;] and the clean-up of the
    ancestors when the node is left without properties. *)
Definition delete_data (this : RadixTree) (index : Index) : RadixTree :=
  let n' := with_data None (node index) in
  let this := set_tree (store (node_ref index) n' (tree this)) this in
  let this := set_keywordCount (keywordCount this - 1) this in
  if _isEmpty n'
  then set_tree (_removeEmptyParents (parents index) (tree this)) this
  else this.

Definition _removeData (this : RadixTree) (key : string)
    (v : option Value) (index : Index) : Outcome :=
  match v with
  | None =>
      match data (node index) with
      | None => Thrown TypeError this
      | Some a =>
          let this :=
            set_dataCount (dataCount this - Z.of_nat (List.length a)) this in
          Returned (delete_data this index)
      end
  | Some v =>
      let testData := JSON_stringify v in
      match data (node index) with
      | None => Thrown TypeError this
      | Some a =>
          let arrlen := List.length a in
          let i := find_data testData a in
          if i <? arrlen then
            let a' := splice1 i a in
            let this :=
              set_tree (store (node_ref index) (with_data (Some a') (node index))
                              (tree this)) this in
            let this := set_dataCount (dataCount this - 1) this in
            if List.length a' =? 0
            then Returned (delete_data this index)
            else Returned this
          else
            Returned (console_log
              ("Removal failed. Key: '" ++ key ++
               "' matched but cound not find matching data to remove.")%string
              this)
      end
  end.

Definition _removeError (this : RadixTree) (key : string)
    (v : option Value) (index : Index) : Outcome :=
  if ttlCharsMatch index =? 0 then
    Returned (console_log
      ("Removal failed. key: '" ++ key ++ "' doesn't exist")%string this)
  else if ttlCharsMatch index <? String.length key then
    Returned (console_log
      ("Removal failed. key: '" ++ key ++
       "' contains a suffix of a matching key: '" ++
       JsString.substr2 key 0 (ttlCharsMatch index) ++ "'")%string this)
  else if 0 <? ttlCharsMatch index then
    Returned (console_log
      ("Removal failed. key: '" ++ key ++
       "' has a partial match until here: '" ++
       JsString.substr2 key 0 (ttlCharsMatch index) ++
       "'. Check spelling and try removal again")%string this)
  else
    Returned (console_log ("process results failed: " ++ key)%string this).

(** *** Traversal *)

Inductive Classification : Type :=
| NonExistent | Suffix | Exact | Exists | ClassificationFailure.

(** The [switch (true)] of [_processResults]. *)
Definition classify (key : string) (index : Index) : Classification :=
  if ttlCharsMatch index =? 0 then NonExistent
  else if (ttlCharsMatch index <? String.length key)
          && (charsMatch index =? String.length (nodeKey index)) then Suffix
  else if (ttlCharsMatch index =? String.length key)
          && (charsMatch index =? String.length (nodeKey index)) then Exact
  else if 0 <? ttlCharsMatch index then Exists
  else ClassificationFailure.

Definition _processResults {D : Type} (this : RadixTree) (key : string)
    (d : D) (index : Index) (callbacks : Callbacks D) : Outcome :=
  match classify key index with
  | NonExistent => nonExists callbacks this key d index
  | Suffix => suffix callbacks this key d index
  | Exact => exact callbacks this key d index
  | Exists => exists_ callbacks this key d index
  | ClassificationFailure =>
      Returned (console_log ("Process results failed: " ++ key)%string this)
  end.

(** The loop over the children of [index.node]: the first child, in
    enumeration order, whose label agrees with [tempKey] on at least one
    character, with the number of characters that agree.  The loop of the
    program also visits the property [$]; it agrees on no character with a
    [tempKey] that does not begin with [$], which is the case for every
    remainder of a plain key, and the embedding leaves it out. *)
Fixpoint first_match (tempKey : string) (cs : list (string * Node))
    : option (string * Node * nat) :=
  match cs with
  | [] => None
  | (str, child) :: cs' =>
      let i := JsString.match_len tempKey str in
      if 0 <? i then Some (str, child, i) else first_match tempKey cs'
  end.

(** The body of [_traverse] up to its final test. *)
Definition step (key : string) (index : Index) : Index :=
  let tempKey := JsString.substr key (ttlCharsMatch index) in
  match first_match tempKey (children (node index)) with
  | Some (str, child, i) =>
      if i =? String.length str then
        mkIndex child (node_ref index ++ [str]) str i
                (ttlCharsMatch index + i) (parents index ++ [node_ref index])
      else
        mkIndex (node index) (node_ref index) str i
                (ttlCharsMatch index + i) (parents index)
  | None => index
  end.

(** The final test of [_traverse]. *)
Definition descend (key : string) (tempMatch : nat) (index : Index) : bool :=
  (ttlCharsMatch index <? String.length key)
  && negb (_leafCount (node index) =? 0)
  && (charsMatch index =? String.length (nodeKey index))
  && negb (tempMatch =? ttlCharsMatch index).

Fixpoint _traverse {D : Type} (fuel : nat) (this : RadixTree) (key : string)
    (d : D) (index : Index) (callbacks : Callbacks D) : option Outcome :=
  match fuel with
  | O => None
  | S fuel' =>
      let tempMatch := ttlCharsMatch index in
      let index := step key index in
      if descend key tempMatch index
      then _traverse fuel' this key d index callbacks
      else Some (_processResults this key d index callbacks)
  end.

(** *** Public functions *)

Definition initial_index (this : RadixTree) : Index :=
  mkIndex (tree this) [] "" 0 0 [].

Definition insert_callbacks : Callbacks Value :=
  mkCallbacks _createNode _createNode _insertData _splitNode.

Definition remove_callbacks : Callbacks (option Value) :=
  mkCallbacks _removeError _removeError _removeData _removeError.

Definition insert (this : RadixTree) (key : string) (v : Value)
    : option Outcome :=
  let index := initial_index this in
  let callbacks := insert_callbacks in
  if _processKey_throws this key then Some (Thrown TypeError this) else
  let key := _processKey this key in
  _traverse (S (String.length key)) this key v index callbacks.

Definition remove (this : RadixTree) (key : string) (v : option Value)
    : option Outcome :=
  let index := initial_index this in
  let callbacks := remove_callbacks in
  if _processKey_throws this key then Some (Thrown TypeError this) else
  let key := _processKey this key in
  _traverse (S (String.length key)) this key v index callbacks.

(** *** Full scans of the tree *)

Definition has_data (n : Node) : bool :=
  match data n with
  | Some (_ :: _) => true
  | _ => false
  end.

Definition data_length (n : Node) : nat :=
  match data n with
  | Some a => List.length a
  | None => 0
  end.

Fixpoint scan (f : Node -> nat) (n : Node) : nat :=
  f n + (fix over (cs : list (string * Node)) : nat :=
           match cs with
           | [] => 0
           | (_, c) :: cs' => scan f c + over cs'
           end) (children n).

Definition scan_keywords (t : Node) : nat :=
  scan (fun n => if has_data n then 1 else 0) t.
Definition scan_data (t : Node) : nat := scan data_length t.

(** *** Notions used to state the properties of the program *)

(** The index with which [_traverse] calls [_processResults]. *)
Fixpoint descent (fuel : nat) (key : string) (index : Index) : option Index :=
  match fuel with
  | O => None
  | S fuel' =>
      let tempMatch := ttlCharsMatch index in
      let index := step key index in
      if descend key tempMatch index
      then descent fuel' key index
      else Some index
  end.

(** The traversal made by [insert] and [remove] for a processed key. *)
Definition traversal (this : RadixTree) (key : string) : option Index :=
  descent (S (String.length key)) key (initial_index this).

(** [n[label] = {$:[v]}] *)
Definition add_child (label : string) (v : Value) (n : Node) : Node :=
  with_children (Props.set label (leaf v) (children n)) n.

(** The node that [_splitNode] puts between the current node and its
    child [old]. *)
Definition intermediate (key : string) (v : Value) (index : Index)
    (old : Node) : Node :=
  let tempIndexKey := JsString.substr (nodeKey index) (charsMatch index) in
  if ttlCharsMatch index =? String.length key
  then mkNode (Some [v]) (Props.set tempIndexKey old [])
  else mkNode None
         (Props.set tempIndexKey old
            [(JsString.substr key (ttlCharsMatch index), leaf v)]).

(** The references to the ancestors of the node at [p], root first. *)
Fixpoint prefixes (p : path) : list path :=
  match p with
  | [] => []
  | l :: p' => [] :: map (cons l) (prefixes p')
  end.

(** A property of every node of a tree. *)
#[warnings="-register-all"] Inductive AllNodes (P : Node -> Prop) : Node -> Prop :=
| AllNodes_intro : forall n,
    P n ->
    Forall (fun kv => AllNodes P (snd kv)) (children n) ->
    AllNodes P n.

(** No two edge labels of the children of [n] have the same first
    character ([charAt(0)] of the empty label being the empty string). *)
Definition radix (n : Node) : Prop :=
  NoDup (map JsString.charAt0 (Props.keys (children n))).

(** [n] has no child without properties, and no empty data array. *)
Definition clean (n : Node) : Prop :=
  data n <> Some [] /\
  Forall (fun kv => _isEmpty (snd kv) = false) (children n).

Definition well_formed (t : Node) : Prop :=
  AllNodes radix t /\ AllNodes clean t.

(** [t] is as it should be, but for the node at [p], which may have been
    left without properties. *)
Fixpoint pending (p : path) (t : Node) : Prop :=
  match p with
  | [] => AllNodes clean t
  | l :: p' =>
      data t <> Some [] /\
      exists c,
        Props.get l (children t) = Some c /\
        pending p' c /\
        (p' <> [] -> _isEmpty c = false) /\
        Forall (fun kv => fst kv <> l ->
                          _isEmpty (snd kv) = false /\ AllNodes clean (snd kv))
               (children t)
  end.

(** The children of [n] whose label agrees with [tempKey] on at least one
    character. *)
Definition candidates (tempKey : string) (n : Node) : list (string * Node) :=
  filter (fun kv => 0 <? JsString.match_len tempKey (fst kv)) (children n).


(** Keys whose labels are ordinary property names: the reserved name [$]
    does not occur in them, nor does [__proto__]. *)
Definition plain_key (key : string) : bool :=
  JsString.all_chars (fun c => negb (Ascii.eqb c "$"%char)) key
  && negb (JsString.contains "__proto__" key).

(** The states of the object after finitely many calls of [insert] and
    [remove] on a new tree. *)
Inductive Reachable : RadixTree -> Prop :=
| Reachable_create : forall swap, Reachable (create swap)
| Reachable_insert : forall this key v o,
    Reachable this ->
    plain_key (_processKey this key) = true ->
    insert this key v = Some o ->
    Reachable (state_of o)
| Reachable_remove : forall this key v o,
    Reachable this ->
    plain_key (_processKey this key) = true ->
    remove this key v = Some o ->
    Reachable (state_of o).

(** What holds of an index while [_traverse] runs on the tree [t]. *)
Record Tracks (t : Node) (key : string) (index : Index) : Prop := mkTracks {
  tracks_node : deref t (node_ref index) = Some (node index);
  tracks_parents : parents index = prefixes (node_ref index);
  tracks_chars : charsMatch index <= ttlCharsMatch index;
  tracks_ttl : ttlCharsMatch index <= String.length key
}.

(** What holds of the index when the recursion stops: the last label
    examined matched entirely and no child of the current node matches
    what is left of the key, or it matched in part and is a child of the
    current node. *)
Definition Stopped (key : string) (index : Index) : Prop :=
  (charsMatch index = String.length (nodeKey index) /\
   (ttlCharsMatch index < String.length key ->
    first_match (JsString.substr key (ttlCharsMatch index))
                (children (node index)) = None))
  \/
  (0 < charsMatch index < String.length (nodeKey index) /\
   exists old,
     first_match
       (JsString.substr key (ttlCharsMatch index - charsMatch index))
       (children (node index)) = Some (nodeKey index, old, charsMatch index)).

End RadixTree.

Arguments empty_object {Value}.
Arguments create {Value}.

(** ** The handler of [remove] in the other versions of the program, and
    further notions *)

Section Versions.

Variable Value : Type.
Variable JSON_stringify : Value -> string.

(** [removeData] of the version written as a closure (the file without a
    name, and the second program of [RadixTreeOld.js], where it is called
    [_removeData]): the test for a node left without properties is made
    once, after the branches.  The first component of the intermediate
    result is the state of the object, the second the node [index.node] as
    the branch leaves it. *)
Definition removeData (this : RadixTree Value) (key : string)
    (v : option Value) (index : Index Value) : Outcome Value :=
  let branch : option (RadixTree Value * Node Value) :=
    match v with
    | None =>
        match data (node index) with
        | None => None
        | Some a =>
            let this :=
              set_dataCount (dataCount this - Z.of_nat (List.length a)) this in
            let n' := with_data None (node index) in
            let this := set_tree (store (node_ref index) n' (tree this)) this in
            Some (set_keywordCount (keywordCount this - 1) this, n')
        end
    | Some v =>
        let testData := JSON_stringify v in
        match data (node index) with
        | None => None
        | Some a =>
            let arrlen := List.length a in
            let i := find_data JSON_stringify testData a in
            if i <? arrlen then
              let a' := splice1 i a in
              let n' := with_data (Some a') (node index) in
              let this := set_tree (store (node_ref index) n' (tree this)) this in
              let this := set_dataCount (dataCount this - 1) this in
              if List.length a' =? 0 then
                let n' := with_data None n' in
                let this :=
                  set_tree (store (node_ref index) n' (tree this)) this in
                Some (set_keywordCount (keywordCount this - 1) this, n')
              else Some (this, n')
            else
              Some (console_log
                      ("Removal failed. Key: '" ++ key ++
                       "' matched but cound not find matching data to remove.")%string
                      this, node index)
        end
    end in
  match branch with
  | None => Thrown TypeError this
  | Some (this', n') =>
      if _isEmpty n'
      then Returned
             (set_tree (_removeEmptyParents (parents index) (tree this')) this')
      else Returned this'
  end.

(** The labels along a reference, put end to end. *)
Fixpoint spell (p : path) : string :=
  match p with
  | [] => ""
  | l :: p' => (l ++ spell p')%string
  end.

(** The states reached by calls in which no key given to [insert] is
    empty once processed. *)
Inductive ReachableNonEmpty : RadixTree Value -> Prop :=
| ReachableNonEmpty_create : forall swap, ReachableNonEmpty (create swap)
| ReachableNonEmpty_insert : forall this key v o,
    ReachableNonEmpty this ->
    plain_key (_processKey this key) = true ->
    _processKey this key <> "" ->
    insert this key v = Some o ->
    ReachableNonEmpty (state_of o)
| ReachableNonEmpty_remove : forall this key v o,
    ReachableNonEmpty this ->
    plain_key (_processKey this key) = true ->
    remove JSON_stringify this key v = Some o ->
    ReachableNonEmpty (state_of o).

(** Characters that [_processKey] leaves in a key: neither a space nor a
    capital letter. *)
Definition processed_char (c : ascii) : bool :=
  negb (Ascii.eqb c " "%char)
  && negb ((65 <=? nat_of_ascii c) && (nat_of_ascii c <=? 90)).

End Versions.

(** The first program of [RadixTreeOld.js]. *)
Module Old.
Section Old.

Variable Value : Type.
Variable JSON_stringify : Value -> string.

(** The value of [i] after the search loop, where [testData] is
    [JSON.stringify(data)]: [undefined], here [None], when [data] is
    [undefined], and then equal to the serialization of no value. *)
Fixpoint find_data (testData : option string) (a : list Value) : nat :=
  match a with
  | [] => 0
  | x :: a' =>
      if match testData with
         | Some s => String.eqb s (JSON_stringify x)
         | None => false
         end
      then 0
      else S (find_data testData a')
  end.

(** [_removeData] has no branch for a call without [data]. *)
Definition _removeData (this : RadixTree Value) (key : string)
    (v : option Value) (index : Index Value) : Outcome Value :=
  let testData := option_map JSON_stringify v in
  match data (node index) with
  | None => Thrown TypeError this
  | Some a =>
      let arrlen := List.length a in
      let i := find_data testData a in
      if i <? arrlen then
        let a' := splice1 i a in
        let this :=
          set_tree (store (node_ref index) (with_data (Some a') (node index))
                          (tree this)) this in
        let this := set_dataCount (dataCount this - 1) this in
        if List.length a' =? 0
        then Returned (delete_data this index)
        else Returned this
      else
        Returned (console_log
          ("Removal failed. Key: '" ++ key ++
           "' matched but cound not find matching data to remove.")%string
          this)
  end.

End Old.
End Old.

(** ** A tree of integers, for the scenarios *)

Module Sample.

Definition show (z : Z) : string := NilZero.string_of_int (Z.to_int z).

Definition inserted (key : string) (v : Z) (this : RadixTree Z) : RadixTree Z :=
  match insert this key v with
  | Some o => state_of o
  | None => this
  end.

Definition removed (key : string) (v : option Z) (this : RadixTree Z)
    : RadixTree Z :=
  match remove show this key v with
  | Some o => state_of o
  | None => this
  end.

Definition new : RadixTree Z := create None.

(** A new tree with the alias table [{cat: "dog"}]. *)
Definition aliased : RadixTree Z := create (Some [("cat", "dog")]).

Definition cart : RadixTree Z := inserted "cart" 1 new.
Definition cart_cast : RadixTree Z := inserted "cast" 2 cart.
Definition cart_cast_ca : RadixTree Z := inserted "ca" 3 cart_cast.
Definition car_card_care : RadixTree Z :=
  inserted "care" 3 (inserted "card" 2 (inserted "car" 1 new)).
Definition cat_cat : RadixTree Z := inserted "cat" 2 (inserted "cat" 1 new).
Definition cat_1_2_1 : RadixTree Z := inserted "cat" 1 cat_cat.
Definition empty_twice : RadixTree Z := inserted "" 2 (inserted "" 1 new).

(** The index with which the traversal for [key] stops. *)
Definition traversed (key : string) (this : RadixTree Z) : Index Z :=
  match traversal this (_processKey this key) with
  | Some index => index
  | None => initial_index this
  end.

Definition node_at (p : path) (this : RadixTree Z) : Node Z :=
  match deref (tree this) p with
  | Some n => n
  | None => empty_object
  end.





End Sample.


(** * Properties *)

Unset Implicit Arguments.
Unset Maximal Implicit Insertion.

(** ** Strings *)

Module JsStringFacts.
Import JsString.

Lemma option_eq_dec_ascii : forall x y : option ascii, {x = y} + {x <> y}.
Proof. decide equality. apply Ascii.ascii_dec. Qed.

Lemma match_len_le_left : forall a b, match_len a b <= String.length a.
Proof.
  induction a as [|x a IH]; intros [|y b]; simpl; try lia.
  destruct (Ascii.eqb x y); [specialize (IH b)|]; lia.
Qed.

Lemma match_len_le_right : forall a b, match_len a b <= String.length b.
Proof.
  induction a as [|x a IH]; intros [|y b]; simpl; try lia.
  destruct (Ascii.eqb x y); [specialize (IH b)|]; lia.
Qed.

Lemma match_len_same : forall s, match_len s s = String.length s.
Proof.
  induction s as [|x s IH]; simpl; [reflexivity|].
  rewrite Ascii.eqb_refl, IH; reflexivity.
Qed.

Lemma charAt0_none : forall s, charAt0 s = None <-> s = "".
Proof. intros [|x s]; simpl; split; congruence. Qed.

Lemma match_len_zero : forall a b,
  match_len a b = 0 <-> a = "" \/ charAt0 a <> charAt0 b.
Proof.
  intros [|x a] [|y b]; simpl.
  - tauto.
  - tauto.
  - split; [right; discriminate | reflexivity].
  - destruct (Ascii.eqb_spec x y) as [->|Hne].
    + split; [discriminate | intros [H|H]; congruence].
    + split; [right; congruence | reflexivity].
Qed.

Lemma match_len_pos : forall a b,
  0 < match_len a b -> charAt0 a = charAt0 b /\ a <> "".
Proof.
  intros a b H.
  destruct (match_len_zero a b) as [_ Hz].
  split.
  - destruct (option_eq_dec_ascii (charAt0 a) (charAt0 b)); [assumption|].
    rewrite Hz in H; [lia | now right].
  - intros ->. simpl in H. lia.
Qed.

Lemma length_zero : forall s, String.length s = 0 <-> s = "".
Proof. intros [|x s]; simpl; split; (congruence || lia). Qed.

Lemma substr_0 : forall s, substr s 0 = s.
Proof. intros [|x s]; reflexivity. Qed.

Lemma length_substr : forall s n,
  String.length (substr s n) = String.length s - n.
Proof.
  induction s as [|x s IH]; intros [|n]; simpl; try reflexivity.
  apply IH.
Qed.

Lemma substr_substr : forall s a b, substr (substr s a) b = substr s (a + b).
Proof.
  induction s as [|x s IH]; intros [|a] b; simpl; try reflexivity.
  - destruct b; reflexivity.
  - apply IH.
Qed.

Lemma substr_nonempty : forall s n, n < String.length s -> substr s n <> "".
Proof.
  intros s n H E. apply length_zero in E. rewrite length_substr in E. lia.
Qed.

Lemma length_prefix : forall s n,
  String.length (prefix s n) = Nat.min n (String.length s).
Proof.
  induction s as [|x s IH]; intros [|n]; simpl; try reflexivity.
  now rewrite IH.
Qed.

Lemma charAt0_prefix : forall s n, 0 < n -> charAt0 (prefix s n) = charAt0 s.
Proof. intros [|x s] [|n] H; simpl; try reflexivity; lia. Qed.

Lemma prefix_agree : forall a b,
  prefix a (match_len a b) = prefix b (match_len a b).
Proof.
  induction a as [|x a IH]; intros [|y b]; simpl; try reflexivity.
  destruct (Ascii.eqb_spec x y) as [->|Hne]; simpl; [|reflexivity].
  now rewrite IH.
Qed.

(** Where the comparison of [a] with [b] stops before the end of both,
    the two differ. *)
Lemma diverge : forall a b,
  match_len a b < String.length a ->
  match_len a b < String.length b ->
  charAt0 (substr a (match_len a b)) <> charAt0 (substr b (match_len a b)).
Proof.
  induction a as [|x a IH]; intros [|y b]; simpl; try lia.
  destruct (Ascii.eqb_spec x y) as [->|Hne]; simpl.
  - intros Ha Hb. apply IH; lia.
  - intros _ _. congruence.
Qed.

End JsStringFacts.

(** ** Lists *)

Module ListFacts.
Section ListFacts.
Context {A B : Type}.

Lemma Permutation_filter : forall (p : A -> bool) (l l' : list A),
  Permutation l l' -> Permutation (filter p l) (filter p l').
Proof.
  intros p l l' H. induction H as [|x l l' H IH|x y l|l l' l'' H1 IH1 H2 IH2];
    simpl.
  - constructor.
  - destruct (p x); auto.
  - destruct (p x), (p y); auto. apply perm_swap.
  - etransitivity; eauto.
Qed.

Lemma NoDup_map_filter : forall (g : A -> B) (p : A -> bool) (l : list A),
  NoDup (map g l) -> NoDup (map g (filter p l)).
Proof.
  induction l as [|x l IH]; simpl; intros H; [constructor|].
  apply NoDup_cons_iff in H. destruct H as [Hx Hl].
  destruct (p x); simpl; auto.
  constructor; auto.
  intros Hin. apply Hx. apply in_map_iff in Hin.
  destruct Hin as (y & E & Hy). apply filter_In in Hy.
  apply in_map_iff. exists y. tauto.
Qed.

Lemma NoDup_map_eq : forall (g : A -> B) (l : list A) (a b : A),
  NoDup (map g l) -> In a l -> In b l -> g a = g b -> a = b.
Proof.
  induction l as [|x l IH]; simpl; intros a b H Ha Hb E; [contradiction|].
  apply NoDup_cons_iff in H. destruct H as [Hx Hl].
  destruct Ha as [<-|Ha], Hb as [<-|Hb]; auto.
  - exfalso. apply Hx. rewrite E. now apply in_map.
  - exfalso. apply Hx. rewrite <- E. now apply in_map.
Qed.

Lemma filter_unique : forall (g : A -> B) (p : A -> bool) (b : B) (l : list A),
  NoDup (map g l) ->
  (forall x, p x = true -> g x = b) ->
  length (filter p l) <= 1.
Proof.
  induction l as [|x l IH]; simpl; intros Hnd Hp; [lia|].
  apply NoDup_cons_iff in Hnd. destruct Hnd as [Hx Hl].
  destruct (p x) eqn:E; [|auto].
  destruct (filter p l) as [|y r] eqn:F; [simpl; lia|].
  exfalso. apply Hx.
  assert (Hy : In y (filter p l)) by (rewrite F; now left).
  apply filter_In in Hy. destruct Hy as [Hy Hpy].
  rewrite (Hp x E), <- (Hp y Hpy). now apply in_map.
Qed.

End ListFacts.
End ListFacts.

(** ** Properties of objects *)

Module PropsFacts.
Section PropsFacts.
Context {A : Type}.
Implicit Types (l : Props.t A) (k : string) (v : A).

Lemma get_In : forall k v l, Props.get k l = Some v -> In (k, v) l.
Proof.
  induction l as [|[k' v'] l IH]; simpl; [discriminate|].
  destruct (String.eqb_spec k k') as [->|Hne]; intros H.
  - left. congruence.
  - right. auto.
Qed.

Lemma get_none : forall k l, Props.get k l = None <-> ~ In k (Props.keys l).
Proof.
  induction l as [|[k' v'] l IH]; simpl; [tauto|].
  destruct (String.eqb_spec k k') as [->|Hne].
  - split; [discriminate | intros H; exfalso; apply H; now left].
  - rewrite IH. split; intros H; [intros [E|E]; [congruence | tauto] | tauto].
Qed.

Lemma has_false : forall k l, Props.has k l = false <-> Props.get k l = None.
Proof.
  intros k l. unfold Props.has. destruct (Props.get k l); split; congruence.
Qed.

Lemma keys_update : forall k f l, Props.keys (Props.update k f l) = Props.keys l.
Proof.
  induction l as [|[k' v'] l IH]; simpl; [reflexivity|].
  destruct (String.eqb k k'); simpl; [reflexivity | now rewrite IH].
Qed.

Lemma length_update : forall k f l, length (Props.update k f l) = length l.
Proof.
  intros k f l.
  rewrite <- (length_map fst (Props.update k f l)), <- (length_map fst l).
  f_equal. apply keys_update.
Qed.

Lemma get_update_same : forall k f l,
  Props.get k (Props.update k f l) = option_map f (Props.get k l).
Proof.
  induction l as [|[k' v'] l IH]; simpl; [reflexivity|].
  destruct (String.eqb_spec k k') as [->|Hne]; simpl.
  - now rewrite String.eqb_refl.
  - destruct (String.eqb_spec k k'); [contradiction | apply IH].
Qed.

Lemma get_update_other : forall k k' f l,
  k <> k' -> Props.get k' (Props.update k f l) = Props.get k' l.
Proof.
  intros k k' f l Hne.
  induction l as [|[k0 v0] l IH]; simpl; [reflexivity|].
  destruct (String.eqb_spec k k0) as [->|Hk]; simpl.
  - destruct (String.eqb_spec k' k0); [congruence | reflexivity].
  - destruct (String.eqb k' k0); [reflexivity | apply IH].
Qed.

Lemma update_update : forall k f g l,
  Props.update k g (Props.update k f l) = Props.update k (fun v => g (f v)) l.
Proof.
  induction l as [|[k' v'] l IH]; simpl; [reflexivity|].
  destruct (String.eqb_spec k k') as [->|Hne]; simpl.
  - now rewrite String.eqb_refl.
  - destruct (String.eqb_spec k k'); [contradiction | now rewrite IH].
Qed.

Lemma update_ext : forall k f g l,
  (forall v, Props.get k l = Some v -> f v = g v) ->
  Props.update k f l = Props.update k g l.
Proof.
  induction l as [|[k' v'] l IH]; simpl; [reflexivity|].
  destruct (String.eqb_spec k k') as [->|Hne]; intros H.
  - now rewrite (H v').
  - f_equal. auto.
Qed.

Lemma update_id : forall k f l,
  (forall v, Props.get k l = Some v -> f v = v) -> Props.update k f l = l.
Proof.
  induction l as [|[k' v'] l IH]; simpl; [reflexivity|].
  destruct (String.eqb_spec k k') as [->|Hne]; intros H.
  - now rewrite (H v').
  - f_equal. auto.
Qed.

Lemma Forall_update : forall (P : string * A -> Prop) k f l,
  Forall P l ->
  (forall v, Props.get k l = Some v -> P (k, v) -> P (k, f v)) ->
  Forall P (Props.update k f l).
Proof.
  induction l as [|[k' v'] l IH]; simpl; intros HF H; [constructor|].
  inversion HF; subst.
  destruct (String.eqb_spec k k') as [->|Hne]; constructor; auto.
Qed.

Lemma In_get : forall k v l,
  NoDup (Props.keys l) -> In (k, v) l -> Props.get k l = Some v.
Proof.
  induction l as [|[k' v'] l IH]; simpl; intros Hnd Hin; [contradiction|].
  apply NoDup_cons_iff in Hnd. destruct Hnd as [Hk Hnd].
  destruct Hin as [E|Hin].
  - inversion E; subst. now rewrite String.eqb_refl.
  - destruct (String.eqb_spec k k') as [->|Hne]; [|auto].
    exfalso. apply Hk. apply (in_map fst) in Hin. exact Hin.
Qed.

(** *** Creation of a property *)

Lemma add_index_perm : forall n k v l,
  Permutation (Props.add_index n k v l) ((k, v) :: l).
Proof.
  induction l as [|[k' v'] l IH]; simpl; [reflexivity|].
  destruct (Props.array_index k') as [n'|]; [|reflexivity].
  destruct (n' <? n)%N; [|reflexivity].
  rewrite IH. apply perm_swap.
Qed.

Lemma set_new_perm : forall k v l,
  Props.has k l = false -> Permutation (Props.set k v l) ((k, v) :: l).
Proof.
  intros k v l H. unfold Props.set. rewrite H.
  destruct (Props.array_index k).
  - apply add_index_perm.
  - rewrite Permutation_app_comm. reflexivity.
Qed.

Lemma keys_set_new : forall k v l,
  Props.has k l = false ->
  Permutation (Props.keys (Props.set k v l)) (k :: Props.keys l).
Proof.
  intros k v l H. unfold Props.keys.
  change (k :: map fst l) with (map fst ((k, v) :: l)).
  apply Permutation_map, set_new_perm, H.
Qed.

Lemma keys_set_old : forall k v l,
  Props.has k l = true -> Props.keys (Props.set k v l) = Props.keys l.
Proof. intros k v l H. unfold Props.set. rewrite H. apply keys_update. Qed.

Lemma set_nil : forall k v, Props.set k v [] = [(k, v)].
Proof. intros k v. unfold Props.set. simpl. now destruct (Props.array_index k). Qed.

Lemma Forall_set : forall (P : string * A -> Prop) k v l,
  P (k, v) -> Forall P l -> Forall P (Props.set k v l).
Proof.
  intros P k v l Hkv HF.
  destruct (Props.has k l) eqn:H.
  - unfold Props.set. rewrite H. apply Forall_update; auto.
  - eapply Permutation_Forall.
    + symmetry. apply set_new_perm, H.
    + constructor; auto.
Qed.

Lemma get_add_index_other : forall n k k' v l,
  k <> k' -> Props.get k' (Props.add_index n k v l) = Props.get k' l.
Proof.
  intros n k k' v l Hne.
  induction l as [|[k0 v0] l IH]; simpl.
  - destruct (String.eqb_spec k' k); congruence.
  - destruct (Props.array_index k0) as [n0|].
    + destruct (n0 <? n)%N; simpl.
      * destruct (String.eqb k' k0); [reflexivity | apply IH].
      * destruct (String.eqb_spec k' k); [congruence | reflexivity].
    + simpl. destruct (String.eqb_spec k' k); [congruence | reflexivity].
Qed.

Lemma get_add_index_same : forall n k v l,
  Props.get k l = None -> Props.get k (Props.add_index n k v l) = Some v.
Proof.
  intros n k v l.
  induction l as [|[k0 v0] l IH]; simpl.
  - now rewrite String.eqb_refl.
  - destruct (String.eqb_spec k k0) as [->|Hne]; [discriminate|].
    intros H. destruct (Props.array_index k0) as [n0|].
    + destruct (n0 <? n)%N; simpl.
      * destruct (String.eqb_spec k k0); [contradiction | auto].
      * now rewrite String.eqb_refl.
    + simpl. now rewrite String.eqb_refl.
Qed.

Lemma get_app : forall k l l',
  Props.get k (l ++ l') =
  match Props.get k l with Some v => Some v | None => Props.get k l' end.
Proof.
  induction l as [|[k0 v0] l IH]; intros l'; simpl; [reflexivity|].
  destruct (String.eqb k k0); [reflexivity | apply IH].
Qed.

Lemma get_set_same : forall k v l, Props.get k (Props.set k v l) = Some v.
Proof.
  intros k v l. unfold Props.set, Props.has.
  destruct (Props.get k l) as [v0|] eqn:H.
  - now rewrite get_update_same, H.
  - destruct (Props.array_index k).
    + now apply get_add_index_same.
    + rewrite get_app, H. simpl. now rewrite String.eqb_refl.
Qed.

Lemma get_set_other : forall k k' v l,
  k <> k' -> Props.get k' (Props.set k v l) = Props.get k' l.
Proof.
  intros k k' v l Hne. unfold Props.set.
  destruct (Props.has k l).
  - now apply get_update_other.
  - destruct (Props.array_index k).
    + now apply get_add_index_other.
    + rewrite get_app. destruct (Props.get k' l); [reflexivity|].
      simpl. destruct (String.eqb_spec k' k); congruence.
Qed.

(** *** Deletion *)

Lemma get_delete_same : forall k l, Props.get k (Props.delete k l) = None.
Proof.
  intros k l. apply get_none. unfold Props.delete, Props.keys.
  intros H. apply in_map_iff in H. destruct H as [[k' v'] [E H]].
  apply filter_In in H. simpl in *. subst k'.
  rewrite String.eqb_refl in H. destruct H; discriminate.
Qed.

Lemma get_delete_other : forall k k' l,
  k <> k' -> Props.get k' (Props.delete k l) = Props.get k' l.
Proof.
  intros k k' l Hne. unfold Props.delete.
  induction l as [|[k0 v0] l IH]; simpl; [reflexivity|].
  destruct (String.eqb_spec k k0) as [->|Hk]; simpl.
  - destruct (String.eqb_spec k' k0); [congruence | apply IH].
  - destruct (String.eqb k' k0); [reflexivity | apply IH].
Qed.

Lemma Forall_delete : forall (P : string * A -> Prop) k l,
  Forall P l -> Forall P (Props.delete k l).
Proof.
  intros P k l H. unfold Props.delete.
  apply Forall_forall. intros x Hx. apply filter_In in Hx.
  rewrite Forall_forall in H. now apply H.
Qed.

Lemma update_add_index_new : forall n k v f l,
  Props.get k l = None ->
  Props.update k f (Props.add_index n k v l) = Props.add_index n k (f v) l.
Proof.
  intros n k v f l.
  induction l as [|[k0 v0] l IH]; simpl.
  - now rewrite String.eqb_refl.
  - destruct (String.eqb_spec k k0) as [->|Hne]; [discriminate|].
    intros H. destruct (Props.array_index k0) as [n0|].
    + destruct (n0 <? n)%N; simpl.
      * destruct (String.eqb_spec k k0); [contradiction|]. now rewrite IH.
      * now rewrite String.eqb_refl.
    + simpl. now rewrite String.eqb_refl.
Qed.

Lemma update_app_new : forall k v f l,
  Props.get k l = None ->
  Props.update k f (l ++ [(k, v)]) = l ++ [(k, f v)].
Proof.
  intros k v f l.
  induction l as [|[k0 v0] l IH]; simpl.
  - now rewrite String.eqb_refl.
  - destruct (String.eqb_spec k k0) as [->|Hne]; [discriminate|].
    intros H. now rewrite IH.
Qed.

Lemma update_set : forall k v f l,
  Props.update k f (Props.set k v l) = Props.set k (f v) l.
Proof.
  intros k v f l. unfold Props.set, Props.has.
  destruct (Props.get k l) as [v0|] eqn:H.
  - apply update_update.
  - destruct (Props.array_index k).
    + now apply update_add_index_new.
    + now apply update_app_new.
Qed.

Lemma set_not_nil : forall k v l, Props.set k v l <> [].
Proof.
  intros k v l E. pose proof (get_set_same k v l) as G.
  rewrite E in G. discriminate.
Qed.

(** *** A property created and deleted again *)

Lemma filter_add_index : forall (p : string * A -> bool) n k v l,
  p (k, v) = false ->
  filter p (Props.add_index n k v l) = filter p l.
Proof.
  intros p n k v l Hp.
  induction l as [|[k0 v0] l IH]; simpl.
  - now rewrite Hp.
  - destruct (Props.array_index k0) as [n0|].
    + destruct (n0 <? n)%N; simpl.
      * now rewrite IH.
      * now rewrite Hp.
    + simpl. now rewrite Hp.
Qed.

Lemma filter_set_new : forall (p : string * A -> bool) k v l,
  Props.get k l = None ->
  p (k, v) = false ->
  filter p (Props.set k v l) = filter p l.
Proof.
  intros p k v l H Hp. unfold Props.set.
  rewrite (proj2 (has_false k l) H).
  destruct (Props.array_index k).
  - now apply filter_add_index.
  - rewrite filter_app. simpl. rewrite Hp. apply app_nil_r.
Qed.

Lemma filter_all : forall (p : string * A -> bool) l,
  Forall (fun kv => p kv = true) l -> filter p l = l.
Proof.
  induction l as [|x l IH]; simpl; intros H; [reflexivity|].
  inversion H; subst. rewrite H2. f_equal. auto.
Qed.

End PropsFacts.
End PropsFacts.

(** ** References into the tree *)

Section Theory.
Variable Value : Type.
Variable JSON_stringify : Value -> string.
Implicit Types (t n c : Node Value) (p q : path)
  (f g : Node Value -> Node Value) (index : Index Value)
  (cs : list (string * Node Value)) (key tempKey str : string)
  (this : RadixTree Value) (v : Value).

Lemma with_children_same : forall n, with_children (children n) n = n.
Proof. now intros []. Qed.

Lemma modify_app : forall p q f t,
  modify (p ++ q) f t = modify p (modify q f) t.
Proof.
  induction p as [|l p IH]; intros q f t; simpl; [reflexivity|].
  f_equal. apply PropsFacts.update_ext. intros c _. apply IH.
Qed.

Lemma modify_modify : forall p f g t,
  modify p g (modify p f t) = modify p (fun n => g (f n)) t.
Proof.
  induction p as [|l p IH]; intros f g t; simpl; [reflexivity|].
  unfold with_children. simpl. f_equal.
  rewrite PropsFacts.update_update.
  apply PropsFacts.update_ext. intros c _. apply IH.
Qed.

Lemma modify_id : forall p f t,
  (forall n, deref t p = Some n -> f n = n) -> modify p f t = t.
Proof.
  induction p as [|l p IH]; intros f t H; simpl.
  - now apply H.
  - rewrite PropsFacts.update_id; [apply with_children_same|].
    intros c Hc. apply IH. intros n Hn. apply H. simpl. now rewrite Hc.
Qed.

Lemma store_deref : forall p t n, deref t p = Some n -> store p n t = t.
Proof. intros p t n H. apply modify_id. intros n' E. congruence. Qed.

Lemma deref_modify : forall p f t n,
  deref t p = Some n -> deref (modify p f t) p = Some (f n).
Proof.
  induction p as [|l p IH]; intros f t n; simpl.
  - congruence.
  - rewrite PropsFacts.get_update_same.
    destruct (Props.get l (children t)) as [c|]; simpl; [apply IH | discriminate].
Qed.

Lemma deref_app : forall p q t,
  deref t (p ++ q) =
  match deref t p with Some n => deref n q | None => None end.
Proof.
  induction p as [|l p IH]; intros q t; simpl; [reflexivity|].
  destruct (Props.get l (children t)); [apply IH | reflexivity].
Qed.

Lemma prefixes_snoc : forall p l, prefixes (p ++ [l]) = prefixes p ++ [p].
Proof.
  induction p as [|x p IH]; intros l; simpl; [reflexivity|].
  now rewrite IH, map_app.
Qed.

(** Pruning visits the ancestors from the deepest to the root. *)
Lemma _removeEmptyParents_snoc : forall p l t,
  _removeEmptyParents (prefixes (p ++ [l])) t =
  _removeEmptyParents (prefixes p) (modify p (@delete_empty Value) t).
Proof.
  intros p l t. unfold _removeEmptyParents.
  now rewrite prefixes_snoc, rev_app_distr.
Qed.

(** ** The traversal *)

Lemma first_match_Some : forall tempKey cs str c i,
  first_match tempKey cs = Some (str, c, i) ->
  i = JsString.match_len tempKey str /\ 0 < i /\ Props.get str cs = Some c.
Proof.
  induction cs as [|[s0 c0] cs IH]; simpl; intros str c i; [discriminate|].
  destruct (Nat.ltb_spec 0 (JsString.match_len tempKey s0)) as [Hpos|Hz].
  - intros E. inversion E; subst. now rewrite String.eqb_refl.
  - intros E. destruct (IH _ _ _ E) as (Hi & Hp & Hg).
    repeat split; auto.
    destruct (String.eqb_spec str s0) as [->|Hne]; [lia | assumption].
Qed.

Lemma first_match_None : forall tempKey cs,
  first_match tempKey cs = None <->
  Forall (fun kv => JsString.match_len tempKey (fst kv) = 0) cs.
Proof.
  induction cs as [|[s0 c0] cs IH]; simpl.
  - split; auto.
  - destruct (Nat.ltb_spec 0 (JsString.match_len tempKey s0)) as [Hpos|Hz].
    + split; [discriminate|]. intros H. inversion H; subst. simpl in *. lia.
    + rewrite IH. split; intros H.
      * constructor; [simpl; lia | assumption].
      * now inversion H.
Qed.

Lemma first_match_None_get : forall tempKey cs str,
  first_match tempKey cs = None ->
  0 < JsString.match_len tempKey str ->
  Props.get str cs = None.
Proof.
  intros tempKey cs str H Hpos.
  destruct (Props.get str cs) as [c|] eqn:E; [|reflexivity].
  apply PropsFacts.get_In in E.
  rewrite first_match_None, Forall_forall in H.
  specialize (H _ E). simpl in H. lia.
Qed.

Lemma first_match_update : forall tempKey cs str c i f,
  first_match tempKey cs = Some (str, c, i) ->
  first_match tempKey (Props.update str f cs) = Some (str, f c, i).
Proof.
  induction cs as [|[s0 c0] cs IH]; simpl; intros str c i f; [discriminate|].
  destruct (Nat.ltb_spec 0 (JsString.match_len tempKey s0)) as [Hpos|Hz].
  - intros E. inversion E; subst. rewrite String.eqb_refl. simpl.
    destruct (Nat.ltb_spec 0 (JsString.match_len tempKey str)); [reflexivity | lia].
  - intros E. destruct (first_match_Some _ _ _ _ _ E) as (Hi & Hp & _).
    destruct (String.eqb_spec str s0) as [->|Hne]; [lia|].
    simpl. destruct (Nat.ltb_spec 0 (JsString.match_len tempKey s0)); [lia|].
    now apply IH.
Qed.

Lemma first_match_app : forall tempKey cs cs',
  first_match tempKey cs = None ->
  first_match tempKey (cs ++ cs') = first_match tempKey cs'.
Proof.
  induction cs as [|[s0 c0] cs IH]; simpl; intros cs'; [reflexivity|].
  destruct (0 <? JsString.match_len tempKey s0); [discriminate | apply IH].
Qed.

Lemma first_match_add_index : forall tempKey cs (ix : N) str c,
  first_match tempKey cs = None ->
  0 < JsString.match_len tempKey str ->
  first_match tempKey (Props.add_index ix str c cs) =
  Some (str, c, JsString.match_len tempKey str).
Proof.
  intros tempKey cs ix str c H Hpos.
  assert (Hhere : forall cs',
    first_match tempKey ((str, c) :: cs') =
    Some (str, c, JsString.match_len tempKey str)).
  { intros cs'. simpl.
    destruct (Nat.ltb_spec 0 (JsString.match_len tempKey str)); [reflexivity | lia]. }
  induction cs as [|[s0 c0] cs IH]; [apply Hhere|].
  cbn [Props.add_index].
  destruct (Props.array_index s0) as [n0|]; [|apply Hhere].
  destruct (n0 <? ix)%N; [|apply Hhere].
  simpl in *.
  destruct (0 <? JsString.match_len tempKey s0); [discriminate | auto].
Qed.

Lemma first_match_set_new : forall tempKey cs str c,
  first_match tempKey cs = None ->
  0 < JsString.match_len tempKey str ->
  first_match tempKey (Props.set str c cs) =
  Some (str, c, JsString.match_len tempKey str).
Proof.
  intros tempKey cs str c H Hpos. unfold Props.set.
  rewrite (proj2 (PropsFacts.has_false str cs)
             (first_match_None_get _ _ _ H Hpos)).
  destruct (Props.array_index str).
  - now apply first_match_add_index.
  - rewrite first_match_app by assumption. simpl.
    destruct (Nat.ltb_spec 0 (JsString.match_len tempKey str)); [reflexivity | lia].
Qed.

(** *** One call of [_traverse] *)

Lemma step_ttl : forall key index,
  ttlCharsMatch index <= ttlCharsMatch (step key index).
Proof.
  intros key index. unfold step.
  destruct (first_match _ _) as [[[str c] i]|]; [|lia].
  destruct (i =? String.length str); simpl; lia.
Qed.

(** The recursive call is only made after the total of matched
    characters has grown. *)
Lemma descend_progress : forall key index,
  descend key (ttlCharsMatch index) (step key index) = true ->
  ttlCharsMatch index < ttlCharsMatch (step key index) < String.length key.
Proof.
  intros key index H. unfold descend in H.
  repeat (apply andb_prop in H; destruct H as [H ?]).
  apply Nat.ltb_lt in H.
  pose proof (step_ttl key index).
  destruct (Nat.eqb_spec (ttlCharsMatch index) (ttlCharsMatch (step key index)));
    [discriminate | lia].
Qed.

Lemma step_tracks : forall t key index,
  Tracks t key index -> Tracks t key (step key index).
Proof.
  intros t key index [Hn Hp Hc Ht]. unfold step.
  destruct (first_match _ _) as [[[str c] i]|] eqn:E; [|now constructor].
  destruct (first_match_Some _ _ _ _ _ E) as (Hi & Hpos & Hg).
  assert (Hle : ttlCharsMatch index + i <= String.length key).
  { pose proof (JsStringFacts.match_len_le_left
                  (JsString.substr key (ttlCharsMatch index)) str) as L.
    rewrite JsStringFacts.length_substr in L. lia. }
  destruct (i =? String.length str); constructor; simpl; auto; try lia.
  - rewrite deref_app, Hn. simpl. now rewrite Hg.
  - now rewrite prefixes_snoc, Hp.
Qed.

Lemma descent_tracks : forall t key fuel index index',
  Tracks t key index ->
  descent fuel key index = Some index' ->
  Tracks t key index'.
Proof.
  induction fuel as [|fuel IH]; simpl; intros index index' HT; [discriminate|].
  destruct (descend key (ttlCharsMatch index) (step key index)).
  - apply IH. now apply step_tracks.
  - intros E. inversion E; subst. now apply step_tracks.
Qed.

Lemma initial_tracks : forall (this : RadixTree Value) key,
  Tracks (tree this) key (initial_index this).
Proof. intros this key. constructor; simpl; auto; lia. Qed.

Lemma descent_stopped : forall key fuel index index',
  charsMatch index = String.length (nodeKey index) ->
  descent fuel key index = Some index' ->
  Stopped key index'.
Proof.
  induction fuel as [|fuel IH]; simpl; intros index index' Hstart; [discriminate|].
  destruct (descend key (ttlCharsMatch index) (step key index)) eqn:D.
  - apply IH.
    unfold descend in D.
    repeat (apply andb_prop in D; destruct D as [D ?]).
    now apply Nat.eqb_eq.
  - intros E. inversion E; subst index'; clear E.
    unfold descend in D. unfold step in *.
    destruct (first_match _ _) as [[[str c] i]|] eqn:E.
    + destruct (first_match_Some _ _ _ _ _ E) as (Hi & Hpos & Hg).
      destruct (Nat.eqb_spec i (String.length str)) as [Hfull|Hpart].
      * left. simpl in *. split; [assumption|]. intros Hlt.
        destruct (Nat.ltb_spec (ttlCharsMatch index + i) (String.length key));
          [|lia].
        rewrite (proj2 (Nat.eqb_eq _ _) Hfull) in D.
        destruct (Nat.eqb_spec (ttlCharsMatch index) (ttlCharsMatch index + i));
          [lia|].
        simpl in D. rewrite !andb_true_r in D.
        apply negb_false_iff, Nat.eqb_eq in D.
        unfold _leafCount in D. apply length_zero_iff_nil in D.
        now rewrite D.
      * right. simpl.
        pose proof (JsStringFacts.match_len_le_right
                      (JsString.substr key (ttlCharsMatch index)) str).
        split; [lia|]. exists c.
        replace (ttlCharsMatch index + i - i) with (ttlCharsMatch index) by lia.
        assumption.
    + left. split; [assumption|]. intros _. assumption.
Qed.

(** *** Fuel *)

Lemma descent_enough_key : forall key fuel index,
  0 < fuel ->
  String.length key - ttlCharsMatch index <= fuel ->
  exists index', descent fuel key index = Some index'.
Proof.
  induction fuel as [|fuel IH]; simpl; intros index Hpos H; [lia|].
  destruct (descend key (ttlCharsMatch index) (step key index)) eqn:D.
  - apply descend_progress in D. apply IH; lia.
  - eauto.
Qed.

Lemma descent_more_fuel : forall key fuel fuel' index index',
  descent fuel key index = Some index' ->
  fuel <= fuel' ->
  descent fuel' key index = Some index'.
Proof.
  induction fuel as [|fuel IH]; simpl; intros fuel' index index' H Hle;
    [discriminate|].
  destruct fuel' as [|fuel']; [lia|]. simpl.
  destruct (descend key (ttlCharsMatch index) (step key index)).
  - apply IH; [assumption | lia].
  - assumption.
Qed.

Lemma _traverse_descent : forall (D : Type) fuel (this : RadixTree Value) key
    (d : D) index callbacks,
  _traverse fuel this key d index callbacks =
  option_map (fun index' => _processResults this key d index' callbacks)
             (descent fuel key index).
Proof.
  induction fuel as [|fuel IH]; simpl; intros; [reflexivity|].
  destruct (descend key (ttlCharsMatch index) (step key index)); [apply IH | reflexivity].
Qed.

(** ** The public functions *)

Lemma alias_keySwap : forall this this' key,
  keySwap this' = keySwap this -> alias this' key = alias this key.
Proof. intros this this' key H. unfold alias. now rewrite H. Qed.

Lemma _processKey_keySwap : forall this this' key,
  keySwap this' = keySwap this -> _processKey this' key = _processKey this key.
Proof.
  intros this this' key H. unfold _processKey.
  now rewrite (alias_keySwap _ _ key H).
Qed.

Lemma _processKey_throws_keySwap : forall this this' key,
  keySwap this' = keySwap this ->
  _processKey_throws this' key = _processKey_throws this key.
Proof.
  intros this this' key H. unfold _processKey_throws.
  now rewrite (alias_keySwap _ _ key H).
Qed.

Lemma insert_throws : forall this key v,
  _processKey_throws this key = true ->
  insert this key v = Some (Thrown TypeError this).
Proof. intros this key v H. unfold insert. now rewrite H. Qed.

Lemma remove_throws : forall this key d,
  _processKey_throws this key = true ->
  remove JSON_stringify this key d = Some (Thrown TypeError this).
Proof. intros this key d H. unfold remove. now rewrite H. Qed.

Lemma insert_traversal : forall this key v,
  _processKey_throws this key = false ->
  insert this key v =
  option_map
    (fun index =>
       _processResults this (_processKey this key) v index (insert_callbacks Value))
    (traversal this (_processKey this key)).
Proof.
  intros this key v H. unfold insert, traversal. rewrite H.
  apply _traverse_descent.
Qed.

Lemma remove_traversal : forall this key d,
  _processKey_throws this key = false ->
  remove JSON_stringify this key d =
  option_map
    (fun index =>
       _processResults this (_processKey this key) d index
                       (remove_callbacks JSON_stringify))
    (traversal this (_processKey this key)).
Proof.
  intros this key d H. unfold remove, traversal. rewrite H.
  apply _traverse_descent.
Qed.

Lemma traversal_total : forall this key,
  exists index, traversal this key = Some index.
Proof.
  intros this key. apply descent_enough_key; simpl; lia.
Qed.

Lemma traversal_tracks : forall this key index,
  traversal this key = Some index -> Tracks (tree this) key index.
Proof.
  intros this key index H.
  eapply descent_tracks; [apply initial_tracks | exact H].
Qed.

Lemma traversal_stopped : forall this key index,
  traversal this key = Some index -> Stopped key index.
Proof.
  intros this key index H.
  eapply descent_stopped; [|exact H]. reflexivity.
Qed.

(** ** Termination *)






(** ** Classification *)

Lemma classify_spec : forall k index,
  classify k index <> ClassificationFailure /\
  (classify k index = NonExistent <-> ttlCharsMatch index = 0) /\
  (classify k index = Suffix <->
     ttlCharsMatch index <> 0 /\
     ttlCharsMatch index < String.length k /\
     charsMatch index = String.length (nodeKey index)) /\
  (classify k index = Exact <->
     ttlCharsMatch index <> 0 /\
     ttlCharsMatch index = String.length k /\
     charsMatch index = String.length (nodeKey index)) /\
  (classify k index = Exists <->
     0 < ttlCharsMatch index /\
     ~ (ttlCharsMatch index < String.length k /\
        charsMatch index = String.length (nodeKey index)) /\
     ~ (ttlCharsMatch index = String.length k /\
        charsMatch index = String.length (nodeKey index))).
Proof.
  intros k index. unfold classify.
  destruct (Nat.eqb_spec (ttlCharsMatch index) 0) as [Hz|Hnz].
  { repeat split; try congruence; try lia; intros; try discriminate; lia. }
  destruct (Nat.ltb_spec (ttlCharsMatch index) (String.length k)) as [Hlt|Hge];
    destruct (Nat.eqb_spec (charsMatch index) (String.length (nodeKey index)))
      as [Hc|Hc];
    destruct (Nat.eqb_spec (ttlCharsMatch index) (String.length k)) as [He|He];
    destruct (Nat.ltb_spec 0 (ttlCharsMatch index)) as [Hp|Hp];
    simpl; try lia;
    (split; [discriminate|]);
    repeat split; intros; try discriminate; try congruence; try lia; try tauto.
Qed.

(** C6. When the recursion stops, [_processResults] tests four cases in
    order, and they leave nothing over: whatever the index, exactly one of
    the four classifications holds of it, the handler called is the one of
    that classification, and the fallback branch is never taken.  So a
    call of [insert] ends in [_createNode], [_insertData] or [_splitNode],
    and a call of [remove] in [_removeData] or [_removeError], as the
    index at which the traversal stopped is classified.  (The traversal is
    the one of the embedding for keys free of [$] and [__proto__], on a
    tree made with such keys, when [_processKey] returns.) *)
Theorem classification_exhaustive :
  (forall (D : Type) (this : RadixTree Value) (key : string) (d : D)
          (index : Index Value) (callbacks : Callbacks Value D),
     classify key index <> ClassificationFailure /\
     (classify key index = NonExistent <-> ttlCharsMatch index = 0) /\
     (classify key index = Suffix <->
        ttlCharsMatch index <> 0 /\
        ttlCharsMatch index < String.length key /\
        charsMatch index = String.length (nodeKey index)) /\
     (classify key index = Exact <->
        ttlCharsMatch index <> 0 /\
        ttlCharsMatch index = String.length key /\
        charsMatch index = String.length (nodeKey index)) /\
     (classify key index = Exists <->
        0 < ttlCharsMatch index /\
        ~ (ttlCharsMatch index < String.length key /\
           charsMatch index = String.length (nodeKey index)) /\
        ~ (ttlCharsMatch index = String.length key /\
           charsMatch index = String.length (nodeKey index))) /\
     (classify key index = NonExistent ->
        _processResults this key d index callbacks =
        nonExists callbacks this key d index) /\
     (classify key index = Suffix ->
        _processResults this key d index callbacks =
        suffix callbacks this key d index) /\
     (classify key index = Exact ->
        _processResults this key d index callbacks =
        exact callbacks this key d index) /\
     (classify key index = Exists ->
        _processResults this key d index callbacks =
        exists_ callbacks this key d index)) /\
  (forall this key v,
     Reachable JSON_stringify this ->
     _processKey_throws this key = false ->
     plain_key (_processKey this key) = true ->
     exists index,
       traversal this (_processKey this key) = Some index /\
       (((classify (_processKey this key) index = NonExistent \/
          classify (_processKey this key) index = Suffix) /\
         insert this key v =
           Some (_createNode this (_processKey this key) v index))
        \/
        (classify (_processKey this key) index = Exact /\
         insert this key v =
           Some (_insertData this (_processKey this key) v index))
        \/
        (classify (_processKey this key) index = Exists /\
         insert this key v =
           Some (_splitNode this (_processKey this key) v index)))) /\
  (forall this key d,
     Reachable JSON_stringify this ->
     _processKey_throws this key = false ->
     plain_key (_processKey this key) = true ->
     exists index,
       traversal this (_processKey this key) = Some index /\
       ((classify (_processKey this key) index = Exact /\
         remove JSON_stringify this key d =
           Some (_removeData JSON_stringify this (_processKey this key) d index))
        \/
        (classify (_processKey this key) index <> Exact /\
         remove JSON_stringify this key d =
           Some (_removeError this (_processKey this key) d index)))).
Proof.
  split; [|split].
  - intros D this key d index callbacks.
    destruct (classify_spec key index) as (Hf & Hn & Hs & He & Hx).
    repeat (split; [assumption|]).
    unfold _processResults.
    repeat split; intros ->; reflexivity.
  - intros this key v _ Hthrow _.
    destruct (traversal_total this (_processKey this key)) as [index Hi].
    exists index. split; [assumption|].
    rewrite insert_traversal, Hi by assumption. simpl.
    unfold _processResults.
    destruct (classify_spec (_processKey this key) index) as (Hf & _).
    destruct (classify (_processKey this key) index); simpl; auto.
    contradiction.
  - intros this key d _ Hthrow _.
    destruct (traversal_total this (_processKey this key)) as [index Hi].
    exists index. split; [assumption|].
    rewrite remove_traversal, Hi by assumption. simpl.
    unfold _processResults.
    destruct (classify_spec (_processKey this key) index) as (Hf & _).
    destruct (classify (_processKey this key) index); simpl;
      try (right; split; [discriminate | reflexivity]);
      try (left; split; reflexivity).
    contradiction.
Qed.

(** ** Removal *)

Lemma delete_data_console : forall this index,
  console (delete_data this index) = console this.
Proof.
  intros this index. unfold delete_data.
  destruct (_isEmpty _); reflexivity.
Qed.

Lemma _removeError_state : forall this key d index,
  exists msg, _removeError this key d index = Returned (console_log msg this).
Proof.
  intros this key d index. unfold _removeError.
  destruct (ttlCharsMatch index =? 0); [eauto|].
  destruct (ttlCharsMatch index <? String.length key); [eauto|].
  destruct (0 <? ttlCharsMatch index); eauto.
Qed.

(** C4. A call of [remove] that reports a failure on the console leaves
    the tree and the two counters as they were. *)
Theorem remove_failure_no_mutation : forall this key d o,
  remove JSON_stringify this key d = Some o ->
  console (state_of o) <> console this ->
  tree (state_of o) = tree this /\
  keywordCount (state_of o) = keywordCount this /\
  dataCount (state_of o) = dataCount this.
Proof.
  intros this key d o H Hlog.
  destruct (_processKey_throws this key) eqn:Hthrow.
  { rewrite remove_throws in H by assumption.
    inversion H; subst o. simpl in Hlog. congruence. }
  rewrite remove_traversal in H by assumption.
  destruct (traversal this (_processKey this key)) as [index|]; [|discriminate].
  simpl in H. inversion H; subst o; clear H.
  set (k := _processKey this key) in *. clearbody k.
  assert (Herr : forall (o : Outcome Value),
    o = _removeError this k d index ->
    tree (state_of o) = tree this /\
    keywordCount (state_of o) = keywordCount this /\
    dataCount (state_of o) = dataCount this).
  { intros o ->. destruct (_removeError_state this k d index) as [msg ->].
    simpl. auto. }
  unfold _processResults in *.
  destruct (classify k index); simpl in *; try (apply Herr; reflexivity); auto.
  unfold _removeData in *.
  destruct d as [v|]; destruct (data (node index)) as [a|]; simpl in *; auto.
  - destruct (find_data JSON_stringify (JSON_stringify v) a <? length a);
      simpl in *; auto.
    destruct (length (splice1 _ a) =? 0); simpl in *.
    + rewrite delete_data_console in Hlog. simpl in Hlog. congruence.
    + congruence.
  - rewrite delete_data_console in Hlog. simpl in Hlog. congruence.
Qed.






(** ** Properties of every node *)

Lemma AllNodes_inv : forall (P : Node Value -> Prop) n,
  AllNodes P n ->
  P n /\ Forall (fun kv => AllNodes P (snd kv)) (children n).
Proof. intros P n H. inversion H; auto. Qed.

Lemma AllNodes_child : forall (P : Node Value -> Prop) n l c,
  AllNodes P n -> Props.get l (children n) = Some c -> AllNodes P c.
Proof.
  intros P n l c H Hg. apply AllNodes_inv in H. destruct H as [_ H].
  rewrite Forall_forall in H. apply (H (l, c)). now apply PropsFacts.get_In.
Qed.

Lemma AllNodes_deref : forall (P : Node Value -> Prop) p t n,
  AllNodes P t -> deref t p = Some n -> AllNodes P n.
Proof.
  induction p as [|l p IH]; simpl; intros t n H.
  - congruence.
  - destruct (Props.get l (children t)) as [c|] eqn:E; [|discriminate].
    apply IH. eapply AllNodes_child; eauto.
Qed.

Lemma AllNodes_here : forall (P : Node Value -> Prop) n,
  AllNodes P n -> P n.
Proof. intros P n H. now apply AllNodes_inv in H. Qed.

Lemma _isEmpty_modify_cons : forall l p f n,
  _isEmpty (modify (l :: p) f n) = _isEmpty n.
Proof.
  intros l p f [d cs]. simpl. unfold _isEmpty. simpl.
  destruct d; [reflexivity|].
  pose proof (PropsFacts.length_update l (modify p f) cs) as L.
  destruct cs, (Props.update l (modify p f) _); simpl in L; congruence.
Qed.

Lemma modify_radix : forall p f t,
  AllNodes radix t ->
  (forall n, deref t p = Some n -> AllNodes radix (f n)) ->
  AllNodes radix (modify p f t).
Proof.
  induction p as [|l p IH]; simpl; intros f t Ht Hf; [auto|].
  apply AllNodes_inv in Ht. destruct Ht as [Hr Hcs].
  constructor.
  - unfold radix in *. simpl. now rewrite PropsFacts.keys_update.
  - simpl. apply PropsFacts.Forall_update; [assumption|].
    simpl. intros c Hg Hc. apply IH; [assumption|].
    intros n Hn. apply Hf. now rewrite Hg.
Qed.

Lemma modify_clean : forall p f t,
  AllNodes clean t ->
  (forall n, deref t p = Some n ->
     AllNodes clean (f n) /\ (p <> [] -> _isEmpty (f n) = false)) ->
  AllNodes clean (modify p f t).
Proof.
  induction p as [|l p IH]; simpl; intros f t Ht Hf; [now apply Hf|].
  pose proof Ht as Ht'.
  apply AllNodes_inv in Ht. destruct Ht as [[Hd Hne] Hcs].
  assert (Hrec : forall c, Props.get l (children t) = Some c ->
    AllNodes clean (modify p f c) /\ _isEmpty (modify p f c) = false).
  { intros c Hg.
    assert (Hc : AllNodes clean c) by (eapply AllNodes_child; eauto).
    assert (Hcne : _isEmpty c = false).
    { rewrite Forall_forall in Hne.
      apply (Hne (l, c)). now apply PropsFacts.get_In. }
    split.
    - apply IH; [assumption|]. intros n Hn.
      destruct (Hf n) as [H1 H2]; [now rewrite Hg|]. split; [assumption|].
      intros _. apply H2. discriminate.
    - destruct p as [|l' p'].
      + simpl. destruct (deref_modify [] f c c eq_refl).
        apply (Hf c); [now rewrite Hg | discriminate].
      + now rewrite _isEmpty_modify_cons. }
  constructor.
  - split; [assumption|]. simpl.
    apply PropsFacts.Forall_update; [assumption|].
    simpl. intros c Hg _. now apply Hrec.
  - simpl. apply PropsFacts.Forall_update; [assumption|].
    simpl. intros c Hg _. now apply Hrec.
Qed.

(** ** The handlers of [insert] keep the tree well formed *)

Lemma leaf_radix : forall v, AllNodes radix (leaf v).
Proof. intros v. constructor; [constructor | constructor]. Qed.

Lemma leaf_clean : forall v, AllNodes clean (leaf v).
Proof.
  intros v. constructor; [|constructor].
  split; [discriminate | constructor].
Qed.

Lemma radix_set : forall cs r c,
  NoDup (map JsString.charAt0 (Props.keys cs)) ->
  (Props.has r cs = false ->
   ~ In (JsString.charAt0 r) (map JsString.charAt0 (Props.keys cs))) ->
  NoDup (map JsString.charAt0 (Props.keys (Props.set r c cs))).
Proof.
  intros cs r c Hnd Hfresh.
  destruct (Props.has r cs) eqn:H.
  - now rewrite PropsFacts.keys_set_old.
  - eapply Permutation_NoDup.
    + symmetry. apply Permutation_map, PropsFacts.keys_set_new, H.
    + simpl. constructor; auto.
Qed.

Lemma first_char_fresh : forall tempKey cs,
  first_match tempKey cs = None ->
  tempKey <> "" ->
  ~ In (JsString.charAt0 tempKey) (map JsString.charAt0 (Props.keys cs)).
Proof.
  intros tempKey cs H Hne Hin.
  apply in_map_iff in Hin. destruct Hin as (k & Hk & Hin).
  apply in_map_iff in Hin. destruct Hin as ([k' c] & <- & Hin).
  rewrite first_match_None, Forall_forall in H. specialize (H _ Hin).
  apply JsStringFacts.match_len_zero in H. simpl in *.
  destruct H; congruence.
Qed.

Lemma empty_label_fresh : forall cs,
  Props.has "" cs = false ->
  ~ In (JsString.charAt0 "") (map JsString.charAt0 (Props.keys cs)).
Proof.
  intros cs H Hin. simpl in Hin.
  apply in_map_iff in Hin. destruct Hin as (k & Hk & Hin).
  apply JsStringFacts.charAt0_none in Hk. subst k.
  apply PropsFacts.has_false, PropsFacts.get_none in H. contradiction.
Qed.

Lemma store_well_formed : forall p n' t,
  well_formed t ->
  well_formed n' ->
  _isEmpty n' = false ->
  well_formed (store p n' t).
Proof.
  intros p n' t [Hr Hc] [Hr' Hc'] Hne. split; unfold store.
  - apply modify_radix; auto.
  - apply modify_clean; auto.
Qed.

(** The label under which [_createNode] adds the new node. *)
Lemma _createNode_tree : forall this key v index,
  tree (state_of (_createNode this key v index)) =
  store (node_ref index)
        (add_child (JsString.substr key (ttlCharsMatch index)) v (node index))
        (tree this).
Proof.
  intros this key v index. unfold _createNode. simpl.
  destruct (Nat.eqb_spec (ttlCharsMatch index) 0) as [E|E]; simpl.
  - now rewrite E, JsStringFacts.substr_0.
  - reflexivity.
Qed.

(** Where a node is created, no child of the current node begins like
    what is left of the key. *)
Lemma create_unmatched : forall t key index,
  Tracks t key index ->
  Stopped key index ->
  classify key index = NonExistent \/ classify key index = Suffix ->
  charsMatch index = String.length (nodeKey index) /\
  (ttlCharsMatch index < String.length key ->
   first_match (JsString.substr key (ttlCharsMatch index))
               (children (node index)) = None) /\
  (String.length key <= ttlCharsMatch index ->
   key = "" /\ ttlCharsMatch index = 0).
Proof.
  intros t key index [_ _ Hc Ht] Hs Hcl.
  destruct (classify_spec key index) as (_ & Hn & Hsf & _ & _).
  destruct Hs as [[Hfull Hnone]|[Hpart _]].
  - split; [assumption|]. split; [assumption|].
    intros Hge. destruct Hcl as [Hcl|Hcl].
    + apply Hn in Hcl. split; [|assumption].
      apply JsStringFacts.length_zero. lia.
    + apply Hsf in Hcl. lia.
  - exfalso. destruct Hcl as [Hcl|Hcl].
    + apply Hn in Hcl. lia.
    + apply Hsf in Hcl. lia.
Qed.

Lemma add_child_well_formed : forall n r v,
  well_formed n ->
  (Props.has r (children n) = false ->
   ~ In (JsString.charAt0 r)
        (map JsString.charAt0 (Props.keys (children n)))) ->
  well_formed (add_child r v n).
Proof.
  intros n r v [Hr Hc] Hfresh.
  apply AllNodes_inv in Hr. destruct Hr as [Hr Hrs].
  apply AllNodes_inv in Hc. destruct Hc as [[Hd Hne] Hcs].
  split; constructor; simpl.
  - unfold radix. simpl. now apply radix_set.
  - apply PropsFacts.Forall_set; [apply leaf_radix | assumption].
  - split; [assumption|]. simpl.
    apply PropsFacts.Forall_set; [reflexivity | assumption].
  - apply PropsFacts.Forall_set; [apply leaf_clean | assumption].
Qed.

Lemma add_child_not_empty : forall n r v, _isEmpty (add_child r v n) = false.
Proof.
  intros n r v. unfold _isEmpty, add_child. simpl.
  destruct (data n); [reflexivity|].
  destruct (Props.set r (leaf v) (children n)) eqn:E; [|reflexivity].
  pose proof (PropsFacts.get_set_same r (leaf v) (children n)) as G.
  rewrite E in G. discriminate.
Qed.

Lemma well_formed_deref : forall p t n,
  well_formed t -> deref t p = Some n -> well_formed n.
Proof.
  intros p t n [Hr Hc] H. split; eapply AllNodes_deref; eauto.
Qed.

Lemma _createNode_well_formed : forall this key v index,
  well_formed (tree this) ->
  Tracks (tree this) key index ->
  Stopped key index ->
  classify key index = NonExistent \/ classify key index = Suffix ->
  well_formed (tree (state_of (_createNode this key v index))).
Proof.
  intros this key v index Hwf Ht Hs Hcl.
  rewrite _createNode_tree.
  destruct (create_unmatched _ _ _ Ht Hs Hcl) as (_ & Hnone & Hempty).
  apply store_well_formed; [assumption | | apply add_child_not_empty].
  apply add_child_well_formed.
  - eapply well_formed_deref; [eassumption | apply Ht].
  - intros Hhas.
    destruct (Nat.lt_ge_cases (ttlCharsMatch index) (String.length key))
      as [Hlt|Hge].
    + apply first_char_fresh; [auto|].
      now apply JsStringFacts.substr_nonempty.
    + destruct (Hempty Hge) as [Hk Hz]. rewrite Hk, Hz in *. simpl in *.
      now apply empty_label_fresh.
Qed.

Lemma _insertData_well_formed : forall this key v index,
  well_formed (tree this) ->
  Tracks (tree this) key index ->
  well_formed (tree (state_of (_insertData this key v index))).
Proof.
  intros this key v index Hwf Ht. unfold _insertData. simpl.
  pose proof (well_formed_deref _ _ _ Hwf (tracks_node Ht)) as [Hr Hc].
  apply AllNodes_inv in Hr. destruct Hr as [Hr Hrs].
  apply AllNodes_inv in Hc. destruct Hc as [[Hd Hne] Hcs].
  assert (G : forall a, a <> [] ->
    well_formed (with_data (Some a) (node index)) /\
    _isEmpty (with_data (Some a) (node index)) = false).
  { intros a Ha. split; [|reflexivity].
    split; constructor; simpl; auto.
    split; [|assumption].
    simpl. intros E. inversion E. contradiction. }
  destruct (data (node index)) as [[|x a]|];
    apply store_well_formed; auto; apply G; discriminate.
Qed.

(** ** Splitting *)

Lemma _splitNode_state : forall this key v index old,
  Props.get (nodeKey index) (children (node index)) = Some old ->
  JsString.substr2 key (ttlCharsMatch index - charsMatch index)
                   (charsMatch index) <> nodeKey index ->
  _splitNode this key v index =
  Returned
    (mkRadixTree
       (store (node_ref index)
          (with_children
             (Props.delete (nodeKey index)
                (Props.set
                   (JsString.substr2 key
                      (ttlCharsMatch index - charsMatch index)
                      (charsMatch index))
                   (intermediate key v index old)
                   (children (node index))))
             (node index))
          (tree this))
       (keywordCount this + 1) (dataCount this + 1)
       (keySwap this) (console this)).
Proof.
  intros this key v index old Hold Hne.
  unfold _splitNode, intermediate.
  set (tk := JsString.substr2 key _ _) in *.
  destruct (ttlCharsMatch index =? String.length key).
  - rewrite PropsFacts.get_set_other, Hold by assumption.
    rewrite PropsFacts.update_set. reflexivity.
  - rewrite PropsFacts.update_set.
    rewrite PropsFacts.get_set_other, Hold by assumption.
    rewrite PropsFacts.update_set. simpl.
    rewrite PropsFacts.set_nil. reflexivity.
Qed.

(** The state in which [_splitNode] is called. *)
Lemma split_state : forall t key index,
  Tracks t key index ->
  Stopped key index ->
  classify key index = Exists ->
  exists old,
    Props.get (nodeKey index) (children (node index)) = Some old /\
    0 < charsMatch index < String.length (nodeKey index) /\
    JsString.substr2 key (ttlCharsMatch index - charsMatch index)
                     (charsMatch index)
      = JsString.prefix (nodeKey index) (charsMatch index) /\
    (ttlCharsMatch index < String.length key ->
     JsString.charAt0 (JsString.substr key (ttlCharsMatch index)) <>
     JsString.charAt0 (JsString.substr (nodeKey index) (charsMatch index))).
Proof.
  intros t key index [_ _ Hc Ht] Hs Hcl.
  destruct (classify_spec key index) as (_ & _ & _ & _ & He).
  apply He in Hcl. destruct Hcl as (Hpos & Hn1 & Hn2).
  destruct Hs as [[Hfull _]|[Hpart [old Hm]]].
  { exfalso. destruct (Nat.eq_dec (ttlCharsMatch index) (String.length key));
      [apply Hn2 | apply Hn1]; split; auto; lia. }
  destruct (first_match_Some _ _ _ _ _ Hm) as (Hi & _ & Hg).
  exists old. split; [assumption|]. split; [assumption|].
  set (rest := JsString.substr key (ttlCharsMatch index - charsMatch index)) in *.
  split.
  - unfold JsString.substr2. fold rest. rewrite Hi.
    apply JsStringFacts.prefix_agree.
  - intros Hlt.
    replace (JsString.substr key (ttlCharsMatch index))
      with (JsString.substr rest (charsMatch index)).
    + rewrite Hi. apply JsStringFacts.diverge.
      * rewrite <- Hi. unfold rest.
        rewrite JsStringFacts.length_substr. lia.
      * rewrite <- Hi. lia.
    + unfold rest. rewrite JsStringFacts.substr_substr. f_equal. lia.
Qed.

Lemma prefix_shorter : forall str i,
  i < String.length str -> JsString.prefix str i <> str.
Proof.
  intros str i H E.
  apply (f_equal String.length) in E.
  rewrite JsStringFacts.length_prefix in E. lia.
Qed.

Lemma radix_split : forall cs tk nk c,
  NoDup (map JsString.charAt0 (Props.keys cs)) ->
  In nk (Props.keys cs) ->
  JsString.charAt0 tk = JsString.charAt0 nk ->
  tk <> nk ->
  NoDup (map JsString.charAt0
           (Props.keys (Props.delete nk (Props.set tk c cs)))).
Proof.
  intros cs tk nk c Hnd Hin Hch Hne.
  assert (Hfresh : Props.has tk cs = false).
  { apply PropsFacts.has_false, PropsFacts.get_none. intros Htk.
    apply Hne.
    exact (ListFacts.NoDup_map_eq JsString.charAt0 _ _ _ Hnd Htk Hin Hch). }
  unfold Props.keys in *. rewrite map_map in *.
  set (g := fun kv : string * Node Value => JsString.charAt0 (fst kv)) in *.
  eapply Permutation_NoDup.
  - apply Permutation_map. symmetry. unfold Props.delete.
    apply ListFacts.Permutation_filter.
    apply PropsFacts.set_new_perm, Hfresh.
  - simpl. destruct (String.eqb_spec nk tk) as [E|_]; [congruence|]. simpl.
    constructor.
    + intros H. apply in_map_iff in H. destruct H as ([k x] & Hg & Hx).
      apply filter_In in Hx. destruct Hx as [Hx Hk]. simpl in *.
      destruct (String.eqb_spec nk k) as [|Hnk]; [discriminate|].
      apply Hnk. symmetry.
      apply in_map_iff in Hin. destruct Hin as ([k' x'] & Ek & Hx').
      simpl in Ek. subst k'.
      assert (E : (k, x) = (nk, x')).
      { apply (ListFacts.NoDup_map_eq g cs); auto.
        unfold g in *. simpl in *. congruence. }
      congruence.
    + now apply ListFacts.NoDup_map_filter.
Qed.

Lemma _isEmpty_set : forall d k c cs,
  _isEmpty (mkNode d (Props.set k c cs)) = false.
Proof.
  intros d k c cs. unfold _isEmpty. simpl. destruct d; [reflexivity|].
  destruct (Props.set k c cs) eqn:E; [|reflexivity].
  now apply PropsFacts.set_not_nil in E.
Qed.

Lemma intermediate_well_formed : forall key v index old,
  well_formed old ->
  _isEmpty old = false ->
  (ttlCharsMatch index < String.length key ->
   JsString.charAt0 (JsString.substr key (ttlCharsMatch index)) <>
   JsString.charAt0 (JsString.substr (nodeKey index) (charsMatch index))) ->
  ttlCharsMatch index <= String.length key ->
  well_formed (intermediate key v index old) /\
  _isEmpty (intermediate key v index old) = false.
Proof.
  intros key v index old [Hr Hc] Hne Hdiv Hle. unfold intermediate.
  destruct (Nat.eqb_spec (ttlCharsMatch index) (String.length key)) as [E|E].
  - rewrite PropsFacts.set_nil. split; [|reflexivity].
    split; constructor; simpl; auto.
    + unfold radix. simpl. constructor; [intros []|constructor].
    + split; [discriminate|]. simpl. auto.
  - split; [|apply _isEmpty_set].
    split; constructor; simpl.
    + unfold radix. simpl. apply radix_set.
      * simpl. constructor; [intros []|constructor].
      * intros _ [H|[]]. simpl in H. apply Hdiv; [lia | assumption].
    + apply PropsFacts.Forall_set; [assumption|].
      constructor; [apply leaf_radix | constructor].
    + split; [discriminate|]. simpl.
      apply PropsFacts.Forall_set; [assumption|].
      constructor; [reflexivity | constructor].
    + apply PropsFacts.Forall_set; [assumption|].
      constructor; [apply leaf_clean | constructor].
Qed.

Lemma _splitNode_well_formed : forall this key v index,
  well_formed (tree this) ->
  Tracks (tree this) key index ->
  Stopped key index ->
  classify key index = Exists ->
  well_formed (tree (state_of (_splitNode this key v index))).
Proof.
  intros this key v index Hwf Ht Hs Hcl.
  destruct (split_state _ _ _ Ht Hs Hcl) as (old & Hold & Hcm & Htk & Hdiv).
  assert (Hne : JsString.substr2 key (ttlCharsMatch index - charsMatch index)
                  (charsMatch index) <> nodeKey index).
  { rewrite Htk. apply prefix_shorter. lia. }
  rewrite (_splitNode_state this key v index old Hold Hne). simpl.
  rewrite Htk in *.
  pose proof (well_formed_deref _ _ _ Hwf (tracks_node Ht)) as Hn.
  assert (Hwo : well_formed old /\ _isEmpty old = false).
  { destruct Hn as [Hr Hc]. split.
    - split; eapply AllNodes_child; eauto.
    - apply AllNodes_here in Hc. destruct Hc as [_ Hc].
      rewrite Forall_forall in Hc.
      apply (Hc (nodeKey index, old)). now apply PropsFacts.get_In. }
  destruct Hwo as [Hwo Hoe].
  destruct (intermediate_well_formed key v index old Hwo Hoe Hdiv
              (tracks_ttl Ht)) as [[Hir Hic] Hie].
  destruct Hn as [Hr Hc].
  apply AllNodes_inv in Hr. destruct Hr as [Hr Hrs].
  apply AllNodes_inv in Hc. destruct Hc as [[Hd Hnes] Hcs].
  apply store_well_formed; [assumption | |].
  - split; constructor; simpl.
    + unfold radix. simpl. apply radix_split; auto.
      * apply PropsFacts.get_In in Hold.
        apply (in_map fst) in Hold. exact Hold.
      * apply JsStringFacts.charAt0_prefix. lia.
    + apply PropsFacts.Forall_delete, PropsFacts.Forall_set; assumption.
    + split; [assumption|]. simpl.
      apply PropsFacts.Forall_delete, PropsFacts.Forall_set; assumption.
    + apply PropsFacts.Forall_delete, PropsFacts.Forall_set; assumption.
  - unfold _isEmpty. simpl. destruct (data (node index)); [reflexivity|].
    destruct (Props.delete _ _) eqn:E; [|reflexivity].
    pose proof (PropsFacts.get_delete_other (nodeKey index)
                  (JsString.prefix (nodeKey index) (charsMatch index))
                  (Props.set (JsString.prefix (nodeKey index) (charsMatch index))
                     (intermediate key v index old) (children (node index))))
      as G.
    rewrite E, PropsFacts.get_set_same in G. simpl in G.
    assert (G' : Some (intermediate key v index old) = None)
      by (symmetry; apply G; congruence).
    discriminate.
Qed.

Lemma insert_well_formed : forall this key v o,
  well_formed (tree this) ->
  insert this key v = Some o ->
  well_formed (tree (state_of o)).
Proof.
  intros this key v o Hwf H.
  destruct (_processKey_throws this key) eqn:Hthrow.
  { rewrite insert_throws in H by assumption. now inversion H; subst o. }
  rewrite insert_traversal in H by assumption.
  destruct (traversal this (_processKey this key)) as [index|] eqn:Ht;
    [|discriminate].
  simpl in H. inversion H; subst o; clear H.
  pose proof (traversal_tracks _ _ _ Ht) as HT.
  pose proof (traversal_stopped _ _ _ Ht) as HS.
  unfold _processResults.
  destruct (classify (_processKey this key) index) eqn:Hcl; simpl.
  - apply (_createNode_well_formed this (_processKey this key)); auto.
  - apply (_createNode_well_formed this (_processKey this key)); auto.
  - apply (_insertData_well_formed this (_processKey this key)); auto.
  - apply (_splitNode_well_formed this (_processKey this key)); auto.
  - assumption.
Qed.

(** ** Pruning *)

Lemma delete_empty_radix : forall n,
  AllNodes radix n -> AllNodes radix (delete_empty n).
Proof.
  intros n H. apply AllNodes_inv in H. destruct H as [Hr Hcs].
  constructor; simpl.
  - unfold radix, Props.keys in *. simpl. rewrite map_map in *.
    now apply ListFacts.NoDup_map_filter.
  - apply Forall_forall. intros x Hx. apply filter_In in Hx.
    rewrite Forall_forall in Hcs. now apply Hcs.
Qed.

Lemma _removeEmptyParents_radix : forall ps t,
  AllNodes radix t -> AllNodes radix (_removeEmptyParents ps t).
Proof.
  intros ps. unfold _removeEmptyParents.
  induction (rev ps) as [|p l IH]; simpl; intros t H; [assumption|].
  apply IH. apply modify_radix; [assumption|].
  intros n Hn. apply delete_empty_radix. eapply AllNodes_deref; eauto.
Qed.

Lemma radix_keys : forall n, radix n -> NoDup (Props.keys (children n)).
Proof. intros n H. eapply NoDup_map_inv. exact H. Qed.

Lemma prune_step : forall p l t,
  AllNodes radix t ->
  pending (p ++ [l]) t ->
  pending p (modify p (@delete_empty Value) t).
Proof.
  induction p as [|l0 p IH]; intros l t Hr; simpl.
  - intros (Hd & c & Hg & Hc & _ & Hcs).
    constructor.
    + split; simpl.
      * destruct (data t) as [[|x a]|]; congruence.
      * apply Forall_forall. intros x Hx. apply filter_In in Hx.
        destruct Hx as [_ Hx]. now apply negb_true_iff in Hx.
    + simpl. apply Forall_forall. intros [k x] Hx. apply filter_In in Hx.
      destruct Hx as [Hx _]. simpl.
      destruct (string_dec k l) as [->|Hne].
      * apply PropsFacts.In_get in Hx;
          [|apply radix_keys, AllNodes_here, Hr].
        congruence.
      * rewrite Forall_forall in Hcs. now apply (Hcs (k, x)).
  - intros (Hd & c & Hg & Hc & Hne & Hcs).
    split; [assumption|].
    exists (modify p (@delete_empty Value) c). simpl.
    split; [now rewrite PropsFacts.get_update_same, Hg|].
    split; [apply IH with (l := l); [eapply AllNodes_child; eauto | assumption]|].
    split.
    + destruct p as [|l1 p']; [congruence|]. intros _.
      rewrite _isEmpty_modify_cons. apply Hne. now destruct p'.
    + apply PropsFacts.Forall_update; [assumption|].
      simpl. intros c' _ _ Hn. congruence.
Qed.

Lemma pending_store : forall p t n n',
  AllNodes clean t ->
  deref t p = Some n ->
  AllNodes clean n' ->
  pending p (store p n' t).
Proof.
  induction p as [|l p IH]; intros t n n' Ht Hn Hn'; simpl in *; [assumption|].
  destruct (Props.get l (children t)) as [c|] eqn:Hg; [|discriminate].
  pose proof (AllNodes_child _ _ _ _ Ht Hg) as Hc.
  apply AllNodes_inv in Ht. destruct Ht as [[Hd Hne] Hcs].
  split; [assumption|].
  exists (store p n' c).
  split; [unfold store; now rewrite PropsFacts.get_update_same, Hg|].
  split; [now apply IH with (n := n)|].
  split.
  - destruct p as [|l1 p']; [congruence|]. intros _.
    unfold store. rewrite _isEmpty_modify_cons.
    rewrite Forall_forall in Hne.
    apply (Hne (l, c)). now apply PropsFacts.get_In.
  - apply PropsFacts.Forall_update.
    + rewrite Forall_forall in *. intros x Hx _. split; auto.
    + simpl. intros c' _ _ Hl. congruence.
Qed.

Lemma _removeEmptyParents_clean : forall p t,
  AllNodes radix t ->
  pending p t ->
  AllNodes clean (_removeEmptyParents (prefixes p) t).
Proof.
  induction p as [|l p IH] using rev_ind; intros t Hr Hp; [assumption|].
  rewrite _removeEmptyParents_snoc. apply IH.
  - apply modify_radix; [assumption|].
    intros n Hn. apply delete_empty_radix. eapply AllNodes_deref; eauto.
  - now apply prune_step with (l := l).
Qed.

(** The tree after [delete index.node.$] and the clean-up that follows. *)
Lemma delete_data_tree : forall this index,
  tree (delete_data this index) =
  if _isEmpty (with_data None (node index))
  then _removeEmptyParents (parents index)
         (store (node_ref index) (with_data None (node index)) (tree this))
  else store (node_ref index) (with_data None (node index)) (tree this).
Proof.
  intros this index. unfold delete_data.
  destruct (_isEmpty _); reflexivity.
Qed.

Lemma delete_data_well_formed : forall this index t,
  well_formed t ->
  deref t (node_ref index) = Some (node index) ->
  parents index = prefixes (node_ref index) ->
  tree this = t \/
    (exists n1, tree this = store (node_ref index) n1 t) ->
  well_formed (tree (delete_data this index)).
Proof.
  intros this index t Hwf Hn Hp Htree.
  rewrite delete_data_tree.
  assert (Hstore : store (node_ref index) (with_data None (node index))
                         (tree this)
                   = store (node_ref index) (with_data None (node index)) t).
  { destruct Htree as [->|[n1 ->]]; [reflexivity|].
    unfold store. now rewrite modify_modify. }
  rewrite Hstore, Hp. clear Hstore Htree.
  pose proof (well_formed_deref _ _ _ Hwf Hn) as [Hr Hc].
  assert (Hr' : AllNodes radix (with_data None (node index))).
  { apply AllNodes_inv in Hr. destruct Hr. now constructor. }
  assert (Hc' : AllNodes clean (with_data None (node index))).
  { apply AllNodes_inv in Hc. destruct Hc as [[_ ?] ?].
    constructor; [split; [discriminate|]|]; assumption. }
  destruct Hwf as [Htr Htc].
  assert (Hsr : AllNodes radix
                  (store (node_ref index) (with_data None (node index)) t))
    by (apply modify_radix; auto).
  destruct (_isEmpty (with_data None (node index))) eqn:He.
  - split.
    + now apply _removeEmptyParents_radix.
    + apply _removeEmptyParents_clean; [assumption|].
      now apply pending_store with (n := node index).
  - apply store_well_formed; [split | split |]; assumption.
Qed.

Lemma _removeData_well_formed : forall this key d index,
  well_formed (tree this) ->
  Tracks (tree this) key index ->
  well_formed (tree (state_of (_removeData JSON_stringify this key d index))).
Proof.
  intros this key d index Hwf [Hn Hp _ _]. unfold _removeData.
  destruct d as [v|]; destruct (data (node index)) as [a|] eqn:Hd;
    simpl; try assumption.
  - destruct (find_data JSON_stringify (JSON_stringify v) a <? length a);
      simpl; [|assumption].
    destruct (Nat.eqb_spec (length (splice1 (find_data JSON_stringify
                (JSON_stringify v) a) a)) 0) as [Hz|Hnz]; simpl.
    + apply delete_data_well_formed with (t := tree this); auto.
      right. simpl. eauto.
    + pose proof (well_formed_deref _ _ _ Hwf Hn) as [Hr Hc].
      apply AllNodes_inv in Hr. destruct Hr as [Hr Hrs].
      apply AllNodes_inv in Hc. destruct Hc as [[_ Hne] Hcs].
      apply store_well_formed; [assumption | | reflexivity].
      split; constructor; simpl; auto.
      split; [|assumption]. simpl. intros E. inversion E as [E'].
      rewrite E' in Hnz. simpl in Hnz. congruence.
  - apply delete_data_well_formed with (t := tree this); auto.
Qed.

Lemma remove_well_formed : forall this key d o,
  well_formed (tree this) ->
  remove JSON_stringify this key d = Some o ->
  well_formed (tree (state_of o)).
Proof.
  intros this key d o Hwf H.
  destruct (_processKey_throws this key) eqn:Hthrow.
  { rewrite remove_throws in H by assumption. now inversion H; subst o. }
  rewrite remove_traversal in H by assumption.
  destruct (traversal this (_processKey this key)) as [index|] eqn:Ht;
    [|discriminate].
  simpl in H. inversion H; subst o; clear H.
  pose proof (traversal_tracks _ _ _ Ht) as HT.
  assert (Herr : forall k,
    well_formed (tree (state_of (_removeError this k d index)))).
  { intros k. destruct (_removeError_state this k d index) as [msg ->].
    assumption. }
  unfold _processResults.
  destruct (classify (_processKey this key) index); simpl; auto.
  now apply _removeData_well_formed.
Qed.

Lemma create_well_formed : forall swap, well_formed (tree (@create Value swap)).
Proof.
  intros swap. split; constructor; simpl; try constructor;
    try discriminate; constructor.
Qed.

Lemma Reachable_well_formed : forall this,
  Reachable JSON_stringify this -> well_formed (tree this).
Proof.
  intros this H.
  induction H as [swap | this key v o _ IH _ Hi | this key d o _ IH _ Hr].
  - apply create_well_formed.
  - eapply insert_well_formed; eauto.
  - eapply remove_well_formed; eauto.
Qed.

(** ** The radix property *)

Lemma radix_candidates : forall tempKey n,
  radix n -> length (candidates tempKey n) <= 1.
Proof.
  intros tempKey n H. unfold candidates, radix, Props.keys in *.
  rewrite map_map in H.
  apply (ListFacts.filter_unique _ _ (JsString.charAt0 tempKey) _ H).
  intros [k c] Hk. simpl in *. apply Nat.ltb_lt in Hk.
  symmetry. now apply JsStringFacts.match_len_pos.
Qed.

(** After any finite sequence of calls of [insert] and [remove] on a new
    tree with keys free of [$] and [__proto__], no two children of a node
    have labels with the same first character; so at most one child of a
    node matches what is left of a key. *)
Theorem radix_property : forall this p n,
  Reachable JSON_stringify this ->
  deref (tree this) p = Some n ->
  (forall i j k1 k2,
     i <> j ->
     nth_error (Props.keys (children n)) i = Some k1 ->
     nth_error (Props.keys (children n)) j = Some k2 ->
     JsString.charAt0 k1 <> JsString.charAt0 k2) /\
  (forall tempKey, length (candidates tempKey n) <= 1).
Proof.
  intros this p n Hreach Hn.
  apply Reachable_well_formed in Hreach. destruct Hreach as [Hr _].
  pose proof (AllNodes_here _ _ (AllNodes_deref _ _ _ _ Hr Hn)) as Hrn.
  split.
  - intros i j k1 k2 Hij H1 H2 E. apply Hij.
    unfold radix in Hrn.
    assert (Hi : i < length (map JsString.charAt0 (Props.keys (children n)))).
    { rewrite length_map. apply nth_error_Some. congruence. }
    apply (proj1 (NoDup_nth_error _) Hrn i j Hi).
    rewrite !nth_error_map, H1, H2. simpl. now f_equal.
  - intros tempKey. now apply radix_candidates.
Qed.

(** ** What [_splitNode] builds *)

Lemma split_result : forall this key v index,
  traversal this key = Some index ->
  classify key index = Exists ->
  exists old,
    deref (tree this) (node_ref index) = Some (node index) /\
    Props.get (nodeKey index) (children (node index)) = Some old /\
    0 < charsMatch index < String.length (nodeKey index) /\
    let tempKey :=
      JsString.substr2 key (ttlCharsMatch index - charsMatch index)
                       (charsMatch index) in
    let tempIndexKey := JsString.substr (nodeKey index) (charsMatch index) in
    let str := JsString.substr key (ttlCharsMatch index) in
    String.length tempKey = charsMatch index /\
    exists n' inter,
      _splitNode this key v index =
        Returned (mkRadixTree (store (node_ref index) n' (tree this))
                              (keywordCount this + 1) (dataCount this + 1)
                              (keySwap this) (console this)) /\
      deref (store (node_ref index) n' (tree this)) (node_ref index) = Some n' /\
      data n' = data (node index) /\
      Props.get tempKey (children n') = Some inter /\
      Props.get (nodeKey index) (children n') = None /\
      (forall l, l <> tempKey -> l <> nodeKey index ->
         Props.get l (children n') = Props.get l (children (node index))) /\
      Props.get tempIndexKey (children inter) = Some old /\
      (ttlCharsMatch index = String.length key ->
         data inter = Some [v] /\
         Props.keys (children inter) = [tempIndexKey]) /\
      (ttlCharsMatch index <> String.length key ->
         data inter = None /\
         Props.get str (children inter) = Some (leaf v) /\
         Permutation (Props.keys (children inter)) [str; tempIndexKey]).
Proof.
  intros this key v index Ht Hcl.
  pose proof (traversal_tracks _ _ _ Ht) as HT.
  pose proof (traversal_stopped _ _ _ Ht) as HS.
  destruct (split_state _ _ _ HT HS Hcl) as (old & Hold & Hcm & Htk & Hdiv).
  exists old. split; [apply HT|]. split; [assumption|]. split; [assumption|].
  intros tempKey tempIndexKey str.
  assert (Hne : tempKey <> nodeKey index).
  { unfold tempKey. rewrite Htk. apply prefix_shorter. lia. }
  split.
  { unfold tempKey. rewrite Htk, JsStringFacts.length_prefix. lia. }
  eexists. exists (intermediate key v index old).
  split; [exact (_splitNode_state this key v index old Hold Hne)|].
  fold tempKey.
  split; [exact (deref_modify _ (fun _ => _) _ _ (tracks_node HT))|].
  split; [reflexivity|]. simpl.
  split; [rewrite PropsFacts.get_delete_other by congruence;
          apply PropsFacts.get_set_same|].
  split; [apply PropsFacts.get_delete_same|].
  split.
  { intros l H1 H2.
    rewrite PropsFacts.get_delete_other by congruence.
    apply PropsFacts.get_set_other. congruence. }
  unfold intermediate. fold tempIndexKey. fold str.
  destruct (Nat.eqb_spec (ttlCharsMatch index) (String.length key)) as [E|E];
    simpl.
  - split; [apply PropsFacts.get_set_same|].
    split; [|congruence]. intros _.
    now rewrite PropsFacts.set_nil.
  - split; [apply PropsFacts.get_set_same|].
    split; [congruence|]. intros _.
    assert (Hstr : str <> tempIndexKey).
    { intros Es. apply Hdiv; [pose proof (tracks_ttl HT); lia|].
      fold str. fold tempIndexKey. now rewrite Es. }
    split; [reflexivity|].
    split.
    + rewrite PropsFacts.get_set_other by congruence.
      simpl. now rewrite String.eqb_refl.
    + etransitivity; [apply PropsFacts.keys_set_new|apply perm_swap].
      unfold Props.has. simpl.
      destruct (String.eqb_spec tempIndexKey str); congruence.
Qed.

(** ** A key inserted as a new node and removed again *)

Lemma descend_no_progress : forall key index,
  descend key (ttlCharsMatch index) index = false.
Proof.
  intros key index. unfold descend.
  rewrite Nat.eqb_refl. simpl. apply andb_false_r.
Qed.

Lemma descend_done : forall key tempMatch index,
  ttlCharsMatch index = String.length key ->
  descend key tempMatch index = false.
Proof.
  intros key tempMatch index H. unfold descend.
  rewrite H, Nat.ltb_irrefl. reflexivity.
Qed.

Lemma descend_partial : forall key tempMatch index,
  charsMatch index <> String.length (nodeKey index) ->
  descend key tempMatch index = false.
Proof.
  intros key tempMatch index H. unfold descend.
  destruct (Nat.eqb_spec (charsMatch index) (String.length (nodeKey index)));
    [contradiction|].
  rewrite andb_false_r. reflexivity.
Qed.

Lemma step_full : forall key index str c i,
  first_match (JsString.substr key (ttlCharsMatch index))
              (children (node index)) = Some (str, c, i) ->
  i = String.length str ->
  step key index =
  mkIndex c (node_ref index ++ [str]) str i (ttlCharsMatch index + i)
          (parents index ++ [node_ref index]).
Proof.
  intros key index str c i H E. unfold step. rewrite H.
  now rewrite (proj2 (Nat.eqb_eq _ _) E).
Qed.

Lemma _leafCount_modify_add_child : forall p r v n,
  _leafCount n <> 0 -> _leafCount (modify p (add_child r v) n) <> 0.
Proof.
  intros [|l p] r v n H; simpl; unfold _leafCount in *; simpl.
  - intros E. apply length_zero_iff_nil in E.
    now apply PropsFacts.set_not_nil in E.
  - now rewrite PropsFacts.length_update.
Qed.

Lemma step_leaf : forall key index r v,
  r = JsString.substr key (ttlCharsMatch index) ->
  ttlCharsMatch index < String.length key ->
  first_match r (children (node index)) = None ->
  step key
    (mkIndex (add_child r v (node index)) (node_ref index) (nodeKey index)
             (charsMatch index) (ttlCharsMatch index) (parents index)) =
  mkIndex (leaf v) (node_ref index ++ [r]) r (String.length r)
          (String.length key) (parents index ++ [node_ref index]).
Proof.
  intros key index r v Hr Hlt Hnone.
  assert (Hlen : String.length r = String.length key - ttlCharsMatch index)
    by (rewrite Hr; apply JsStringFacts.length_substr).
  assert (Hpos : 0 < JsString.match_len r r)
    by (rewrite JsStringFacts.match_len_same; lia).
  pose proof (first_match_set_new r (children (node index)) r (leaf v)
                Hnone Hpos) as Hm.
  rewrite JsStringFacts.match_len_same in Hm.
  rewrite (step_full key _ r (leaf v) (String.length r)).
  - simpl. f_equal. lia.
  - simpl. rewrite <- Hr. exact Hm.
  - reflexivity.
Qed.

(** The traversal for a key, in the tree in which [_createNode] has just
    added a node for it, follows the traversal in the tree before and
    takes one more step, into the new node. *)
Lemma descent_after_create : forall key v fuel index indexf,
  descent fuel key index = Some indexf ->
  charsMatch index = String.length (nodeKey index) ->
  ttlCharsMatch indexf < String.length key ->
  charsMatch indexf = String.length (nodeKey indexf) ->
  let r := JsString.substr key (ttlCharsMatch indexf) in
  exists rest,
    node_ref indexf = node_ref index ++ rest /\
    deref (node index) rest = Some (node indexf) /\
    descent (S fuel) key
      (mkIndex (modify rest (add_child r v) (node index)) (node_ref index)
               (nodeKey index) (charsMatch index) (ttlCharsMatch index)
               (parents index)) =
    Some (mkIndex (leaf v) (node_ref indexf ++ [r]) r (String.length r)
                  (String.length key) (parents indexf ++ [node_ref indexf])).
Proof.
  intros key v.
  induction fuel as [|fuel IH]; intros index indexf Hd Hstart Hlt Hfull r;
    [discriminate|].
  simpl in Hd.
  destruct (first_match (JsString.substr key (ttlCharsMatch index))
                        (children (node index)))
    as [[[str c] i]|] eqn:Hm.
  - destruct (first_match_Some _ _ _ _ _ Hm) as (Hi & Hpos & Hg).
    destruct (Nat.eq_dec i (String.length str)) as [Hf|Hp].
    + rewrite (step_full _ _ _ _ _ Hm Hf) in Hd.
      assert (Hm' : forall h,
        step key (mkIndex (with_children
                             (Props.update str h (children (node index)))
                             (node index))
                          (node_ref index) (nodeKey index) (charsMatch index)
                          (ttlCharsMatch index) (parents index)) =
        mkIndex (h c) (node_ref index ++ [str]) str i
                (ttlCharsMatch index + i) (parents index ++ [node_ref index])).
      { intros h.
        rewrite (step_full key _ str (h c) i);
          [reflexivity | simpl; now apply first_match_update | assumption]. }
      match type of Hd with
      | (if ?b then _ else _) = _ => destruct b eqn:D
      end.
      * destruct (IH _ _ Hd) as (rest & Href & Hdr & Hrun); simpl; auto.
        exists (str :: rest). simpl in *.
        split; [now rewrite Href, <- app_assoc|].
        split; [now rewrite Hg|].
        fold r in Hrun.
        change (descent (S (S fuel)) key ?x)
          with (let index' := step key x in
                if descend key (ttlCharsMatch x) index'
                then descent (S fuel) key index' else Some index').
        cbv zeta. rewrite Hm'.
        replace (descend key _ _) with true; [exact Hrun|].
        symmetry. unfold descend in *. simpl in *.
        repeat (apply andb_prop in D; destruct D as [D ?]).
        repeat (apply andb_true_intro; split); auto.
        apply negb_true_iff, Nat.eqb_neq.
        apply _leafCount_modify_add_child. unfold _leafCount.
        match goal with
        | H : negb (_ =? 0) = true |- _ =>
            apply negb_true_iff, Nat.eqb_neq in H; exact H
        end.
      * inversion Hd; subst indexf; clear Hd. simpl in *.
        assert (Hleaf : children c = []).
        { unfold descend in D. simpl in D.
          rewrite (proj2 (Nat.ltb_lt _ _) Hlt) in D.
          rewrite (proj2 (Nat.eqb_eq _ _) Hf) in D.
          destruct (Nat.eqb_spec (ttlCharsMatch index) (ttlCharsMatch index + i));
            [lia|].
          simpl in D. rewrite !andb_true_r in D.
          apply negb_false_iff, Nat.eqb_eq in D.
          now apply length_zero_iff_nil in D. }
        exists [str]. simpl.
        split; [reflexivity|].
        split; [now rewrite Hg|].
        change (descent (S (S fuel)) key ?x)
          with (let index' := step key x in
                if descend key (ttlCharsMatch x) index'
                then descent (S fuel) key index' else Some index').
        cbv zeta. rewrite Hm'.
        replace (descend key _ _) with true.
        2:{ symmetry. unfold descend. simpl.
            rewrite (proj2 (Nat.ltb_lt _ _) Hlt).
            rewrite (proj2 (Nat.eqb_eq _ _) Hf).
            destruct (Nat.eqb_spec (ttlCharsMatch index)
                                   (ttlCharsMatch index + i)); [lia|].
            simpl. rewrite !andb_true_r.
            apply negb_true_iff, Nat.eqb_neq.
            unfold _leafCount, add_child. simpl. intros E.
            apply length_zero_iff_nil in E.
            now apply PropsFacts.set_not_nil in E. }
        simpl descent.
        pose proof (step_leaf key
                      (mkIndex c (node_ref index ++ [str]) str i
                               (ttlCharsMatch index + i)
                               (parents index ++ [node_ref index]))
                      r v eq_refl Hlt) as Hs.
        simpl in Hs. rewrite Hs.
        { now rewrite descend_done. }
        { rewrite Hleaf. reflexivity. }
    + exfalso.
      unfold step in Hd. rewrite Hm in Hd.
      destruct (Nat.eqb_spec i (String.length str)); [contradiction|].
      rewrite descend_partial in Hd by (simpl; assumption).
      inversion Hd; subst indexf. simpl in *. contradiction.
  - unfold step in Hd. rewrite Hm in Hd.
    rewrite descend_no_progress in Hd.
    inversion Hd; subst indexf; clear Hd.
    exists []. rewrite app_nil_r. split; [reflexivity|].
    split; [reflexivity|].
    simpl modify.
    change (descent (S (S fuel)) key ?x)
      with (let index' := step key x in
            if descend key (ttlCharsMatch x) index'
            then descent (S fuel) key index' else Some index').
    cbv zeta.
    rewrite (step_leaf key index r v eq_refl Hlt Hm).
    now rewrite descend_done.
Qed.

Lemma modify_at : forall p f t n,
  deref t p = Some n -> modify p f t = store p (f n) t.
Proof.
  induction p as [|l p IH]; simpl; intros f t n H.
  - unfold store. simpl. congruence.
  - unfold store. simpl. f_equal. apply PropsFacts.update_ext. intros c Hc.
    rewrite Hc in H. now apply IH.
Qed.

Lemma delete_empty_clean : forall n, clean n -> delete_empty n = n.
Proof.
  intros [d cs] [Hd Hne]. unfold delete_empty. simpl in *. f_equal.
  - destruct d as [[|x a]|]; congruence.
  - apply PropsFacts.filter_all.
    rewrite Forall_forall in *. intros x Hx. now rewrite Hne.
Qed.

Lemma _removeEmptyParents_clean_id : forall ps t,
  AllNodes clean t -> _removeEmptyParents ps t = t.
Proof.
  intros ps t H. unfold _removeEmptyParents.
  induction (rev ps) as [|p l IH]; simpl; [reflexivity|].
  rewrite modify_id; [assumption|].
  intros n Hn. apply delete_empty_clean.
  eapply AllNodes_here, AllNodes_deref; eauto.
Qed.

(** What the clean-up makes of a node that had a child added by
    [_createNode] and emptied by [_removeData]. *)
Lemma delete_empty_add_child : forall n r v,
  clean n ->
  Props.get r (children n) = None ->
  delete_empty (modify [r] (fun _ => with_data None (leaf v)) (add_child r v n))
  = n.
Proof.
  intros n r v Hc Hr.
  rewrite <- (delete_empty_clean n Hc) at 2.
  unfold delete_empty, add_child. simpl. f_equal.
  rewrite PropsFacts.update_set.
  now apply PropsFacts.filter_set_new.
Qed.

Lemma insert_then_remove_new : forall this key v index,
  Reachable JSON_stringify this ->
  _processKey_throws this key = false ->
  traversal this (_processKey this key) = Some index ->
  classify (_processKey this key) index = NonExistent \/
  classify (_processKey this key) index = Suffix ->
  _processKey this key <> "" ->
  exists this1,
    insert this key v = Some (Returned this1) /\
    remove JSON_stringify this1 key None = Some (Returned this).
Proof.
  intros this key v index Hreach Hthrow Ht Hcl Hkey.
  set (k := _processKey this key) in *.
  pose proof (Reachable_well_formed _ Hreach) as [_ Hclean].
  pose proof (traversal_tracks _ _ _ Ht) as HT.
  pose proof (traversal_stopped _ _ _ Ht) as HS.
  destruct (create_unmatched _ _ _ HT HS Hcl) as (Hfull & Hnone & Hempty).
  assert (Hlt : ttlCharsMatch index < String.length k).
  { destruct (Nat.lt_ge_cases (ttlCharsMatch index) (String.length k));
      [assumption|].
    destruct (Hempty H); contradiction. }
  specialize (Hnone Hlt).
  set (r := JsString.substr k (ttlCharsMatch index)) in *.
  assert (Hrlen : String.length r = String.length k - ttlCharsMatch index)
    by apply JsStringFacts.length_substr.
  (* the call of insert *)
  assert (Hins : insert this key v =
                 Some (_createNode this k v index)).
  { rewrite insert_traversal by assumption. fold k. rewrite Ht. simpl.
    unfold _processResults. destruct Hcl as [-> | ->]; reflexivity. }
  remember (state_of (_createNode this k v index)) as this1 eqn:E1.
  assert (Hret : _createNode this k v index = Returned this1)
    by (subst this1; reflexivity).
  pose proof (_createNode_tree this k v index) as Htree.
  rewrite <- E1 in Htree. fold r in Htree.
  assert (Hfields : keywordCount this1 = (keywordCount this + 1)%Z /\
                    dataCount this1 = (dataCount this + 1)%Z /\
                    keySwap this1 = keySwap this /\
                    console this1 = console this)
    by (subst this1; repeat split).
  destruct Hfields as (Hkc & Hdc & Hswap & Hcon).
  exists this1. split; [now rewrite Hins, Hret|].
  (* the traversal made by remove *)
  assert (Hk1 : _processKey this1 key = k).
  { unfold k. now apply _processKey_keySwap. }
  assert (Hthrow1 : _processKey_throws this1 key = false).
  { now rewrite (_processKey_throws_keySwap _ _ key Hswap). }
  destruct (descent_after_create k v _ _ _ Ht eq_refl Hlt Hfull)
    as (rest & Href & Hdr & Hrun).
  simpl in Href, Hdr. fold r in Hrun.
  change (descent (S (S (String.length k))) k
            (mkIndex (modify rest (add_child r v) (tree this)) [] "" 0 0 []) =
          Some (mkIndex (leaf v) (node_ref index ++ [r]) r (String.length r)
                        (String.length k) (parents index ++ [node_ref index])))
    in Hrun.
  rewrite (modify_at _ _ _ _ Hdr), <- Href, <- Htree in Hrun.
  assert (Ht1 : traversal this1 k =
            Some (mkIndex (leaf v) (node_ref index ++ [r]) r (String.length r)
                          (String.length k) (parents index ++ [node_ref index]))).
  { destruct (traversal_total this1 k) as [index1 H1].
    rewrite H1. f_equal.
    apply (descent_more_fuel _ _ (S (S (String.length k)))) in H1; [|lia].
    unfold initial_index in H1. congruence. }
  rewrite remove_traversal, Hk1, Ht1 by assumption. simpl.
  unfold _processResults, classify. simpl.
  destruct (Nat.eqb_spec (String.length k) 0) as [Hz|_].
  { apply JsStringFacts.length_zero in Hz. contradiction. }
  rewrite Nat.ltb_irrefl, !Nat.eqb_refl. simpl.
  f_equal. f_equal.
  (* the clean-up *)
  unfold delete_data. simpl.
  rewrite (tracks_parents HT), <- (prefixes_snoc _ r), _removeEmptyParents_snoc.
  rewrite Htree. unfold store.
  rewrite modify_app, !modify_modify.
  rewrite delete_empty_add_child.
  - fold (store (node_ref index) (node index) (tree this)).
    rewrite (store_deref _ _ _ (tracks_node HT)).
    rewrite _removeEmptyParents_clean_id by assumption.
    unfold set_tree, set_keywordCount, set_dataCount. simpl.
    rewrite Hkc, Hdc, Hswap, Hcon.
    destruct this as [t kc dc swap con]. simpl.
    f_equal; lia.
  - eapply AllNodes_here, AllNodes_deref; [exact Hclean | apply HT].
  - apply first_match_None_get with (tempKey := r); [assumption|].
    rewrite JsStringFacts.match_len_same. lia.
Qed.

(** C1, as the program has it.  From a state reached by calls of [insert]
    and [remove] with keys free of [$] and [__proto__], inserting a value
    under such a key, for which [_processKey] returns and a new node is
    created without splitting a label (the traversal ends as non-existent
    or suffix, on a key that is not empty), and then removing that key
    without a value gives back the tree, and the two counters, of
    before. *)
Theorem insert_remove_roundtrip : forall this key v index,
  Reachable JSON_stringify this ->
  _processKey_throws this key = false ->
  plain_key (_processKey this key) = true ->
  traversal this (_processKey this key) = Some index ->
  classify (_processKey this key) index = NonExistent \/
  classify (_processKey this key) index = Suffix ->
  _processKey this key <> "" ->
  exists this1 this2,
    insert this key v = Some (Returned this1) /\
    remove JSON_stringify this1 key None = Some (Returned this2) /\
    tree this2 = tree this /\
    keywordCount this2 = keywordCount this /\
    dataCount this2 = dataCount this.
Proof.
  intros this key v index Hreach Hthrow _ Ht Hcl Hkey.
  destruct (insert_then_remove_new this key v index Hreach Hthrow Ht Hcl Hkey)
    as (this1 & Hi & Hr).
  exists this1, this. repeat split; assumption.
Qed.

End Theory.

(** ** The scenarios *)

Lemma Reachable_inserted : forall key v this,
  Reachable Sample.show this ->
  plain_key (_processKey this key) = true ->
  Reachable Sample.show (Sample.inserted key v this).
Proof.
  intros key v this H Hk. unfold Sample.inserted.
  destruct (insert this key v) as [o|] eqn:E; [|assumption].
  eapply Reachable_insert; eauto.
Qed.

Lemma Reachable_new : Reachable Sample.show Sample.new.
Proof. apply Reachable_create. Qed.

Lemma Reachable_cart : Reachable Sample.show Sample.cart.
Proof. apply Reachable_inserted; [apply Reachable_new | reflexivity]. Qed.

Lemma Reachable_cart_cast : Reachable Sample.show Sample.cart_cast.
Proof. apply Reachable_inserted; [apply Reachable_cart | reflexivity]. Qed.

Lemma Reachable_cart_cast_ca : Reachable Sample.show Sample.cart_cast_ca.
Proof. apply Reachable_inserted; [apply Reachable_cart_cast | reflexivity]. Qed.

Lemma Reachable_cat_cat : Reachable Sample.show Sample.cat_cat.
Proof.
  repeat (apply Reachable_inserted; [|reflexivity]). apply Reachable_new.
Qed.

Lemma Reachable_cat_1_2_1 : Reachable Sample.show Sample.cat_1_2_1.
Proof. apply Reachable_inserted; [apply Reachable_cat_cat | reflexivity]. Qed.

(** C1, as stated, fails.  After [insert("cart", 1)], the calls
    [insert("cast", 2)] and [remove("cast")] leave the node split: the
    label ["cart"] has become ["ca"] followed by ["rt"].  After
    [insert("cat", 1)] and [insert("cat", 2)], the calls [insert("cat", 3)]
    and [remove("cat")] take [dataCount] from 2 to 0 and [keywordCount]
    from 1 to 0.  On a new tree, [insert("", 1)] adds a node that
    [remove("")] does not find. *)
Lemma roundtrip_counterexample :
  Reachable Sample.show Sample.cart /\
  (exists this1 this2,
     insert Sample.cart "cast" 2%Z = Some (Returned this1) /\
     remove Sample.show this1 "cast" None = Some (Returned this2) /\
     tree Sample.cart = mkNode None [("cart", leaf 1%Z)] /\
     tree this2 = mkNode None [("ca", mkNode None [("rt", leaf 1%Z)])] /\
     tree this2 <> tree Sample.cart) /\
  Reachable Sample.show Sample.cat_cat /\
  (exists this1 this2,
     insert Sample.cat_cat "cat" 3%Z = Some (Returned this1) /\
     remove Sample.show this1 "cat" None = Some (Returned this2) /\
     dataCount Sample.cat_cat = 2%Z /\ dataCount this2 = 0%Z /\
     keywordCount Sample.cat_cat = 1%Z /\ keywordCount this2 = 0%Z /\
     tree this2 <> tree Sample.cat_cat) /\
  (exists this1 this2,
     insert Sample.new "" 1%Z = Some (Returned this1) /\
     remove Sample.show this1 "" None = Some (Returned this2) /\
     tree this2 = mkNode None [("", leaf 1%Z)] /\
     tree this2 <> tree Sample.new /\
     keywordCount Sample.new = 0%Z /\ keywordCount this2 = 1%Z).
Proof.
  split; [apply Reachable_cart|]. split.
  - eexists. eexists. split; [vm_compute; reflexivity|].
    split; [vm_compute; reflexivity|].
    split; [reflexivity|]. split; [reflexivity|].
    vm_compute. discriminate.
  - split; [apply Reachable_cat_cat|]. split.
    + eexists. eexists. split; [vm_compute; reflexivity|].
      split; [vm_compute; reflexivity|].
      repeat (split; [reflexivity|]).
      vm_compute. discriminate.
    + eexists. eexists. split; [vm_compute; reflexivity|].
      split; [vm_compute; reflexivity|].
      split; [reflexivity|].
      split; [vm_compute; discriminate|].
      split; reflexivity.
Qed.

(** [insert("carts", 5)] and [remove("carts")] after [insert("cart", 1)]. *)
Lemma insert_remove_roundtrip_witness :
  Reachable Sample.show Sample.cart /\
  _processKey_throws Sample.cart "carts" = false /\
  plain_key (_processKey Sample.cart "carts") = true /\
  traversal Sample.cart (_processKey Sample.cart "carts") =
    Some (Sample.traversed "carts" Sample.cart) /\
  (classify (_processKey Sample.cart "carts")
            (Sample.traversed "carts" Sample.cart) = NonExistent \/
   classify (_processKey Sample.cart "carts")
            (Sample.traversed "carts" Sample.cart) = Suffix) /\
  _processKey Sample.cart "carts" <> "" /\
  exists this1 this2,
    insert Sample.cart "carts" 5%Z = Some (Returned this1) /\
    remove Sample.show this1 "carts" None = Some (Returned this2) /\
    tree this2 = tree Sample.cart /\
    keywordCount this2 = keywordCount Sample.cart /\
    dataCount this2 = dataCount Sample.cart.
Proof.
  split; [apply Reachable_cart|].
  split; [reflexivity|].
  split; [reflexivity|].
  split; [reflexivity|].
  split; [right; reflexivity|].
  split; [discriminate|].
  apply (insert_remove_roundtrip Z Sample.show Sample.cart "carts" 5%Z
           (Sample.traversed "carts" Sample.cart)).
  - apply Reachable_cart.
  - reflexivity.
  - reflexivity.
  - reflexivity.
  - right. reflexivity.
  - discriminate.
Defined.

(** C2 fails on the program.  [remove("ca")] on the tree made by
    [insert("cart", 1)] and [insert("cast", 2)] reaches the node ["ca"],
    which has children and no data, and throws a [TypeError] where it reads
    the length of the missing array; so does [remove("ca", 1)]. *)
Theorem remove_dataless_node_throws :
  Reachable Sample.show Sample.cart_cast /\
  (exists n,
     deref (tree Sample.cart_cast) ["ca"] = Some n /\
     data n = None /\ Props.keys (children n) = ["st"; "rt"]) /\
  remove Sample.show Sample.cart_cast "ca" None =
    Some (Thrown TypeError Sample.cart_cast) /\
  remove Sample.show Sample.cart_cast "ca" (Some 1%Z) =
    Some (Thrown TypeError Sample.cart_cast).
Proof.
  split; [apply Reachable_cart_cast|].
  split; [eexists; split; [reflexivity|split; reflexivity]|].
  split; reflexivity.
Qed.

(** C3 fails on the program.  After [insert("cart", 1)], [insert("cast", 2)]
    and [insert("ca", 3)] three nodes hold data and [keywordCount] is 2:
    [_insertData] creates the data array of the node ["ca"] without counting
    the node.  After [insert("", 1)] and [insert("", 2)] one node holds one
    value and both counters are 2: the second call overwrites the node of
    the first. *)
Theorem counters_differ_from_scan :
  Reachable Sample.show Sample.cart_cast_ca /\
  keywordCount Sample.cart_cast_ca = 2%Z /\
  scan_keywords (tree Sample.cart_cast_ca) = 3 /\
  dataCount Sample.cart_cast_ca = 3%Z /\
  scan_data (tree Sample.cart_cast_ca) = 3 /\
  Reachable Sample.show Sample.empty_twice /\
  keywordCount Sample.empty_twice = 2%Z /\
  scan_keywords (tree Sample.empty_twice) = 1 /\
  dataCount Sample.empty_twice = 2%Z /\
  scan_data (tree Sample.empty_twice) = 1.
Proof.
  split; [apply Reachable_cart_cast_ca|].
  repeat (split; [reflexivity|]).
  split; [repeat (apply Reachable_inserted; [|reflexivity]); apply Reachable_new|].
  repeat split; reflexivity.
Qed.

(** C8, as stated, fails: after [insert("car", 1)], [insert("card", 2)] and
    [insert("care", 3)] the counters are not 2 and the node ["car"] holds
    data. *)
Lemma scenario_A_counterexample :
  keywordCount Sample.car_card_care <> 2%Z /\
  dataCount Sample.car_card_care <> 2%Z /\
  exists n,
    deref (tree Sample.car_card_care) ["car"] = Some n /\ data n <> None.
Proof.
  split; [vm_compute; discriminate|].
  split; [vm_compute; discriminate|].
  eexists. split; [reflexivity|]. vm_compute. discriminate.
Qed.

(** C8, as the program has it.  [insert("car", 1)], [insert("card", 2)] and
    [insert("care", 3)] on a new tree give a node ["car"] that holds the
    value 1 and has the children ["d"] and ["e"], holding 2 and 3;
    [keywordCount] and [dataCount] are both 3. *)
Theorem scenario_A :
  tree Sample.car_card_care =
    mkNode None
      [("car", mkNode (Some [1%Z]) [("d", leaf 2%Z); ("e", leaf 3%Z)])] /\
  keywordCount Sample.car_card_care = 3%Z /\
  dataCount Sample.car_card_care = 3%Z /\
  scan_keywords (tree Sample.car_card_care) = 3 /\
  scan_data (tree Sample.car_card_care) = 3.
Proof. repeat split; reflexivity. Qed.

(** On a tree made by calls with keys free of [$] and [__proto__], and
    for such a key, for which [_processKey] returns: where the traversal of
    [insert] ends in the middle of the label [nodeKey] of a child,
    [_splitNode] puts a node between the current node and that child: its
    label is made of the [charsMatch] characters of the key that follow
    those consumed before, the old child hangs under it with the rest of
    [nodeKey] as its label, the edge [nodeKey] is gone, and the value is
    the data of the new node when the key ends there, or else the data of a
    second child labelled with the rest of the key.  So [insert("cart", 1)]
    and [insert("cast", 2)] give a node ["ca"] with the children ["rt"]
    and ["st"]. *)
Theorem split_on_divergence :
  (forall (Value : Type) (JSON_stringify : Value -> string)
          (this : RadixTree Value) key v index,
     Reachable JSON_stringify this ->
     _processKey_throws this key = false ->
     plain_key (_processKey this key) = true ->
     traversal this (_processKey this key) = Some index ->
     classify (_processKey this key) index = Exists ->
     let k := _processKey this key in
     let tempKey :=
       JsString.substr2 k (ttlCharsMatch index - charsMatch index)
                        (charsMatch index) in
     let tempIndexKey := JsString.substr (nodeKey index) (charsMatch index) in
     let str := JsString.substr k (ttlCharsMatch index) in
     exists old n' inter this',
       deref (tree this) (node_ref index) = Some (node index) /\
       Props.get (nodeKey index) (children (node index)) = Some old /\
       0 < charsMatch index < String.length (nodeKey index) /\
       String.length tempKey = charsMatch index /\
       insert this key v = Some (Returned this') /\
       keywordCount this' = (keywordCount this + 1)%Z /\
       dataCount this' = (dataCount this + 1)%Z /\
       tree this' = store (node_ref index) n' (tree this) /\
       deref (tree this') (node_ref index) = Some n' /\
       data n' = data (node index) /\
       Props.get tempKey (children n') = Some inter /\
       Props.get (nodeKey index) (children n') = None /\
       (forall l, l <> tempKey -> l <> nodeKey index ->
          Props.get l (children n') = Props.get l (children (node index))) /\
       Props.get tempIndexKey (children inter) = Some old /\
       (ttlCharsMatch index = String.length k ->
          data inter = Some [v] /\
          Props.keys (children inter) = [tempIndexKey]) /\
       (ttlCharsMatch index <> String.length k ->
          data inter = None /\
          Props.get str (children inter) = Some (leaf v) /\
          Permutation (Props.keys (children inter)) [str; tempIndexKey])) /\
  tree Sample.cart_cast =
    mkNode None [("ca", mkNode None [("st", leaf 2%Z); ("rt", leaf 1%Z)])].
Proof.
  split; [|reflexivity].
  intros Value JSON_stringify this key v index _ Hthrow _ Ht Hcl. cbv zeta.
  pose proof (split_result Value this (_processKey this key) v index Ht Hcl)
    as H.
  cbv zeta in H.
  destruct H
    as (old & Hn & Hold & Hcm & Hlen & n' & inter & Hsplit & Hn' & Hd & Hrest).
  exists old, n', inter.
  eexists.
  split; [exact Hn|]. split; [exact Hold|]. split; [exact Hcm|].
  split; [exact Hlen|].
  split.
  { rewrite insert_traversal, Ht by assumption. simpl.
    unfold _processResults. rewrite Hcl. simpl. rewrite Hsplit. reflexivity. }
  simpl.
  split; [reflexivity|]. split; [reflexivity|]. split; [reflexivity|].
  split; [exact Hn'|]. split; [exact Hd|]. exact Hrest.
Qed.

(** [insert("cast", 2)] after [insert("cart", 1)]. *)
Lemma split_on_divergence_witness :
  Reachable Sample.show Sample.cart /\
  _processKey_throws Sample.cart "cast" = false /\
  plain_key (_processKey Sample.cart "cast") = true /\
  traversal Sample.cart (_processKey Sample.cart "cast") =
    Some (Sample.traversed "cast" Sample.cart) /\
  classify (_processKey Sample.cart "cast")
           (Sample.traversed "cast" Sample.cart) = Exists /\
  exists old n' inter this',
    Props.get "cart" (children (tree Sample.cart)) = Some old /\
    insert Sample.cart "cast" 2%Z = Some (Returned this') /\
    tree this' = store [] n' (tree Sample.cart) /\
    Props.get "ca" (children n') = Some inter /\
    Props.get "cart" (children n') = None /\
    Props.get "rt" (children inter) = Some old /\
    Props.get "st" (children inter) = Some (leaf 2%Z).
Proof.
  split; [apply Reachable_cart|].
  split; [reflexivity|]. split; [reflexivity|].
  split; [reflexivity|]. split; [reflexivity|].
  destruct (proj1 split_on_divergence Z Sample.show Sample.cart "cast" 2%Z
              (Sample.traversed "cast" Sample.cart) Reachable_cart
              eq_refl eq_refl eq_refl eq_refl)
    as (old & n' & inter & this' & _ & Hold & _ & _ & Hi & _ & _ & Htree & _ & _
        & Hinter & Hgone & _ & Hrt & _ & Hst).
  exists old, n', inter, this'.
  split; [exact Hold|]. split; [exact Hi|]. split; [exact Htree|].
  split; [exact Hinter|]. split; [exact Hgone|]. split; [exact Hrt|].
  apply Hst. discriminate.
Defined.

(** [remove("zzz")] on a new tree. *)
Lemma remove_failure_no_mutation_witness :
  remove Sample.show Sample.new "zzz" None =
    Some (Returned (Sample.removed "zzz" None Sample.new)) /\
  console (state_of (Returned (Sample.removed "zzz" None Sample.new))) <>
    console Sample.new /\
  tree (state_of (Returned (Sample.removed "zzz" None Sample.new))) =
    tree Sample.new /\
  keywordCount (state_of (Returned (Sample.removed "zzz" None Sample.new))) =
    keywordCount Sample.new /\
  dataCount (state_of (Returned (Sample.removed "zzz" None Sample.new))) =
    dataCount Sample.new.
Proof.
  split; [reflexivity|]. split; [discriminate|].
  apply (remove_failure_no_mutation Z Sample.show Sample.new "zzz" None
           (Returned (Sample.removed "zzz" None Sample.new))).
  - reflexivity.
  - discriminate.
Defined.

(** The node ["ca"] after [insert("cart", 1)] and [insert("cast", 2)]. *)
Lemma radix_property_witness :
  Reachable Sample.show Sample.cart_cast /\
  deref (tree Sample.cart_cast) ["ca"] =
    Some (Sample.node_at ["ca"] Sample.cart_cast) /\
  (forall i j k1 k2,
     i <> j ->
     nth_error (Props.keys (children (Sample.node_at ["ca"] Sample.cart_cast))) i
       = Some k1 ->
     nth_error (Props.keys (children (Sample.node_at ["ca"] Sample.cart_cast))) j
       = Some k2 ->
     JsString.charAt0 k1 <> JsString.charAt0 k2) /\
  (forall tempKey,
     length (candidates tempKey (Sample.node_at ["ca"] Sample.cart_cast)) <= 1).
Proof.
  split; [apply Reachable_cart_cast|]. split; [reflexivity|].
  apply (radix_property Z Sample.show Sample.cart_cast ["ca"]
           (Sample.node_at ["ca"] Sample.cart_cast)).
  - apply Reachable_cart_cast.
  - reflexivity.
Defined.




(** [insert("cast", 2)] after [insert("cart", 1)] ends in [_splitNode]. *)
Lemma classification_exhaustive_witness :
  Reachable Sample.show Sample.cart /\
  _processKey_throws Sample.cart "cast" = false /\
  plain_key (_processKey Sample.cart "cast") = true /\
  exists index,
    traversal Sample.cart (_processKey Sample.cart "cast") = Some index /\
    classify (_processKey Sample.cart "cast") index = Exists /\
    insert Sample.cart "cast" 2%Z =
      Some (_splitNode Sample.cart (_processKey Sample.cart "cast") 2%Z index).
Proof.
  split; [apply Reachable_cart|].
  split; [reflexivity|]. split; [reflexivity|].
  destruct (proj1 (proj2 (classification_exhaustive Z Sample.show))
              Sample.cart "cast" 2%Z Reachable_cart eq_refl eq_refl)
    as (index & Ht & H).
  exists index. split; [exact Ht|].
  assert (E : index = Sample.traversed "cast" Sample.cart).
  { unfold Sample.traversed. now rewrite Ht. }
  destruct H as [[[Hc|Hc] _]|[[Hc _]|[Hc Hi]]].
  - rewrite E in Hc. discriminate Hc.
  - rewrite E in Hc. discriminate Hc.
  - rewrite E in Hc. discriminate Hc.
  - split; assumption.
Defined.

(** With the alias table [{cat: "dog"}], the key ["constructor"] finds the
    member that the table inherits: [insert] and [remove] throw. *)
Lemma inherited_alias_throws :
  _processKey_throws Sample.aliased "constructor" = true /\
  insert Sample.aliased "constructor" 1%Z =
    Some (Thrown TypeError Sample.aliased) /\
  remove Sample.show Sample.aliased "constructor" None =
    Some (Thrown TypeError Sample.aliased) /\
  _processKey_throws Sample.new "constructor" = false.
Proof. repeat split; reflexivity. Qed.



(** * Further properties of the program *)

Section More.
Variable Value : Type.
Variable JSON_stringify : Value -> string.
Implicit Types (t n c : Node Value) (p q : path)
  (f g : Node Value -> Node Value) (index : Index Value)
  (cs : list (string * Node Value)) (key tempKey str : string)
  (this : RadixTree Value) (v : Value).

(** ** What a call of [insert] does to the object *)

Lemma insert_effect : forall this key v,
  _processKey_throws this key = false ->
  exists index this',
    traversal this (_processKey this key) = Some index /\
    insert this key v = Some (Returned this') /\
    console this' = console this /\
    keySwap this' = keySwap this /\
    dataCount this' = (dataCount this + 1)%Z /\
    keywordCount this' =
      match classify (_processKey this key) index with
      | Exact => keywordCount this
      | _ => (keywordCount this + 1)%Z
      end.
Proof.
  intros this key v Hthrow.
  destruct (traversal_total Value this (_processKey this key)) as [index Ht].
  exists index. rewrite insert_traversal, Ht by assumption. simpl.
  pose proof (traversal_tracks _ _ _ _ Ht) as HT.
  pose proof (traversal_stopped _ _ _ _ Ht) as HS.
  unfold _processResults.
  destruct (classify (_processKey this key) index) eqn:Hcl; simpl.
  - eexists. split; [reflexivity|]. split; [reflexivity|].
    unfold _createNode. simpl. repeat split.
  - eexists. split; [reflexivity|]. split; [reflexivity|].
    unfold _createNode. simpl. repeat split.
  - eexists. split; [reflexivity|]. split; [reflexivity|].
    unfold _insertData. simpl. repeat split.
  - destruct (split_state _ _ _ _ HT HS Hcl) as (old & Hold & Hcm & Htk & _).
    rewrite (_splitNode_state _ this _ v index old Hold).
    + eexists. split; [reflexivity|]. split; [reflexivity|]. repeat split.
    + rewrite Htk. apply prefix_shorter. lia.
  - exfalso.
    destruct (classify_spec Value (_processKey this key) index) as [H _].
    contradiction.
Qed.

(** On a tree made by calls with keys free of [$] and [__proto__], whose
    counters are safe integers, [insert] with such a key, for which
    [_processKey] returns, does not throw and writes nothing on the
    console: it returns with one more value counted, and one more keyword
    unless the key was matched exactly; the alias table is left alone. *)
Theorem insert_always_adds : forall this key v,
  Reachable JSON_stringify this ->
  _processKey_throws this key = false ->
  plain_key (_processKey this key) = true ->
  safe_integer (keywordCount this) = true ->
  safe_integer (dataCount this) = true ->
  exists index this',
    traversal this (_processKey this key) = Some index /\
    insert this key v = Some (Returned this') /\
    console this' = console this /\
    keySwap this' = keySwap this /\
    dataCount this' = (dataCount this + 1)%Z /\
    keywordCount this' =
      match classify (_processKey this key) index with
      | Exact => keywordCount this
      | _ => (keywordCount this + 1)%Z
      end.
Proof. intros this key v _ Hthrow _ _ _. now apply insert_effect. Qed.

(** ** What reachable trees never contain *)

Lemma deref_snoc : forall p l t n,
  deref t (p ++ [l]) = Some n ->
  exists m, deref t p = Some m /\ Props.get l (children m) = Some n.
Proof.
  intros p l t n H. rewrite deref_app in H.
  destruct (deref t p) as [m|]; [|discriminate].
  exists m. split; [reflexivity|]. simpl in H.
  destruct (Props.get l (children m)); [assumption | discriminate].
Qed.

Lemma reachable_node_clean : forall this p n,
  Reachable JSON_stringify this ->
  deref (tree this) p = Some n ->
  data n <> Some [] /\ (p <> [] -> _isEmpty n = false).
Proof.
  intros this p n Hreach Hn.
  apply Reachable_well_formed in Hreach. destruct Hreach as [_ Hc].
  split.
  - apply (AllNodes_deref _ _ _ _ _ Hc), AllNodes_here in Hn. apply Hn.
  - intros Hp. destruct (exists_last Hp) as (p' & l & ->).
    apply deref_snoc in Hn. destruct Hn as (m & Hm & Hg).
    apply (AllNodes_deref _ _ _ _ _ Hc), AllNodes_here in Hm.
    destruct Hm as [_ Hne]. rewrite Forall_forall in Hne.
    apply (Hne (l, n)). now apply PropsFacts.get_In.
Qed.

(** In a tree made by calls of [insert] and [remove], a data array that is
    present is not empty, and no node but the root is without properties:
    [_removeData] deletes the array with its last value and
    [_removeEmptyParents] the nodes left hollow. *)
Theorem reachable_no_hollow_node : forall this p n,
  Reachable JSON_stringify this ->
  deref (tree this) p = Some n ->
  data n <> Some [] /\ (p <> [] -> _isEmpty n = false).
Proof. exact reachable_node_clean. Qed.

(** A pass of [_removeEmptyParents] over a tree made by calls of [insert]
    and [remove] with keys free of [$] and [__proto__] finds nothing to
    delete, whatever ancestors it is given. *)
Theorem pruning_reachable_tree : forall this parents,
  Reachable JSON_stringify this ->
  _removeEmptyParents parents (tree this) = tree this.
Proof.
  intros this parents Hreach.
  apply _removeEmptyParents_clean_id.
  apply Reachable_well_formed in Hreach. apply Hreach.
Qed.

(** ** What a call of [remove] does to the object *)

Lemma delete_data_fields : forall this index,
  console (delete_data this index) = console this /\
  keySwap (delete_data this index) = keySwap this /\
  dataCount (delete_data this index) = dataCount this /\
  keywordCount (delete_data this index) = (keywordCount this - 1)%Z.
Proof.
  intros this index. unfold delete_data.
  destruct (_isEmpty _); repeat split.
Qed.


(** ** The versions of the handler of [remove] *)

(** The handler of the closure version, which looks for a node left
    without properties after every branch, ends every call as the handler
    of the trunk does, which looks after a deletion only: same outcome, same
    tree, same counters, same console. *)
Theorem removeData_agrees : forall this key d index,
  removeData JSON_stringify this key d index =
  _removeData JSON_stringify this key d index.
Proof.
  intros this key d index. unfold removeData, _removeData, delete_data.
  destruct d as [v|]; destruct (data (node index)) as [a|] eqn:Ha;
    try reflexivity.
  - destruct (find_data JSON_stringify (JSON_stringify v) a <? length a).
    + destruct (length (splice1 _ a) =? 0); simpl.
      * unfold with_data. simpl.
        destruct (_isEmpty (mkNode None (children (node index)))); reflexivity.
      * unfold _isEmpty. simpl. reflexivity.
    + unfold _isEmpty. rewrite Ha. reflexivity.
  - simpl. destruct (_isEmpty (with_data None (node index))); reflexivity.
Qed.




(** ** Keys as [_processKey] leaves them *)

Lemma processed_char_made : forall ch,
  processed_char
    (if Ascii.eqb (JsString.lower ch) " "%char then "_"%char
     else JsString.lower ch) = true.
Proof.
  intros [[] [] [] [] [] [] [] []]; reflexivity.
Qed.

Lemma processed_char_kept : forall ch,
  processed_char ch = true ->
  (if Ascii.eqb (JsString.lower ch) " "%char then "_"%char
   else JsString.lower ch) = ch.
Proof.
  intros [[] [] [] [] [] [] [] []]; intros H; try reflexivity;
    discriminate H.
Qed.

Lemma _processKey_made : forall this key,
  JsString.all_chars processed_char (_processKey this key) = true.
Proof.
  intros this key. unfold _processKey.
  generalize (match alias this key with
              | OwnAlias s => s
              | _ => key
              end).
  induction s as [|ch s IH]; simpl; [reflexivity|].
  now rewrite processed_char_made, IH.
Qed.

(** A processed key holds no space and no capital letter. *)
Theorem _processKey_chars : forall this key,
  JsString.all_chars processed_char (_processKey this key) = true.
Proof. exact _processKey_made. Qed.

Lemma processed_fixed : forall s : string,
  JsString.all_chars processed_char s = true ->
  JsString.replace_spaces (JsString.toLowerCase s) = s.
Proof.
  induction s as [|ch s IH]; simpl; intros Hc; [reflexivity|].
  apply andb_prop in Hc. destruct Hc as [Hc Hs].
  rewrite (processed_char_kept ch Hc). f_equal. now apply IH.
Qed.

(** Where [_processKey] returns for a key, and the alias table has nothing
    for the processed key (no own entry but an empty one, and no member
    inherited from [Object.prototype]; or there is no table), processing
    the processed key returns too, and gives the processed key: so a key
    can be given to [insert] and [remove] in either form. *)
Theorem _processKey_idempotent : forall this key,
  _processKey_throws this key = false ->
  alias this (_processKey this key) = NoAlias ->
  _processKey_throws this (_processKey this key) = false /\
  _processKey this (_processKey this key) = _processKey this key.
Proof.
  intros this key _ H. split.
  - unfold _processKey_throws. now rewrite H.
  - unfold _processKey at 1. rewrite H.
    apply processed_fixed, _processKey_made.
Qed.

(** ** The labels on the way to the node found *)

Lemma prefix_0 : forall s : string, JsString.prefix s 0 = "".
Proof. now intros [|ch s]. Qed.

Lemma prefix_all : forall s : string, JsString.prefix s (String.length s) = s.
Proof. induction s as [|ch s IH]; simpl; [reflexivity | now rewrite IH]. Qed.

Lemma prefix_substr : forall (s : string) i,
  (JsString.prefix s i ++ JsString.substr s i)%string = s.
Proof.
  induction s as [|ch s IH]; intros [|i]; simpl; try reflexivity.
  now rewrite IH.
Qed.

Lemma prefix_add : forall (s : string) i j,
  (JsString.prefix s i ++ JsString.prefix (JsString.substr s i) j)%string =
  JsString.prefix s (i + j).
Proof.
  induction s as [|ch s IH]; intros [|i] j; simpl; try reflexivity.
  - now destruct j.
  - now rewrite IH.
Qed.

Lemma match_len_app : forall l rest : string,
  JsString.match_len (l ++ rest) l = String.length l.
Proof.
  induction l as [|ch l IH]; intros rest; simpl.
  - now destruct rest.
  - now rewrite Ascii.eqb_refl, IH.
Qed.

Lemma substr_app : forall l rest : string,
  JsString.substr (l ++ rest) (String.length l) = rest.
Proof.
  induction l as [|ch l IH]; intros rest; simpl; [|apply IH].
  apply JsStringFacts.substr_0.
Qed.

Lemma length_append : forall a b : string,
  String.length (a ++ b) = String.length a + String.length b.
Proof.
  induction a as [|ch a IH]; intros b; simpl; [reflexivity | now rewrite IH].
Qed.

Lemma append_assoc : forall a b d : string,
  ((a ++ b) ++ d)%string = (a ++ (b ++ d))%string.
Proof.
  induction a as [|ch a IH]; intros b d; simpl; [reflexivity | now rewrite IH].
Qed.

Lemma append_empty_r : forall a : string, (a ++ "")%string = a.
Proof. induction a as [|ch a IH]; simpl; [reflexivity | now rewrite IH]. Qed.

Lemma spell_app : forall p q, spell (p ++ q) = (spell p ++ spell q)%string.
Proof.
  induction p as [|l p IH]; intros q; simpl; [reflexivity|].
  now rewrite IH, append_assoc.
Qed.

(** A label matched entirely is a piece of the key. *)
Lemma full_match_prefix : forall tempKey str,
  JsString.match_len tempKey str = String.length str ->
  JsString.prefix tempKey (String.length str) = str.
Proof.
  intros tempKey str H.
  pose proof (JsStringFacts.prefix_agree tempKey str) as E.
  rewrite H, prefix_all in E. exact E.
Qed.

Lemma descent_spells : forall key fuel index index',
  descent fuel key index = Some index' ->
  charsMatch index = String.length (nodeKey index) ->
  spell (node_ref index) = JsString.prefix key (ttlCharsMatch index) ->
  Forall (fun l => l <> "") (node_ref index) ->
  Forall (fun l => l <> "") (node_ref index') /\
  spell (node_ref index') =
    JsString.prefix key
      (if charsMatch index' =? String.length (nodeKey index')
       then ttlCharsMatch index'
       else ttlCharsMatch index' - charsMatch index').
Proof.
  intros key.
  induction fuel as [|fuel IH]; simpl; intros index index' Hd Hstart Hsp Hne;
    [discriminate|].
  assert (Hstep :
    Forall (fun l => l <> "") (node_ref (step key index)) /\
    spell (node_ref (step key index)) =
      JsString.prefix key
        (if charsMatch (step key index) =?
            String.length (nodeKey (step key index))
         then ttlCharsMatch (step key index)
         else ttlCharsMatch (step key index) - charsMatch (step key index))).
  { unfold step.
    destruct (first_match _ _) as [[[str c] i]|] eqn:Hm.
    - destruct (first_match_Some _ _ _ _ _ _ Hm) as (Hi & Hpos & Hg).
      destruct (Nat.eqb_spec i (String.length str)) as [Hf|Hp]; simpl.
      + rewrite (proj2 (Nat.eqb_eq _ _) Hf). split.
        * apply Forall_app. split; [assumption|].
          constructor; [|constructor]. intros ->. simpl in Hf. lia.
        * rewrite spell_app, Hsp. simpl. rewrite append_empty_r.
          rewrite <- prefix_add. f_equal.
          rewrite Hf. symmetry. apply full_match_prefix. congruence.
      + destruct (Nat.eqb_spec i (String.length str)); [contradiction|].
        split; [assumption|]. rewrite Hsp. f_equal. lia.
    - rewrite (proj2 (Nat.eqb_eq _ _) Hstart). auto. }
  destruct (descend key (ttlCharsMatch index) (step key index)) eqn:D.
  - destruct Hstep as [Hne' Hsp'].
    unfold descend in D.
    repeat (apply andb_prop in D; destruct D as [D ?]).
    match goal with
    | H : (charsMatch _ =? _) = true |- _ =>
        rewrite H in Hsp'; apply Nat.eqb_eq in H
    end.
    now apply (IH (step key index)).
  - inversion Hd; subst index'. exact Hstep.
Qed.

Lemma traversal_spelled : forall this key index,
  traversal this key = Some index ->
  deref (tree this) (node_ref index) = Some (node index) /\
  Forall (fun l => l <> "") (node_ref index) /\
  match classify key index with
  | Exact => spell (node_ref index) = key
  | Exists =>
      spell (node_ref index) =
        JsString.prefix key (ttlCharsMatch index - charsMatch index)
  | _ => spell (node_ref index) = JsString.prefix key (ttlCharsMatch index)
  end.
Proof.
  intros this key index Ht.
  pose proof (traversal_tracks _ _ _ _ Ht) as HT.
  split; [apply HT|].
  destruct (descent_spells key _ _ _ Ht eq_refl (eq_sym (prefix_0 key))
              (Forall_nil _)) as [Hne Hsp].
  split; [assumption|].
  destruct (classify_spec Value key index) as (Hf & Hn & Hs & He & Hx).
  destruct (classify key index) eqn:Hcl.
  - pose proof (proj1 Hn eq_refl) as Hz. pose proof (tracks_chars HT).
    destruct (_ =? _) in Hsp; rewrite Hsp; f_equal; lia.
  - destruct (proj1 Hs eq_refl) as (_ & _ & Hc).
    now rewrite (proj2 (Nat.eqb_eq _ _) Hc) in Hsp.
  - destruct (proj1 He eq_refl) as (_ & Hl & Hc).
    rewrite (proj2 (Nat.eqb_eq _ _) Hc), Hl in Hsp.
    now rewrite prefix_all in Hsp.
  - destruct (proj1 Hx eq_refl) as (_ & H1 & H2).
    pose proof (tracks_ttl HT).
    destruct (Nat.eqb_spec (charsMatch index) (String.length (nodeKey index)))
      as [Hc|Hc]; [|assumption].
    exfalso.
    destruct (Nat.eq_dec (ttlCharsMatch index) (String.length key));
      [apply H2 | apply H1]; split; auto; lia.
  - contradiction.
Qed.

(** When the traversal for a key stops, the node it is at is in the tree
    under the reference it has followed, no label on the way is empty, and
    the labels on the way spell the beginning of the key: the whole key where
    it is matched exactly, its first [ttlCharsMatch] characters where a node
    is to be created under the node found, and the characters before the
    label that matched in part where a node is to be split. *)
Theorem traversal_spells : forall this key index,
  traversal this key = Some index ->
  deref (tree this) (node_ref index) = Some (node index) /\
  Forall (fun l => l <> "") (node_ref index) /\
  match classify key index with
  | Exact => spell (node_ref index) = key
  | Exists =>
      spell (node_ref index) =
        JsString.prefix key (ttlCharsMatch index - charsMatch index)
  | _ => spell (node_ref index) = JsString.prefix key (ttlCharsMatch index)
  end.
Proof. exact traversal_spelled. Qed.

(** ** Keys that the traversal finds *)

(** Among children whose labels begin differently, the child whose label
    begins like the key is the one the loop stops at. *)
Lemma first_match_radix : forall tempKey cs l c,
  NoDup (map JsString.charAt0 (Props.keys cs)) ->
  Props.get l cs = Some c ->
  0 < JsString.match_len tempKey l ->
  first_match tempKey cs = Some (l, c, JsString.match_len tempKey l).
Proof.
  intros tempKey cs l c Hnd Hg Hpos.
  destruct (first_match tempKey cs) as [[[str c'] i]|] eqn:Hm.
  - destruct (first_match_Some _ _ _ _ _ _ Hm) as (Hi & Hpi & Hg').
    assert (E : str = l).
    { apply (ListFacts.NoDup_map_eq JsString.charAt0 (Props.keys cs)); auto.
      - apply PropsFacts.get_In in Hg'. apply (in_map fst) in Hg'. exact Hg'.
      - apply PropsFacts.get_In in Hg. apply (in_map fst) in Hg. exact Hg.
      - rewrite Hi in Hpi.
        apply JsStringFacts.match_len_pos in Hpi, Hpos.
        destruct Hpi, Hpos. congruence. }
    subst str. congruence.
  - exfalso. rewrite first_match_None, Forall_forall in Hm.
    apply PropsFacts.get_In in Hg. specialize (Hm _ Hg). simpl in Hm. lia.
Qed.

Lemma spell_nonempty : forall p,
  p <> [] -> Forall (fun l => l <> "") p -> spell p <> "".
Proof.
  intros [|l p] Hp Hne; [contradiction|]. inversion Hne; subst.
  simpl. destruct l; [contradiction | discriminate].
Qed.

Lemma descent_along : forall key p index n,
  p <> [] ->
  Forall (fun l => l <> "") p ->
  AllNodes (@radix Value) (node index) ->
  deref (node index) p = Some n ->
  spell p = JsString.substr key (ttlCharsMatch index) ->
  ttlCharsMatch index <= String.length key ->
  exists fuel,
    descent fuel key index =
    Some (mkIndex n (node_ref index ++ p) (last p "")
                  (String.length (last p "")) (String.length key)
                  (parents index ++ map (app (node_ref index)) (prefixes p))).
Proof.
  intros key.
  induction p as [|l p IH]; intros index n Hp Hne Hr Hn Hsp Hle;
    [contradiction|].
  inversion Hne as [|? ? Hl Hne']; subst.
  simpl in Hn.
  destruct (Props.get l (children (node index))) as [c|] eqn:Hg;
    [|discriminate].
  assert (Hlen : String.length key - ttlCharsMatch index =
                 String.length l + String.length (spell p)).
  { rewrite <- JsStringFacts.length_substr, <- Hsp. simpl.
    apply length_append. }
  assert (Hlpos : 0 < String.length l).
  { destruct l; [contradiction | simpl; lia]. }
  assert (Hm : first_match (JsString.substr key (ttlCharsMatch index))
                 (children (node index)) = Some (l, c, String.length l)).
  { rewrite <- Hsp. simpl.
    rewrite <- (match_len_app l (spell p)).
    apply first_match_radix; [apply (AllNodes_here _ _ _ Hr) | assumption |].
    rewrite match_len_app. assumption. }
  pose proof (step_full _ key index l c (String.length l) Hm eq_refl) as Hs.
  destruct p as [|l2 p].
  - exists 1. simpl descent. rewrite Hs.
    simpl in Hlen, Hn. inversion Hn; subst c.
    rewrite descend_done by (simpl; lia).
    simpl. rewrite app_nil_r. do 2 f_equal. lia.
  - assert (Hp' : l2 :: p <> []) by discriminate.
    pose proof (spell_nonempty _ Hp' Hne') as Hsne.
    assert (Hspos : 0 < String.length (spell (l2 :: p))).
    { destruct (String.length (spell (l2 :: p))) eqn:E; [|lia].
      apply JsStringFacts.length_zero in E. contradiction. }
    destruct (IH (mkIndex c (node_ref index ++ [l]) l (String.length l)
                          (ttlCharsMatch index + String.length l)
                          (parents index ++ [node_ref index])) n)
      as [fuel Hrun]; auto.
    + simpl. eapply AllNodes_child; eauto.
    + simpl. rewrite <- JsStringFacts.substr_substr, <- Hsp.
      change (spell (l :: l2 :: p)) with (l ++ spell (l2 :: p))%string.
      now rewrite substr_app.
    + simpl. lia.
    + exists (S fuel). simpl descent. rewrite Hs.
      replace (descend key _ _) with true.
      * rewrite Hrun. simpl. f_equal. f_equal.
        -- now rewrite <- app_assoc.
        -- rewrite <- !app_assoc. f_equal. simpl. rewrite app_nil_r.
           f_equal. rewrite !map_map. f_equal.
           apply map_ext. intros q. now rewrite <- app_assoc.
      * symmetry. unfold descend. simpl.
        rewrite Nat.eqb_refl.
        destruct (Nat.ltb_spec (ttlCharsMatch index + String.length l)
                               (String.length key)); [|lia].
        destruct (Nat.eqb_spec (ttlCharsMatch index)
                               (ttlCharsMatch index + String.length l)); [lia|].
        simpl in Hn.
        destruct (Props.get l2 (children c)) eqn:Hg2; [|discriminate].
        unfold _leafCount.
        destruct (children c); [discriminate | reflexivity].
Qed.

Lemma descent_any_fuel : forall key fuel fuel' index r r',
  descent fuel key index = Some r ->
  descent fuel' key index = Some r' ->
  r = r'.
Proof.
  intros key fuel fuel' index r r' H H'.
  apply (descent_more_fuel _ _ _ (Nat.max fuel fuel')) in H; [|lia].
  apply (descent_more_fuel _ _ _ (Nat.max fuel fuel')) in H'; [|lia].
  congruence.
Qed.

(** In a tree with the radix property, the traversal for the key spelled by
    the labels of a reference ends at the node under that reference, having
    matched the whole key. *)
Lemma traversal_finds : forall this p n,
  AllNodes (@radix Value) (tree this) ->
  p <> [] ->
  Forall (fun l => l <> "") p ->
  deref (tree this) p = Some n ->
  exists index,
    traversal this (spell p) = Some index /\
    classify (spell p) index = Exact /\
    node index = n /\ node_ref index = p /\ parents index = prefixes p.
Proof.
  intros this p n Hr Hp Hne Hn.
  destruct (descent_along (spell p) p (initial_index this) n Hp Hne Hr Hn)
    as [fuel Hrun].
  - simpl. now rewrite JsStringFacts.substr_0.
  - simpl. lia.
  - destruct (traversal_total Value this (spell p)) as [index Ht].
    pose proof (descent_any_fuel _ _ _ _ _ _ Ht Hrun) as E.
    exists index. split; [assumption|]. subst index. simpl.
    split; [|split; [reflexivity|split; [reflexivity|]]].
    + unfold classify. simpl.
      pose proof (spell_nonempty _ Hp Hne) as Hs.
      destruct (Nat.eqb_spec (String.length (spell p)) 0) as [E|_].
      { apply JsStringFacts.length_zero in E. contradiction. }
      now rewrite Nat.ltb_irrefl, !Nat.eqb_refl.
    + rewrite map_ext with (g := fun q => q); [apply map_id | reflexivity].
Qed.

(** In a tree made by calls with keys free of [$] and [__proto__], such a
    key is matched exactly when, and only when, the labels from the root
    to some node, none of them empty, spell it. *)
Theorem exact_iff_spelled : forall this key,
  Reachable JSON_stringify this ->
  plain_key key = true ->
  (exists index,
     traversal this key = Some index /\ classify key index = Exact)
  <->
  (exists p n,
     p <> [] /\ Forall (fun l => l <> "") p /\
     deref (tree this) p = Some n /\ spell p = key).
Proof.
  intros this key Hreach _. split.
  - intros (index & Ht & Hcl).
    destruct (traversal_spelled this key index Ht) as (Hn & Hne & Hsp).
    rewrite Hcl in Hsp.
    exists (node_ref index), (node index).
    split; [|auto].
    intros E. rewrite E in Hsp. simpl in Hsp. subst key.
    destruct (classify_spec Value "" index) as (_ & _ & _ & He & _).
    apply He in Hcl. simpl in Hcl. lia.
  - intros (p & n & Hp & Hne & Hn & <-).
    apply Reachable_well_formed in Hreach. destruct Hreach as [Hr _].
    destruct (traversal_finds this p n Hr Hp Hne Hn) as (index & Ht & Hcl & _).
    eauto.
Qed.

(** ** A value inserted is found under its key *)

Lemma deref_store_child : forall p l t n n' c,
  deref t p = Some n ->
  Props.get l (children n') = Some c ->
  deref (store p n' t) (p ++ [l]) = Some c.
Proof.
  intros p l t n n' c Hn Hg.
  rewrite deref_app.
  unfold store. rewrite (deref_modify _ p (fun _ => n') t n Hn).
  simpl. now rewrite Hg.
Qed.

Lemma insert_found : forall this key v,
  Reachable JSON_stringify this ->
  _processKey_throws this key = false ->
  plain_key (_processKey this key) = true ->
  _processKey this key <> "" ->
  exists this' index' a,
    insert this key v = Some (Returned this') /\
    traversal this' (_processKey this key) = Some index' /\
    classify (_processKey this key) index' = Exact /\
    deref (tree this') (node_ref index') = Some (node index') /\
    data (node index') = Some (a ++ [v]).
Proof.
  intros this key v Hreach Hthrow _ Hkey.
  set (k := _processKey this key) in *.
  destruct (insert_effect this key v Hthrow)
    as (index & this' & Ht & Hins & _ & _ & _ & _).
  fold k in Ht.
  pose proof (Reachable_well_formed _ _ _ Hreach) as Hwf.
  pose proof (insert_well_formed _ _ _ _ _ Hwf Hins) as [Hr' _].
  simpl in Hr'.
  pose proof (traversal_tracks _ _ _ _ Ht) as HT.
  pose proof (traversal_stopped _ _ _ _ Ht) as HS.
  destruct (traversal_spelled this k index Ht) as (Hn & Hne & Hsp).
  exists this'.
  assert (Hfound : forall p n a,
    p <> [] -> Forall (fun l => l <> "") p ->
    deref (tree this') p = Some n -> spell p = k ->
    data n = Some (a ++ [v]) ->
    exists index' a,
      insert this key v = Some (Returned this') /\
      traversal this' k = Some index' /\
      classify k index' = Exact /\
      deref (tree this') (node_ref index') = Some (node index') /\
      data (node index') = Some (a ++ [v])).
  { intros p n a Hp Hnep Hnp Hspp Hd.
    destruct (traversal_finds this' p n Hr' Hp Hnep Hnp)
      as (index' & Ht' & Hcl' & En & Ep & _).
    rewrite Hspp in Ht', Hcl'.
    exists index', a. subst n. rewrite Ep. auto. }
  assert (Hins' : Some (Returned this') =
                  Some (_processResults this k v index (insert_callbacks Value))).
  { rewrite <- Hins, insert_traversal by assumption. fold k. now rewrite Ht. }
  unfold _processResults in Hins'.
  assert (Hcreate :
    classify k index = NonExistent \/ classify k index = Suffix ->
    spell (node_ref index) = JsString.prefix k (ttlCharsMatch index) ->
    Returned this' = _createNode this k v index ->
    exists index' a,
      insert this key v = Some (Returned this') /\
      traversal this' k = Some index' /\
      classify k index' = Exact /\
      deref (tree this') (node_ref index') = Some (node index') /\
      data (node index') = Some (a ++ [v])).
  { intros Hcl Hsp' E.
    destruct (create_unmatched _ _ _ _ HT HS Hcl) as (_ & _ & Hempty).
    assert (Hlt : ttlCharsMatch index < String.length k).
    { destruct (Nat.lt_ge_cases (ttlCharsMatch index) (String.length k)) as [|Hge];
        [assumption|]. destruct (Hempty Hge). contradiction. }
    pose proof (_createNode_tree _ this k v index) as Htree.
    rewrite <- E in Htree. simpl in Htree.
    apply (Hfound (node_ref index ++ [JsString.substr k (ttlCharsMatch index)])
                  (leaf v) []).
    - now destruct (node_ref index).
    - apply Forall_app. split; [assumption|].
      constructor; [|constructor].
      now apply JsStringFacts.substr_nonempty.
    - rewrite Htree. eapply deref_store_child; [exact Hn|].
      simpl. apply PropsFacts.get_set_same.
    - rewrite spell_app, Hsp'. simpl. rewrite append_empty_r.
      apply prefix_substr.
    - reflexivity. }
  destruct (classify k index) eqn:Hcl; simpl in Hins'.
  - apply Hcreate; auto. congruence.
  - apply Hcreate; auto. congruence.
  - (* the key was there: the value joins the data of its node *)
    injection Hins' as E. unfold _insertData in E.
    assert (Hp : node_ref index <> []).
    { intros Ep. rewrite Ep in Hsp. simpl in Hsp. congruence. }
    destruct (data (node index)) as [[|x a]|] eqn:Hd.
    + apply (Hfound (node_ref index) (with_data (Some [v]) (node index)) []); auto.
      rewrite E. simpl.
      exact (deref_modify _ _ (fun _ => _) _ _ Hn).
    + apply (Hfound (node_ref index)
                    (with_data (Some ((x :: a) ++ [v])) (node index)) (x :: a));
        auto.
      rewrite E. simpl.
      exact (deref_modify _ _ (fun _ => _) _ _ Hn).
    + apply (Hfound (node_ref index) (with_data (Some [v]) (node index)) []); auto.
      rewrite E. simpl.
      exact (deref_modify _ _ (fun _ => _) _ _ Hn).
  - (* a label was split *)
    pose proof (split_result _ this k v index Ht Hcl) as H.
    cbv zeta in H.
    destruct H as (old & _ & Hold & Hcm & Hlen & n' & inter & Hsplit & Hn'
                   & _ & Htk & _ & _ & _ & HA & HB).
    rewrite Hsplit in Hins'. injection Hins' as E.
    set (tk := JsString.substr2 k (ttlCharsMatch index - charsMatch index)
                                (charsMatch index)) in *.
    assert (Htkne : tk <> "").
    { intros Etk. rewrite Etk in Hlen. simpl in Hlen. lia. }
    assert (Hsptk : (spell (node_ref index) ++ tk)%string =
                    JsString.prefix k (ttlCharsMatch index)).
    { rewrite Hsp. unfold tk, JsString.substr2. rewrite prefix_add.
      f_equal. pose proof (tracks_chars HT). lia. }
    destruct (Nat.eq_dec (ttlCharsMatch index) (String.length k)) as [Hfull|Hmore].
    + destruct (HA Hfull) as [Hdi _].
      apply (Hfound (node_ref index ++ [tk]) inter []).
      * now destruct (node_ref index).
      * apply Forall_app. split; [assumption|]. constructor; auto.
      * rewrite E. simpl. eapply deref_store_child; eauto.
      * rewrite spell_app. simpl. rewrite append_empty_r, Hsptk, Hfull.
        apply prefix_all.
      * assumption.
    + destruct (HB Hmore) as (_ & Hstr & _).
      pose proof (tracks_ttl HT).
      apply (Hfound (node_ref index ++ [tk; JsString.substr k (ttlCharsMatch index)])
                    (leaf v) []).
      * now destruct (node_ref index).
      * apply Forall_app. split; [assumption|].
        constructor; [assumption|]. constructor; [|constructor].
        apply JsStringFacts.substr_nonempty. lia.
      * rewrite E. simpl.
        change (node_ref index ++ [tk; JsString.substr k (ttlCharsMatch index)])
          with (node_ref index ++ [tk] ++ [JsString.substr k (ttlCharsMatch index)]).
        rewrite app_assoc, deref_app.
        rewrite (deref_store_child _ tk _ _ n' inter Hn Htk).
        simpl. now rewrite Hstr.
      * rewrite spell_app. simpl. rewrite append_empty_r.
        rewrite <- append_assoc, Hsptk. apply prefix_substr.
      * reflexivity.
  - exfalso. destruct (classify_spec Value k index) as [Hf _]. contradiction.
Qed.

(** After [insert(key, value)] on a tree made by calls with keys free of
    [$] and [__proto__], with such a key, for which [_processKey] returns
    and that is not empty once processed, the traversal for the key ends
    in an exact match, at a node whose data array ends with the value:
    whichever handler took the call, the value is where [remove] and a
    later [insert] of the same key look for it. *)
Theorem insert_then_found : forall this key v,
  Reachable JSON_stringify this ->
  _processKey_throws this key = false ->
  plain_key (_processKey this key) = true ->
  _processKey this key <> "" ->
  exists this' index' a,
    insert this key v = Some (Returned this') /\
    traversal this' (_processKey this key) = Some index' /\
    classify (_processKey this key) index' = Exact /\
    deref (tree this') (node_ref index') = Some (node index') /\
    data (node index') = Some (a ++ [v]).
Proof. exact insert_found. Qed.


(** ** The counters and the full scans *)

Local Abbreviation kids f cs := (list_sum (map (fun kv => scan f (snd kv)) cs)).

Lemma scan_eq : forall (f : Node Value -> nat) n,
  scan f n = f n + kids f (children n).
Proof.
  intros f [d cs]. simpl. f_equal.
  induction cs as [|[k c] cs IH]; simpl; [reflexivity | now rewrite IH].
Qed.

Lemma kids_update : forall (f : Node Value -> nat) l h cs c,
  Props.get l cs = Some c ->
  kids f (Props.update l h cs) + scan f c = kids f cs + scan f (h c).
Proof.
  intros f l h. induction cs as [|[k0 c0] cs IH]; simpl; intros c Hg;
    [discriminate|].
  destruct (String.eqb_spec l k0) as [->|Hne]; simpl.
  - inversion Hg; subst. lia.
  - specialize (IH c Hg). lia.
Qed.

Lemma kids_perm : forall (f : Node Value -> nat) cs cs',
  Permutation cs cs' -> kids f cs = kids f cs'.
Proof.
  intros f cs cs' H.
  induction H as [|x l l' H IH|x y l|l l' l'' H1 IH1 H2 IH2]; simpl; lia.
Qed.

Lemma kids_set_new : forall (f : Node Value -> nat) k c cs,
  Props.has k cs = false ->
  kids f (Props.set k c cs) = scan f c + kids f cs.
Proof.
  intros f k c cs H.
  now rewrite (kids_perm f _ _ (PropsFacts.set_new_perm k c cs H)).
Qed.

Lemma delete_absent : forall k cs,
  ~ In k (Props.keys cs) -> Props.delete k cs = cs.
Proof.
  intros k. induction cs as [|[k0 c0] cs IH]; simpl; intros H; [reflexivity|].
  destruct (String.eqb_spec k k0) as [->|Hne]; simpl.
  - exfalso. apply H. now left.
  - f_equal. apply IH. tauto.
Qed.

Lemma kids_delete : forall (f : Node Value -> nat) k cs c,
  NoDup (Props.keys cs) ->
  Props.get k cs = Some c ->
  kids f (Props.delete k cs) + scan f c = kids f cs.
Proof.
  intros f k. induction cs as [|[k0 c0] cs IH]; simpl; intros c Hnd Hg;
    [discriminate|].
  apply NoDup_cons_iff in Hnd. destruct Hnd as [Hk Hnd].
  destruct (String.eqb_spec k k0) as [->|Hne]; simpl.
  - inversion Hg; subst.
    fold (Props.delete k0 cs). rewrite delete_absent by assumption. lia.
  - fold (Props.delete k cs). specialize (IH c Hnd Hg). lia.
Qed.

Lemma modify_dangling : forall p h t, deref t p = None -> modify p h t = t.
Proof.
  induction p as [|l p IH]; simpl; intros h t H; [discriminate|].
  rewrite PropsFacts.update_id; [apply with_children_same|].
  intros c Hc. rewrite Hc in H. now apply IH.
Qed.

Section Scans.

(** The scans count what depends on the data of a node only, and nothing
    for a node without values. *)
Variable count : Node Value -> nat.
Hypothesis count_data : forall n m, data n = data m -> count n = count m.
Hypothesis count_none : forall n,
  data n = None \/ data n = Some [] -> count n = 0.

Lemma scan_modify : forall p h t n,
  deref t p = Some n ->
  scan count (modify p h t) + scan count n = scan count t + scan count (h n).
Proof.
  induction p as [|l p IH]; intros h t n Hn.
  - simpl in *. inversion Hn; subst. lia.
  - simpl in Hn.
    destruct (Props.get l (children t)) as [c|] eqn:Hg; [|discriminate].
    change (modify (l :: p) h t)
      with (with_children (Props.update l (modify p h) (children t)) t).
    rewrite (scan_eq count (with_children _ t)), (scan_eq count t).
    change (children (with_children
              (Props.update l (modify p h) (children t)) t))
      with (Props.update l (modify p h) (children t)).
    rewrite (count_data (with_children
                           (Props.update l (modify p h) (children t)) t) t)
      by reflexivity.
    pose proof (kids_update count l (modify p h) _ _ Hg).
    specialize (IH h c n Hn). lia.
Qed.

Lemma scan_store : forall p n' t n,
  deref t p = Some n ->
  scan count (store p n' t) + scan count n = scan count t + scan count n'.
Proof. intros p n' t n H. unfold store. now apply scan_modify. Qed.

Lemma scan_empty : forall n, _isEmpty n = true -> scan count n = 0.
Proof.
  intros n H. rewrite scan_eq. unfold _isEmpty in H.
  destruct (data n) eqn:Hd; [discriminate|].
  destruct (children n); [|discriminate].
  simpl. rewrite count_none; auto.
Qed.

Lemma scan_delete_empty : forall n,
  scan count (delete_empty n) = scan count n.
Proof.
  intros n. rewrite (scan_eq count (delete_empty n)), (scan_eq count n).
  f_equal.
  - unfold delete_empty.
    destruct (data n) as [[|x a]|] eqn:Hd.
    + rewrite !count_none; auto.
    + apply count_data. simpl. now rewrite Hd.
    + apply count_data. simpl. now rewrite Hd.
  - unfold delete_empty. simpl.
    induction (children n) as [|[k c] cs IH]; simpl; [reflexivity|].
    destruct (_isEmpty c) eqn:E; simpl.
    + rewrite scan_empty by assumption. assumption.
    + now rewrite IH.
Qed.

Lemma scan_removeEmptyParents : forall ps t,
  scan count (_removeEmptyParents ps t) = scan count t.
Proof.
  intros ps. unfold _removeEmptyParents.
  induction (rev ps) as [|p l IH]; simpl; intros t; [reflexivity|].
  rewrite IH.
  destruct (deref t p) as [n|] eqn:Hn.
  - pose proof (scan_modify p (@delete_empty Value) t n Hn) as H.
    rewrite scan_delete_empty in H. lia.
  - now rewrite modify_dangling.
Qed.

(** A node created: the scan grows by what the new leaf counts. *)
Lemma scan_add_child : forall n r v,
  Props.get r (children n) = None ->
  scan count (add_child r v n) = scan count n + count (leaf v).
Proof.
  intros n r v H.
  rewrite (scan_eq count (add_child r v n)), (scan_eq count n). simpl.
  rewrite kids_set_new by now apply PropsFacts.has_false.
  rewrite (count_data (add_child r v n) n) by reflexivity.
  rewrite (scan_eq count (leaf v)). simpl. lia.
Qed.

Lemma scan_intermediate : forall key v index old,
  JsString.substr key (ttlCharsMatch index) <>
    JsString.substr (nodeKey index) (charsMatch index) ->
  scan count (intermediate key v index old) =
  scan count old + count (leaf v).
Proof.
  intros key v index old Hne. unfold intermediate.
  destruct (ttlCharsMatch index =? String.length key).
  - rewrite scan_eq. simpl. rewrite PropsFacts.set_nil. simpl.
    rewrite (count_data _ (leaf v)) by reflexivity. lia.
  - rewrite scan_eq. simpl.
    rewrite kids_set_new.
    + rewrite (count_none (mkNode None _)) by (left; reflexivity).
      cbn [map list_sum snd]. rewrite (scan_eq count (leaf v)).
      cbn [leaf children map]. unfold list_sum. cbn [fold_right]. lia.
    + unfold Props.has. simpl.
      destruct (String.eqb_spec
                  (JsString.substr (nodeKey index) (charsMatch index))
                  (JsString.substr key (ttlCharsMatch index)));
        [congruence | reflexivity].
Qed.

(** What [insert] adds to a scan: what the new leaf counts where a node is
    created or a label split, and what the data of the node found gains
    where the key is matched exactly. *)
Lemma insert_scan : forall this key v index this',
  well_formed (tree this) ->
  _processKey_throws this key = false ->
  _processKey this key <> "" ->
  traversal this (_processKey this key) = Some index ->
  insert this key v = Some (Returned this') ->
  match classify (_processKey this key) index with
  | Exact =>
      exists n',
        deref (tree this') (node_ref index) = Some n' /\
        data n' = match data (node index) with
                  | Some (x :: a) => Some ((x :: a) ++ [v])
                  | _ => Some [v]
                  end /\
        scan count (tree this') + count (node index) =
        scan count (tree this) + count n'
  | _ => scan count (tree this') = scan count (tree this) + count (leaf v)
  end.
Proof.
  intros this key v index this' Hwf Hthrow Hkey Ht Hins.
  set (k := _processKey this key) in *.
  pose proof (traversal_tracks _ _ _ _ Ht) as HT.
  pose proof (traversal_stopped _ _ _ _ Ht) as HS.
  pose proof (tracks_node HT) as Hn.
  rewrite insert_traversal in Hins by assumption.
  fold k in Hins. rewrite Ht in Hins.
  simpl in Hins. unfold _processResults in Hins.
  assert (Hcreate :
    classify k index = NonExistent \/ classify k index = Suffix ->
    Some (_createNode this k v index) = Some (Returned this') ->
    scan count (tree this') = scan count (tree this) + count (leaf v)).
  { intros Hcl E0.
    assert (E : _createNode this k v index = Returned this') by congruence.
    clear E0.
    destruct (create_unmatched _ _ _ _ HT HS Hcl) as (_ & Hnone & Hempty).
    assert (Hlt : ttlCharsMatch index < String.length k).
    { destruct (Nat.lt_ge_cases (ttlCharsMatch index) (String.length k)) as [|Hge];
        [assumption|]. destruct (Hempty Hge). contradiction. }
    pose proof (_createNode_tree _ this k v index) as Htree.
    rewrite E in Htree. simpl in Htree. rewrite Htree.
    pose proof (scan_store (node_ref index)
                  (add_child (JsString.substr k (ttlCharsMatch index)) v
                             (node index)) _ _ Hn) as H.
    rewrite scan_add_child in H; [lia|].
    apply first_match_None_get
      with (tempKey := JsString.substr k (ttlCharsMatch index)); auto.
    rewrite JsStringFacts.match_len_same, JsStringFacts.length_substr. lia. }
  destruct (classify k index) eqn:Hcl; simpl in Hins; auto.
  - injection Hins as E. unfold _insertData in E.
    eexists. split; [|split].
    + rewrite <- E. simpl. exact (deref_modify _ _ (fun _ => _) _ _ Hn).
    + destruct (data (node index)) as [[|x a]|]; reflexivity.
    + rewrite <- E. simpl.
      pose proof (scan_store (node_ref index)
        (match data (node index) with
         | Some (x :: l) => with_data (Some ((x :: l) ++ [v])) (node index)
         | _ => with_data (Some [v]) (node index)
         end) _ _ Hn) as H.
      rewrite (scan_eq count (node index)) in H.
      rewrite (scan_eq count (match data (node index) with
         | Some (x :: l) => with_data (Some ((x :: l) ++ [v])) (node index)
         | _ => with_data (Some [v]) (node index)
         end)) in H.
      replace (children (match data (node index) with
         | Some (x :: l) => with_data (Some ((x :: l) ++ [v])) (node index)
         | _ => with_data (Some [v]) (node index)
         end)) with (children (node index)) in H
        by (destruct (data (node index)) as [[|x a]|]; reflexivity).
      cbn [app] in H. lia.
  - destruct (split_state _ _ _ _ HT HS Hcl) as (old & Hold & Hcm & Htk & Hdiv).
    assert (Hne : JsString.substr2 k (ttlCharsMatch index - charsMatch index)
                    (charsMatch index) <> nodeKey index).
    { rewrite Htk. apply prefix_shorter. lia. }
    rewrite (_splitNode_state _ this k v index old Hold Hne) in Hins.
    injection Hins as E. rewrite <- E. simpl. rewrite Htk.
    set (tk := JsString.prefix (nodeKey index) (charsMatch index)) in *.
    destruct (well_formed_deref _ _ _ _ Hwf Hn) as [Hr _].
    apply AllNodes_here in Hr.
    assert (Htkfresh : Props.has tk (children (node index)) = false).
    { apply PropsFacts.has_false, PropsFacts.get_none. intros Hin.
      apply (prefix_shorter (nodeKey index) (charsMatch index)); [lia|].
      fold tk.
      apply (ListFacts.NoDup_map_eq JsString.charAt0
               (Props.keys (children (node index)))); auto.
      - pose proof (PropsFacts.get_In _ _ _ Hold) as Hin'.
        apply (in_map fst) in Hin'. exact Hin'.
      - unfold tk. apply JsStringFacts.charAt0_prefix. lia. }
    pose proof (scan_store (node_ref index)
      (with_children
         (Props.delete (nodeKey index)
            (Props.set tk (intermediate k v index old) (children (node index))))
         (node index)) _ _ Hn) as H.
    rewrite (scan_eq count (with_children _ (node index))) in H.
    rewrite (scan_eq count (node index)) in H. simpl in H.
    rewrite (count_data (with_children
               (Props.delete (nodeKey index)
                  (Props.set tk (intermediate k v index old)
                     (children (node index)))) (node index)) (node index)) in H
      by reflexivity.
    pose proof (kids_delete count (nodeKey index)
                  (Props.set tk (intermediate k v index old)
                             (children (node index))) old) as Hdel.
    rewrite kids_set_new in Hdel by assumption.
    rewrite scan_intermediate in Hdel.
    + assert (Hd : kids count
                     (Props.delete (nodeKey index)
                        (Props.set tk (intermediate k v index old)
                           (children (node index)))) + scan count old =
                   scan count old + count (leaf v) +
                   kids count (children (node index))).
      { apply Hdel.
        - eapply Permutation_NoDup.
          + symmetry. apply PropsFacts.keys_set_new, Htkfresh.
          + constructor.
            * now apply PropsFacts.get_none, PropsFacts.has_false.
            * now apply radix_keys.
        - rewrite PropsFacts.get_set_other; [assumption|].
          unfold tk. apply prefix_shorter. lia. }
      lia.
    + intros Es.
      destruct (Nat.eq_dec (ttlCharsMatch index) (String.length k)) as [Hf|Hm].
      * pose proof (JsStringFacts.length_substr k (ttlCharsMatch index)) as L1.
        pose proof (JsStringFacts.length_substr (nodeKey index)
                      (charsMatch index)) as L2.
        rewrite Es in L1. lia.
      * apply Hdiv; [pose proof (tracks_ttl HT); lia | now rewrite Es].
  - exfalso. destruct (classify_spec Value k index) as [Hf _]. contradiction.
Qed.

Lemma scan_delete_data : forall this index n0,
  deref (tree this) (node_ref index) = Some n0 ->
  children n0 = children (node index) ->
  scan count (tree (delete_data this index)) + count n0 =
  scan count (tree this).
Proof.
  intros this index n0 Hn Hc.
  rewrite delete_data_tree.
  assert (H : scan count (store (node_ref index) (with_data None (node index))
                                (tree this)) + count n0 =
              scan count (tree this)).
  { pose proof (scan_store (node_ref index) (with_data None (node index))
                           _ _ Hn) as H.
    rewrite (scan_eq count n0),
            (scan_eq count (with_data None (node index))) in H.
    rewrite Hc in H.
    change (children (with_data None (node index)))
      with (children (node index)) in H.
    rewrite (count_none (with_data None (node index))) in H
      by (left; reflexivity).
    lia. }
  destruct (_isEmpty _); [rewrite scan_removeEmptyParents|]; exact H.
Qed.

(** What [_removeData] takes from a scan and from the counters, branch by
    branch. *)
Lemma _removeData_scan : forall this key d index this',
  deref (tree this) (node_ref index) = Some (node index) ->
  _removeData JSON_stringify this key d index = Returned this' ->
  exists n',
    scan count (tree this') + count (node index) =
    scan count (tree this) + count n' /\
    match d, data (node index) with
    | _, None => False
    | None, Some a =>
        data n' = None /\
        dataCount this' = (dataCount this - Z.of_nat (length a))%Z /\
        keywordCount this' = (keywordCount this - 1)%Z
    | Some v, Some a =>
        let i := find_data JSON_stringify (JSON_stringify v) a in
        if i <? length a
        then dataCount this' = (dataCount this - 1)%Z /\
             if length (splice1 i a) =? 0
             then data n' = None /\
                  keywordCount this' = (keywordCount this - 1)%Z
             else data n' = Some (splice1 i a) /\
                  keywordCount this' = keywordCount this
        else n' = node index /\
             dataCount this' = dataCount this /\
             keywordCount this' = keywordCount this
    end.
Proof.
  intros this key d index this' Hn H. unfold _removeData in H.
  destruct d as [v|]; destruct (data (node index)) as [a|] eqn:Ha;
    try discriminate.
  - cbv zeta.
    destruct (find_data JSON_stringify (JSON_stringify v) a <? length a).
    + set (n1 := with_data
                   (Some (splice1 (find_data JSON_stringify (JSON_stringify v) a) a))
                   (node index)) in *.
      pose proof (scan_store (node_ref index) n1 _ _ Hn) as H1.
      rewrite (scan_eq count (node index)), (scan_eq count n1) in H1.
      change (children n1) with (children (node index)) in H1.
      destruct (length (splice1 _ a) =? 0).
      * injection H as E. subst this'.
        exists (with_data None (node index)).
        split; [|split; [|split]].
        -- match goal with
           | |- context [delete_data ?t index] =>
               pose proof (scan_delete_data t index n1) as H2
           end.
           simpl in H2.
           rewrite (count_none (with_data None (node index)))
             by (left; reflexivity).
           specialize (H2 (deref_modify _ _ (fun _ => n1) _ _ Hn) eq_refl).
           lia.
        -- match goal with
           | |- context [delete_data ?t index] =>
               destruct (delete_data_fields t index) as (_ & _ & -> & _)
           end.
           reflexivity.
        -- reflexivity.
        -- match goal with
           | |- context [delete_data ?t index] =>
               destruct (delete_data_fields t index) as (_ & _ & _ & ->)
           end.
           reflexivity.
      * injection H as E. subst this'. exists n1. simpl.
        repeat split. lia.
    + injection H as E. subst this'. exists (node index). simpl.
      repeat split.
  - injection H as E. subst this'. exists (with_data None (node index)).
    split; [|split; [|split]].
    + pose proof (scan_delete_data
                    (set_dataCount (dataCount this - Z.of_nat (length a)) this)
                    index (node index) Hn eq_refl) as H2.
      rewrite (count_none (with_data None (node index)))
        by (left; reflexivity).
      simpl in H2. lia.
    + reflexivity.
    + destruct (delete_data_fields
                  (set_dataCount (dataCount this - Z.of_nat (length a)) this)
                  index) as (_ & _ & -> & _).
      reflexivity.
    + destruct (delete_data_fields
                  (set_dataCount (dataCount this - Z.of_nat (length a)) this)
                  index) as (_ & _ & _ & ->).
      reflexivity.
Qed.

End Scans.

Lemma data_length_data : forall n m : Node Value,
  data n = data m -> data_length n = data_length m.
Proof. intros n m H. unfold data_length. now rewrite H. Qed.

Lemma data_length_none : forall n : Node Value,
  data n = None \/ data n = Some [] -> data_length n = 0.
Proof. intros n [H|H]; unfold data_length; now rewrite H. Qed.

Local Abbreviation keyword := (fun n : Node Value => if has_data n then 1 else 0).

Lemma keyword_data : forall n m : Node Value,
  data n = data m -> keyword n = keyword m.
Proof. intros n m H. unfold has_data. now rewrite H. Qed.

Lemma keyword_none : forall n : Node Value,
  data n = None \/ data n = Some [] -> keyword n = 0.
Proof. intros n [H|H]; unfold has_data; now rewrite H. Qed.

Lemma length_splice1 : forall i (a : list Value),
  i < length a -> S (length (splice1 i a)) = length a.
Proof.
  induction i as [|i IH]; intros [|x a] H; simpl in *; try lia.
  rewrite IH; lia.
Qed.

(** [_removeData] takes from each counter what it takes from the tree. *)
Lemma _removeData_drift : forall this key d index this',
  data (node index) <> Some [] ->
  deref (tree this) (node_ref index) = Some (node index) ->
  _removeData JSON_stringify this key d index = Returned this' ->
  (Z.of_nat (scan_data (tree this')) - dataCount this' =
   Z.of_nat (scan_data (tree this)) - dataCount this)%Z /\
  (Z.of_nat (scan_keywords (tree this')) - keywordCount this' =
   Z.of_nat (scan_keywords (tree this)) - keywordCount this)%Z.
Proof.
  intros this key d index this' Hclean Hn H.
  destruct (_removeData_scan data_length data_length_data data_length_none
              this key d index this' Hn H) as (n1 & Hs1 & Hm1).
  destruct (_removeData_scan keyword keyword_data keyword_none
              this key d index this' Hn H) as (n2 & Hs2 & Hm2).
  unfold scan_data, scan_keywords.
  unfold data_length in Hs1 |- *. unfold has_data in Hs2 |- *.
  cbv beta in Hs1, Hs2.
  destruct d as [v|]; destruct (data (node index)) as [a|] eqn:Ha;
    try contradiction.
  - cbv zeta in Hm1, Hm2.
    destruct (Nat.ltb_spec (find_data JSON_stringify (JSON_stringify v) a)
                           (length a)) as [Hlt|Hge].
    + pose proof (length_splice1 _ _ Hlt) as Hl.
      destruct Hm1 as [Hdc Hm1]. destruct Hm2 as [_ Hm2].
      destruct (Nat.eqb_spec
                  (length (splice1 (find_data JSON_stringify
                                      (JSON_stringify v) a) a)) 0) as [E|E].
      * destruct Hm1 as [Hd1 _]. destruct Hm2 as [Hd2 Hkc].
        rewrite Hd1 in Hs1. rewrite Hd2 in Hs2.
        destruct a as [|x a]; [congruence|]. simpl in *. lia.
      * destruct Hm1 as [Hd1 _]. destruct Hm2 as [Hd2 Hkc].
        rewrite Hd1 in Hs1. rewrite Hd2 in Hs2.
        destruct a as [|x a]; [congruence|].
        destruct (splice1 _ (x :: a)) as [|y a']; [simpl in E; lia|].
        simpl in *. lia.
    + destruct Hm1 as (-> & Hdc & _). destruct Hm2 as (-> & _ & Hkc).
      rewrite Ha in Hs1, Hs2. lia.
  - destruct Hm1 as (Hd1 & Hdc & _). destruct Hm2 as (Hd2 & _ & Hkc).
    rewrite Hd1 in Hs1. rewrite Hd2 in Hs2.
    destruct a as [|x a]; [congruence|]. simpl in *. lia.
Qed.

Lemma remove_drift : forall this key d o,
  well_formed (tree this) ->
  remove JSON_stringify this key d = Some o ->
  (Z.of_nat (scan_data (tree (state_of o))) - dataCount (state_of o) =
   Z.of_nat (scan_data (tree this)) - dataCount this)%Z /\
  (Z.of_nat (scan_keywords (tree (state_of o))) - keywordCount (state_of o) =
   Z.of_nat (scan_keywords (tree this)) - keywordCount this)%Z.
Proof.
  intros this key d o Hwf H.
  destruct (_processKey_throws this key) eqn:Hthrow.
  { rewrite remove_throws in H by assumption.
    inversion H; subst o. simpl. split; reflexivity. }
  rewrite remove_traversal in H by assumption.
  destruct (traversal this (_processKey this key)) as [index|] eqn:Ht;
    [|discriminate].
  simpl in H. injection H as H.
  pose proof (traversal_tracks _ _ _ _ Ht) as HT.
  pose proof (tracks_node HT) as Hn.
  set (k := _processKey this key) in *.
  assert (Herr : _removeError this k d index = o ->
    (Z.of_nat (scan_data (tree (state_of o))) - dataCount (state_of o) =
     Z.of_nat (scan_data (tree this)) - dataCount this)%Z /\
    (Z.of_nat (scan_keywords (tree (state_of o))) - keywordCount (state_of o) =
     Z.of_nat (scan_keywords (tree this)) - keywordCount this)%Z).
  { intros E. destruct (_removeError_state _ this k d index) as [msg Hm].
    rewrite Hm in E. rewrite <- E. simpl. split; reflexivity. }
  unfold _processResults in H.
  destruct (classify k index) eqn:Hcl; simpl in H; auto.
  - destruct o as [this'|e this'].
    + apply (_removeData_drift this k d index this'); auto.
      destruct (well_formed_deref _ _ _ _ Hwf Hn) as [_ Hc].
      apply AllNodes_here in Hc. apply Hc.
    + assert (this' = this).
      { unfold _removeData in H.
        destruct d; destruct (data (node index));
          try destruct (_ <? _); try destruct (_ =? _);
          congruence. }
      subst this'. simpl. split; reflexivity.
  - subst o. simpl. split; reflexivity.
Qed.

Lemma insert_drift : forall this key v o,
  well_formed (tree this) ->
  _processKey this key <> "" ->
  insert this key v = Some o ->
  (Z.of_nat (scan_data (tree (state_of o))) - dataCount (state_of o) =
   Z.of_nat (scan_data (tree this)) - dataCount this)%Z /\
  (Z.of_nat (scan_keywords (tree this)) - keywordCount this <=
   Z.of_nat (scan_keywords (tree (state_of o))) - keywordCount (state_of o))%Z.
Proof.
  intros this key v o Hwf Hkey H.
  destruct (_processKey_throws this key) eqn:Hthrow.
  { rewrite insert_throws in H by assumption.
    inversion H; subst o. simpl. split; [reflexivity | lia]. }
  destruct (insert_effect this key v Hthrow)
    as (index & this' & Ht & Hins & _ & _ & Hdc & Hkc).
  assert (o = Returned this') by congruence. subst o. simpl.
  pose proof (insert_scan data_length data_length_data data_length_none
                this key v index this' Hwf Hthrow Hkey Ht Hins) as H1.
  pose proof (insert_scan keyword keyword_data keyword_none
                this key v index this' Hwf Hthrow Hkey Ht Hins) as H2.
  unfold scan_data, scan_keywords.
  destruct (classify (_processKey this key) index);
    try (cbv beta in H2;
         change (data_length (leaf v)) with 1 in H1;
         change (if has_data (leaf v) then 1 else 0) with 1 in H2;
         lia).
  destruct H1 as (n1 & _ & Hd1 & Hs1). destruct H2 as (n2 & _ & Hd2 & Hs2).
  unfold data_length in Hs1 |- *. unfold has_data in Hs2 |- *.
  cbv beta in Hs1, Hs2.
  rewrite Hd1 in Hs1. rewrite Hd2 in Hs2.
  destruct (data (node index)) as [[|x a]|]; simpl in *;
    try rewrite length_app in Hs1; simpl in *; lia.
Qed.

Lemma ReachableNonEmpty_Reachable : forall this,
  ReachableNonEmpty JSON_stringify this -> Reachable JSON_stringify this.
Proof.
  intros this H.
  induction H as [swap | this key v o _ IH Hp _ Hi | this key d o _ IH Hp Hr].
  - constructor.
  - eapply Reachable_insert; eauto.
  - eapply Reachable_remove; eauto.
Qed.

Lemma counters_scans : forall this,
  ReachableNonEmpty JSON_stringify this ->
  dataCount this = Z.of_nat (scan_data (tree this)) /\
  (keywordCount this <= Z.of_nat (scan_keywords (tree this)))%Z.
Proof.
  intros this H.
  induction H as [swap | this key v o H IH Hp Hk Hi | this key d o H IH Hp Hr].
  - simpl. split; [reflexivity | cbv; discriminate].
  - apply ReachableNonEmpty_Reachable, Reachable_well_formed in H.
    destruct (insert_drift this key v o H Hk Hi). lia.
  - apply ReachableNonEmpty_Reachable, Reachable_well_formed in H.
    destruct (remove_drift this key d o H Hr). lia.
Qed.

(** After any calls of [insert] and [remove] on a new tree with keys free
    of [$] and [__proto__], no inserted key being empty once processed,
    [dataCount] is the number of values held in the tree. *)
Theorem dataCount_is_scan : forall this,
  ReachableNonEmpty JSON_stringify this ->
  dataCount this = Z.of_nat (scan_data (tree this)).
Proof. intros this H. now apply counters_scans. Qed.

(** After any calls of [insert] and [remove] on a new tree with keys free
    of [$] and [__proto__], no inserted key being empty once processed,
    [keywordCount] is never more than the number of nodes of the tree that
    hold values. *)
Theorem keywordCount_at_most_scan : forall this,
  ReachableNonEmpty JSON_stringify this ->
  (keywordCount this <= Z.of_nat (scan_keywords (tree this)))%Z.
Proof. intros this H. now apply counters_scans. Qed.

(** On a tree made by calls with keys free of [$] and [__proto__], a call
    of [remove] with such a key takes from each counter exactly what it
    takes from the tree: the difference between a full scan and its
    counter is the same after the call as before, however the call
    ends. *)
Theorem remove_keeps_drift : forall this key d o,
  Reachable JSON_stringify this ->
  plain_key (_processKey this key) = true ->
  remove JSON_stringify this key d = Some o ->
  (Z.of_nat (scan_data (tree (state_of o))) - dataCount (state_of o) =
   Z.of_nat (scan_data (tree this)) - dataCount this)%Z /\
  (Z.of_nat (scan_keywords (tree (state_of o))) - keywordCount (state_of o) =
   Z.of_nat (scan_keywords (tree this)) - keywordCount this)%Z.
Proof.
  intros this key d o H _. apply remove_drift.
  now apply (Reachable_well_formed Value JSON_stringify).
Qed.

End More.

(** ** The further properties on sample trees *)

Lemma ReachableNonEmpty_inserted : forall key v this,
  ReachableNonEmpty Sample.show this ->
  plain_key (_processKey this key) = true ->
  _processKey this key <> "" ->
  ReachableNonEmpty Sample.show (Sample.inserted key v this).
Proof.
  intros key v this H Hk Hne. unfold Sample.inserted.
  destruct (insert this key v) as [o|] eqn:E; [|assumption].
  eapply ReachableNonEmpty_insert; eauto.
Qed.

Lemma ReachableNonEmpty_cart_cast_ca :
  ReachableNonEmpty Sample.show Sample.cart_cast_ca.
Proof.
  repeat (apply ReachableNonEmpty_inserted; [|reflexivity|discriminate]).
  apply ReachableNonEmpty_create.
Qed.

(** [insert("cast", 2)] after [insert("cart", 1)]. *)
Lemma insert_always_adds_witness :
  Reachable Sample.show Sample.cart /\
  _processKey_throws Sample.cart "cast" = false /\
  plain_key (_processKey Sample.cart "cast") = true /\
  safe_integer (keywordCount Sample.cart) = true /\
  safe_integer (dataCount Sample.cart) = true /\
  exists index this',
    traversal Sample.cart (_processKey Sample.cart "cast") = Some index /\
    insert Sample.cart "cast" 2%Z = Some (Returned this') /\
    console this' = console Sample.cart /\
    keySwap this' = keySwap Sample.cart /\
    dataCount this' = (dataCount Sample.cart + 1)%Z /\
    keywordCount this' =
      match classify (_processKey Sample.cart "cast") index with
      | Exact => keywordCount Sample.cart
      | _ => (keywordCount Sample.cart + 1)%Z
      end.
Proof.
  split; [apply Reachable_cart|].
  split; [reflexivity|]. split; [reflexivity|].
  split; [reflexivity|]. split; [reflexivity|].
  apply (insert_always_adds Z Sample.show Sample.cart "cast" 2%Z).
  - apply Reachable_cart.
  - reflexivity.
  - reflexivity.
  - reflexivity.
  - reflexivity.
Defined.

(** The node ["ca"] after [insert("cart", 1)] and [insert("cast", 2)]. *)
Lemma reachable_no_hollow_node_witness :
  Reachable Sample.show Sample.cart_cast /\
  deref (tree Sample.cart_cast) ["ca"] =
    Some (Sample.node_at ["ca"] Sample.cart_cast) /\
  data (Sample.node_at ["ca"] Sample.cart_cast) <> Some [] /\
  (["ca"] <> [] -> _isEmpty (Sample.node_at ["ca"] Sample.cart_cast) = false).
Proof.
  split; [apply Reachable_cart_cast|]. split; [reflexivity|].
  apply (reachable_no_hollow_node Z Sample.show Sample.cart_cast ["ca"]
           (Sample.node_at ["ca"] Sample.cart_cast)).
  - apply Reachable_cart_cast.
  - reflexivity.
Defined.

Lemma pruning_reachable_tree_witness :
  Reachable Sample.show Sample.cart_cast /\
  _removeEmptyParents [[]; ["ca"]] (tree Sample.cart_cast) =
    tree Sample.cart_cast.
Proof.
  split; [apply Reachable_cart_cast|].
  apply (pruning_reachable_tree Z Sample.show Sample.cart_cast [[]; ["ca"]]).
  apply Reachable_cart_cast.
Defined.


(** ["Big Cat"] with the alias table [{cat: "dog"}]. *)
Lemma _processKey_idempotent_witness :
  _processKey_throws Sample.aliased "Big Cat" = false /\
  alias Sample.aliased (_processKey Sample.aliased "Big Cat") = NoAlias /\
  _processKey_throws Sample.aliased (_processKey Sample.aliased "Big Cat") =
    false /\
  _processKey Sample.aliased (_processKey Sample.aliased "Big Cat") =
    _processKey Sample.aliased "Big Cat".
Proof.
  split; [reflexivity|]. split; [reflexivity|].
  apply (_processKey_idempotent Z Sample.aliased "Big Cat"); reflexivity.
Defined.

(** The traversal for ["cas"] after [insert("cart", 1)] and
    [insert("cast", 2)] stops in the label ["st"] under ["ca"]. *)
Lemma traversal_spells_witness :
  traversal Sample.cart_cast "cas" =
    Some (Sample.traversed "cas" Sample.cart_cast) /\
  classify "cas" (Sample.traversed "cas" Sample.cart_cast) = Exists /\
  deref (tree Sample.cart_cast)
        (node_ref (Sample.traversed "cas" Sample.cart_cast)) =
    Some (node (Sample.traversed "cas" Sample.cart_cast)) /\
  Forall (fun l => l <> "")
         (node_ref (Sample.traversed "cas" Sample.cart_cast)) /\
  match classify "cas" (Sample.traversed "cas" Sample.cart_cast) with
  | Exact => spell (node_ref (Sample.traversed "cas" Sample.cart_cast)) = "cas"
  | Exists =>
      spell (node_ref (Sample.traversed "cas" Sample.cart_cast)) =
        JsString.prefix "cas"
          (ttlCharsMatch (Sample.traversed "cas" Sample.cart_cast) -
           charsMatch (Sample.traversed "cas" Sample.cart_cast))
  | _ =>
      spell (node_ref (Sample.traversed "cas" Sample.cart_cast)) =
        JsString.prefix "cas"
          (ttlCharsMatch (Sample.traversed "cas" Sample.cart_cast))
  end.
Proof.
  split; [reflexivity|]. split; [reflexivity|].
  apply (traversal_spells Z Sample.cart_cast "cas"
           (Sample.traversed "cas" Sample.cart_cast)).
  reflexivity.
Defined.

Lemma exact_iff_spelled_witness :
  Reachable Sample.show Sample.cart_cast /\
  plain_key "cast" = true /\
  ((exists index,
      traversal Sample.cart_cast "cast" = Some index /\
      classify "cast" index = Exact)
   <->
   (exists p n,
      p <> [] /\ Forall (fun l => l <> "") p /\
      deref (tree Sample.cart_cast) p = Some n /\ spell p = "cast")).
Proof.
  split; [apply Reachable_cart_cast|]. split; [reflexivity|].
  apply (exact_iff_spelled Z Sample.show Sample.cart_cast "cast").
  - apply Reachable_cart_cast.
  - reflexivity.
Defined.

(** [insert("cast", 2)] after [insert("cart", 1)]: the label ["cart"] is
    split. *)
Lemma insert_then_found_witness :
  Reachable Sample.show Sample.cart /\
  _processKey_throws Sample.cart "cast" = false /\
  plain_key (_processKey Sample.cart "cast") = true /\
  _processKey Sample.cart "cast" <> "" /\
  exists this' index' a,
    insert Sample.cart "cast" 2%Z = Some (Returned this') /\
    traversal this' (_processKey Sample.cart "cast") = Some index' /\
    classify (_processKey Sample.cart "cast") index' = Exact /\
    deref (tree this') (node_ref index') = Some (node index') /\
    data (node index') = Some (a ++ [2%Z]).
Proof.
  split; [apply Reachable_cart|]. split; [reflexivity|].
  split; [reflexivity|]. split; [discriminate|].
  apply (insert_then_found Z Sample.show Sample.cart "cast" 2%Z).
  - apply Reachable_cart.
  - reflexivity.
  - reflexivity.
  - discriminate.
Defined.


Lemma dataCount_is_scan_witness :
  ReachableNonEmpty Sample.show Sample.cart_cast_ca /\
  dataCount Sample.cart_cast_ca =
    Z.of_nat (scan_data (tree Sample.cart_cast_ca)).
Proof.
  split; [apply ReachableNonEmpty_cart_cast_ca|].
  apply (dataCount_is_scan Z Sample.show Sample.cart_cast_ca).
  apply ReachableNonEmpty_cart_cast_ca.
Defined.

(** After [insert("cart", 1)], [insert("cast", 2)] and [insert("ca", 3)]
    three nodes hold values and [keywordCount] is 2. *)
Lemma keywordCount_at_most_scan_witness :
  ReachableNonEmpty Sample.show Sample.cart_cast_ca /\
  keywordCount Sample.cart_cast_ca = 2%Z /\
  scan_keywords (tree Sample.cart_cast_ca) = 3 /\
  (keywordCount Sample.cart_cast_ca <=
   Z.of_nat (scan_keywords (tree Sample.cart_cast_ca)))%Z.
Proof.
  split; [apply ReachableNonEmpty_cart_cast_ca|].
  split; [reflexivity|]. split; [reflexivity|].
  apply (keywordCount_at_most_scan Z Sample.show Sample.cart_cast_ca).
  apply ReachableNonEmpty_cart_cast_ca.
Defined.

(** [remove("cat", 1)] where ["cat"] holds 1, 2 and 1. *)
Lemma remove_keeps_drift_witness :
  Reachable Sample.show Sample.cat_1_2_1 /\
  plain_key (_processKey Sample.cat_1_2_1 "cat") = true /\
  remove Sample.show Sample.cat_1_2_1 "cat" (Some 1%Z) =
    Some (Returned (Sample.removed "cat" (Some 1%Z) Sample.cat_1_2_1)) /\
  (Z.of_nat (scan_data (tree (Sample.removed "cat" (Some 1%Z) Sample.cat_1_2_1)))
   - dataCount (Sample.removed "cat" (Some 1%Z) Sample.cat_1_2_1) =
   Z.of_nat (scan_data (tree Sample.cat_1_2_1)) - dataCount Sample.cat_1_2_1)%Z /\
  (Z.of_nat (scan_keywords
               (tree (Sample.removed "cat" (Some 1%Z) Sample.cat_1_2_1)))
   - keywordCount (Sample.removed "cat" (Some 1%Z) Sample.cat_1_2_1) =
   Z.of_nat (scan_keywords (tree Sample.cat_1_2_1))
   - keywordCount Sample.cat_1_2_1)%Z.
Proof.
  split; [apply Reachable_cat_1_2_1|]. split; [reflexivity|].
  split; [reflexivity|].
  apply (remove_keeps_drift Z Sample.show Sample.cat_1_2_1 "cat" (Some 1%Z)
           (Returned (Sample.removed "cat" (Some 1%Z) Sample.cat_1_2_1))).
  - apply Reachable_cat_1_2_1.
  - reflexivity.
  - reflexivity.
Defined.
